(** * Suffix array construction (Kärkkäinen–Sanders), [suffixarray.js]

    A shallow embedding of [bsort], [_suffixArray] and the public
    [suffixArray] of [suffixarray.js], and the properties of the
    specification checked against it.

    Conventions of the embedding.
    - JavaScript numbers that hold indices, symbols and ranks are [Z].
      The operators [>>] and [&] work on the 32-bit two's complement image
      of their operands; [ToInt32] writes that wrap-around out.
    - A number that may be [NaN] (a length that came from a string, the
      difference of two table reads one of which is [undefined]) is a [num].
    - Symbols are integers; the code only compares and subtracts them, and
      sorts them by their low 32 bits.
    - Arrays are lists, and a loop over the positions of an array is a
      recursion over the list.  The two tables that the code fills at
      computed positions ([lookup], and [b] while it holds the lexicographic
      names) are finite maps; a position never written reads as [None]
      ([undefined]).
    - A call that does not return is [None]: [fuel] bounds the depth of the
      recursion and the iterations of the one loop that can run away. *)

From Stdlib Require Import ZArith Lia String Ascii Permutation Sorted.
From stdpp Require Import gmap list.

Local Open Scope Z_scope.

(** ** JavaScript numbers *)

Module JS.

Inductive num : Type :=
| NaN
| Int (z : Z).

(** [ToInt32]: reduce modulo 2^32 into [-2^31, 2^31). *)
Definition ToInt32 (x : Z) : Z :=
  let m := x mod 2 ^ 32 in
  if m <? 2 ^ 31 then m else m - 2 ^ 32.

(** [x >> d]: signed shift of the 32-bit image, count taken modulo 32. *)
Definition sar (x d : Z) : Z := Z.shiftr (ToInt32 x) (Z.land d 31).

(** [x & y] on the 32-bit images. *)
Definition band (x y : Z) : Z := ToInt32 (Z.land (ToInt32 x) (ToInt32 y)).

(** [ToInt32] of a [num]: [NaN] becomes 0. *)
Definition num_ToInt32 (x : num) : Z :=
  match x with NaN => 0 | Int z => ToInt32 z end.

Definition num_add (x y : num) : num :=
  match x, y with Int a, Int b => Int (a + b) | _, _ => NaN end.

Definition num_sub (x y : num) : num :=
  match x, y with Int a, Int b => Int (a - b) | _, _ => NaN end.

(** [x < y]; every comparison with [NaN] is false. *)
Definition num_lt (x y : num) : bool :=
  match x, y with Int a, Int b => a <? b | _, _ => false end.

(** [x >= y]. *)
Definition num_ge (x y : num) : bool :=
  match x, y with Int a, Int b => b <=? a | _, _ => false end.

(** [x % 3 == 1]; [%] takes the sign of the dividend, as [Z.rem]. *)
Definition num_rem3_is1 (x : num) : bool :=
  match x with Int a => Z.rem a 3 =? 1 | NaN => false end.

(** [Math.floor(2 * x / 3)]. *)
Definition floor_2_3 (x : num) : num :=
  match x with Int a => Int (2 * a / 3) | NaN => NaN end.

(** [x || y] for a number [x]: 0 is falsy. *)
Definition or_else (x : Z) (y : num) : num :=
  if x =? 0 then y else Int x.

(** The difference of two table reads; [undefined - n] is [NaN]. *)
Definition undef_sub (x y : option Z) : num :=
  match x, y with Some a, Some b => Int (a - b) | _, _ => NaN end.

(** Numbers are binary64: every integer up to [max_int] in size is one,
    beyond it only the multiples of a power of 2 are. *)
Definition max_int : Z := 2 ^ 53.

(** The binary64 number nearest to the integer [x], a tie going to the one
    with the even significand (for [x] below [2^1024] in size, where the
    finite numbers end): beyond [max_int] the significand keeps the 53
    leading bits, [q] with the unit [2^e]. *)
Definition round64 (x : Z) : Z :=
  if Z.abs x <=? max_int then x
  else
    let e := Z.log2 (Z.abs x) - 52 in
    let q := Z.abs x / 2 ^ e in
    let rest := Z.abs x mod 2 ^ e in
    let q' := if 2 * rest <? 2 ^ e then q
              else if 2 ^ e <? 2 * rest then q + 1
              else if Z.even q then q else q + 1 in
    Z.sgn x * (q' * 2 ^ e).

(** The value [i--] leaves in [i]: [i - 1] as a number. *)
Definition dec (i : Z) : Z := round64 (i - 1).

(** [while (i--) body]: the guard reads [i], leaves when it is 0 and
    decrements it in either case; the body sees the decremented value. *)
Fixpoint count_down {St : Type} (fuel : nat) (i : Z)
    (body : Z -> St -> St) (st : St) : option St :=
  match fuel with
  | O => None
  | S fuel' =>
      if i =? 0 then Some st
      else count_down fuel' (dec i) body (body (dec i) st)
  end.

End JS.

Import JS.

(** ** [bsort]: the radix sort *)

(** [bsort(a, key)] changes [a] in place and returns it; here it returns the
    new contents.  [key = key || identity] is left out: every call of the
    file passes a key. *)

Section Bsort.

Context {A : Type}.
Variable key : A -> Z.

(** [while (i--) j = Math.max(key(a[i]), j)], from [j = -1]: the last
    element is read first. *)
Definition max_key (a : list A) : Z :=
  fold_right (fun x j => Z.max (key x) j) (-1) a.

(** [bits = j >> 24 && 32 || j >> 16 && 24 || j >> 8 && 16 || 8]. *)
Definition bits_of (j : Z) : Z :=
  if negb (sar j 24 =? 0) then 32
  else if negb (sar j 16 =? 0) then 24
  else if negb (sar j 8 =? 0) then 16
  else 8.

(** [(key(x) >> d) & 15]. *)
Definition digit (d : Z) (x : A) : Z := band (sar (key x) d) 15.

(** [buckets[k].push(x)]. *)
Definition push (k : Z) (x : A) (buckets : list (list A)) : list (list A) :=
  alter (fun bk => bk ++ [x]) (Z.to_nat k) buckets.

(** [for (i = 16; i--;) buckets[i] = []] and then
    [for (i = len; i--;) buckets[digit(a[i])].push(a[i])]: the elements
    are pushed from the last one to the first. *)
Definition distribute (d : Z) (a : list A) : list (list A) :=
  fold_right (fun x buckets => push (digit d x) x buckets)
             (replicate 16 []) a.

(** [for (b = 0; b < 16; b++) for (j = buckets[b].length; j--;)
    a[++i] = buckets[b][j]]: every bucket is read backwards. *)
Definition collect (buckets : list (list A)) : list A :=
  concat (map (@rev A) buckets).

Definition pass (d : Z) (a : list A) : list A := collect (distribute d a).

(** [for (; d < bits; d += 4) ...]; [bits <= 32], so eight rounds of the
    guard are enough. *)
Fixpoint passes (n : nat) (d bits : Z) (a : list A) : list A :=
  match n with
  | O => a
  | S n' => if d <? bits then passes n' (d + 4) bits (pass d a) else a
  end.

Definition bsort (a : list A) : list A :=
  passes 8 0 (bits_of (max_key a)) a.

End Bsort.

(** [identity], which [key = key || identity] puts in the place of a key
    that is not given. *)
Definition identity (x : Z) : Z := x.

(** [bsort(a, key)] as a caller from outside may use it, the key being
    optional. *)
Definition bsort_with (a : list Z) (key : option (Z -> Z)) : list Z :=
  bsort (default identity key) a.

(** ** [_suffixArray] *)

(** [((i * 3) >> 1) + 1]. *)
Definition sample_index (i : Z) : Z := sar (i * 3) 1 + 1.

(** [while (i--) a[i] = ((i * 3) >> 1) + 1] from [i = alen]; the writes run
    from the last position to the first, so each one prepends. *)
Definition init_a (fuel : nat) (alen : num) : option (list Z) :=
  match alen with
  | NaN => Some []
  | Int z => count_down fuel z (fun i a => sample_index i :: a) []
  end.

(** [for (i = 3; i--;) bsort(a, function(j) { return s(i + j) })]. *)
Definition triplet_sort (s : Z -> Z) (a : list Z) : list Z :=
  fold_left (fun a i => bsort (fun j => s (i + j)) a) [2; 1; 0] a.

(** [floor(x / 3) + (x % 3 == 1 ? 0 : r)]. *)
Definition slot (r x : Z) : Z :=
  x / 3 + (if Z.rem x 3 =? 1 then 0 else r).

(** [s(x) != s(p) || s(x + 1) != s(p + 1) || s(x + 2) != s(p + 2)]. *)
Definition differs (s : Z -> Z) (x p : Z) : bool :=
  negb (s x =? s p) || negb (s (x + 1) =? s (p + 1))
  || negb (s (x + 2) =? s (p + 2)).

(** The body of [for (i = 1; i < alen; i++)]: [prev] is [a[i-1]], the list
    holds [a[i]], [a[i+1]], ... *)
Fixpoint name_loop (s : Z -> Z) (r : Z) (prev : Z) (rest : list Z)
    (j : Z) (b : gmap Z Z) : Z * gmap Z Z :=
  match rest with
  | [] => (j, b)
  | x :: rest' =>
      let j' := if differs s x prev then j + 1 else j in
      name_loop s r x rest' j' (<[slot r x := j']> b)
  end.

(** [j = b[slot(a[0])] = 0] and the loop.  On an empty [a] the position is
    [NaN], which is no array index: [b] keeps no element. *)
Definition names (s : Z -> Z) (r : Z) (a : list Z) : Z * gmap Z Z :=
  match a with
  | [] => (0, ∅)
  | x :: rest => name_loop s r x rest 0 {[slot r x := 0]}
  end.

(** [function(i) { return i >= alen ? 0 : b[i] }].  A position of [b] that
    was never written would read as [undefined]; the embedding answers 0
    there, and [names_total] shows that up to [max_length] every position
    [0 .. alen-1] was written. *)
Definition reduced (alen : num) (b : gmap Z Z) (i : Z) : Z :=
  if num_ge (Int i) alen then 0 else default 0 (b !! i).

(** [b[i] < r ? b[i] * 3 + 1 : ((b[i] - r) * 3 + 2)]. *)
Definition unslot (r x : Z) : Z :=
  if x <? r then x * 3 + 1 else (x - r) * 3 + 2.

(** [for (i = 0; i < alen; i++) if (a[i] % 3 == 1) b.push(a[i] - 1)], then
    [if (len % 3 == 1) b.push(len - 1)]. *)
Definition init_b (len : num) (a : list Z) : list Z :=
  map (fun x => x - 1) (List.filter (fun x => Z.rem x 3 =? 1) a)
  ++ match len with
     | Int z => if num_rem3_is1 len then [z - 1] else []
     | NaN => []
     end.

(** [while (i--) lookup[a[i]] = i] from [i = alen]: position 0 is written
    last.  [i] is the position of the head of the list. *)
Fixpoint build_lookup (i : Z) (a : list Z) : gmap Z Z :=
  match a with
  | [] => ∅
  | x :: a' => <[x := i]> (build_lookup (i + 1) a')
  end.

(** [tmp] of the merge, for [x = a[i]] and [y = b[j]]. *)
Definition merge_tmp (s : Z -> Z) (lookup : gmap Z Z) (x y : Z) : num :=
  or_else (s x - s y)
    (if Z.rem x 3 =? 2
     then or_else (s (x + 1) - s (y + 1))
            (undef_sub (lookup !! (x + 2)) (lookup !! (y + 2)))
     else undef_sub (lookup !! (x + 1)) (lookup !! (y + 1))).

(** The merge loop and the two loops that copy what is left.  Their bounds
    [alen] and [blen] are the lengths of [a] and [b] ([merge_operands]), so
    the loops end with the lists. *)
Fixpoint merge (s : Z -> Z) (lookup : gmap Z Z) (a : list Z) (b : list Z)
    {struct a} : list Z :=
  let fix merge_b (b : list Z) {struct b} : list Z :=
    match a, b with
    | [], _ => b
    | _, [] => a
    | x :: a', y :: b' =>
        if num_lt (merge_tmp s lookup x y) (Int 0)
        then x :: merge s lookup a' b
        else y :: merge_b b'
    end
  in merge_b b.

(** What remains once the sample [a] is in order: the other third [b] is
    built from it and sorted by its first symbol, [lookup] gets the rank of
    every sample position, and the two are merged. *)
Definition finish (s : Z -> Z) (len : num) (a : list Z) : list Z :=
  let b := bsort s (init_b len a) in
  let lookup := build_lookup 0 a in
  merge s lookup a b.

Fixpoint _suffixArray (fuel : nat) (s : Z -> Z) (len : num)
    : option (list Z) :=
  match fuel with
  | O => None
  | S fuel' =>
      let alen := floor_2_3 len in
      let r := sar (num_ToInt32 (num_add alen (Int 1))) 1 in
      a0 ← init_a fuel alen;
      let a3 := triplet_sort s a0 in
      let '(j, b) := names s r a3 in
      a ← (if num_lt (Int j) (num_sub alen (Int 1))
           then (fun rec => map (unslot r) rec)
                  <$> _suffixArray fuel' (reduced alen b) alen
           else Some a3);
      Some (finish s len a)
  end.

(** ** The public [suffixArray] *)

(** The first argument: a string, as its UTF-16 code units, or a function. *)
Inductive source : Type :=
| Str (cs : list Z)
| Fn (f : Z -> Z).

(** The second argument: absent, a number, or a string that is no numeric
    literal (the policy names of the README); such a string converts to
    [NaN], and the empty string, which is falsy, to 0. *)
Inductive arg : Type :=
| Undefined
| Number (n : num)
| Text (t : string).

Definition ToNumber (v : arg) : num :=
  match v with
  | Undefined => NaN
  | Number n => n
  | Text EmptyString => Int 0
  | Text _ => NaN
  end.

Definition truthy (v : arg) : bool :=
  match v with
  | Undefined => false
  | Number NaN => false
  | Number (Int z) => negb (z =? 0)
  | Text EmptyString => false
  | Text _ => true
  end.

(** [s.charCodeAt(i)].  Outside the string JavaScript answers [NaN], the
    embedding 0; with the length of the string as [len] the guard keeps the
    lookup inside the string. *)
Definition charCodeAt (cs : list Z) (i : Z) : Z :=
  if i <? 0 then 0 else nth (Z.to_nat i) cs 0.

(** [function(i) { return i >= len ? 0 : s(i) }]. *)
Definition guarded (s : Z -> Z) (len : num) (i : Z) : Z :=
  if num_ge (Int i) len then 0 else s i.

(** [len || s.length]. *)
Definition length_or (len : arg) (cs : list Z) : num :=
  if truthy len then ToNumber len else Int (Z.of_nat (length cs)).

Definition suffixArray (fuel : nat) (s : source) (len : arg)
    : option (list Z) :=
  match s with
  | Str cs =>
      let len' := length_or len cs in
      _suffixArray fuel (guarded (charCodeAt cs) len') len'
  | Fn f => _suffixArray fuel (guarded f (ToNumber len)) (ToNumber len)
  end.

(** Code units of a literal. *)
Fixpoint codes (t : string) : list Z :=
  match t with
  | EmptyString => []
  | String c t' => Z.of_N (N_of_ascii c) :: codes t'
  end.

(** ** The outcome of a call *)

(** [suffixarray.js] has no [throw]: a call returns or is still running
    when the fuel is spent. *)
Inductive outcome : Type :=
| Returns (result : list Z)
| Throws (message : string)
| Runs.

Definition run (fuel : nat) (s : source) (len : arg) : outcome :=
  match suffixArray fuel s len with
  | Some result => Returns result
  | None => Runs
  end.

(** * Vocabulary of the properties *)

(** ** Stable sorting by an integer key *)

Section Order.

Context {A : Type}.
Implicit Types (g : A -> Z) (l : list A) (R : A -> A -> Prop).

(** The elements of [l] whose key is [v], in the order of [l]. *)
Definition class g (v : Z) l : list A :=
  List.filter (fun x => g x =? v) l.

Definition le_on g (x y : A) : Prop := g x <= g y.

(** Order by [g], and by [R] among equal [g]. *)
Definition lex g R (x y : A) : Prop :=
  g x < g y \/ (g x = g y /\ R x y).

(** [l] is [l0] stably sorted by [g]. *)
Definition stable_sort_of g (l0 l : list A) : Prop :=
  Permutation l0 l /\ StronglySorted (le_on g) l
  /\ forall v, class g v l = class g v l0.

(** The buckets [0 .. n-1] of [l] by [g], one after the other. *)
Definition bucket_concat g (n : nat) l : list A :=
  concat (map (fun b => class g (Z.of_nat b) l) (seq 0 n)).

End Order.

Section Radix.

Context {A : Type}.
Variable key : A -> Z.

(** The low [d] bits of the key. *)
Definition low (d : Z) (x : A) : Z := key x mod 2 ^ d.

End Radix.

(** ** Positions *)

(** The positions [0 .. n-1]. *)
Definition indices (n : nat) : list Z := map Z.of_nat (seq 0 n).

(** The sample as the first loop leaves it. *)
Definition samples (n : nat) : list Z := map sample_index (indices n).

(** Lengths up to [max_length] keep [(i * 3) >> 1] within 32 bits. *)
Definition max_length : Z := 2 ^ 30 + 1.

(** [i] is one of [y], [y + 1], [y + 2] for an element [y] of [a]. *)
Definition near (a : list Z) (i : Z) : Prop :=
  exists y, In y a /\ y <= i <= y + 2.

(** Symbols that are all different: one odd number for every index from 0
    on, one even number for every index below 0. *)
Definition spread (i : Z) : Z := if i <? 0 then 2 * - i else 2 * i + 1.

(** The symbols 5, 2^32, 1 of a sequence of length 3. *)
Definition wide (i : Z) : Z := nth (Z.to_nat i) [5; 2 ^ 32; 1] 0.

(** ** What the accessor is asked *)

Section BsortReads.

Context {A : Type}.
Variable key : A -> Z.

(** The arguments of [key] in the distribution loops of the passes. *)
Fixpoint passes_reads (n : nat) (d bits : Z) (a : list A) : list A :=
  match n with
  | O => []
  | S n' =>
      if d <? bits
      then rev a ++ passes_reads n' (d + 4) bits (pass key d a)
      else []
  end.

(** The arguments of [key] in one [bsort], in the order of the calls: the
    scan for the maximum, then every pass. *)
Definition bsort_reads (a : list A) : list A :=
  rev a ++ passes_reads 8 0 (bits_of (max_key key a)) a.

End BsortReads.

(** [for (i = 3; i--;) bsort(a, function(j) { return s(i + j) })]: the
    arguments of [s]. *)
Fixpoint sort_rounds_reads (s : Z -> Z) (rounds : list Z) (a : list Z)
    : list Z :=
  match rounds with
  | [] => []
  | i :: rounds' =>
      map (fun j => i + j) (bsort_reads (fun j => s (i + j)) a)
      ++ sort_rounds_reads s rounds' (bsort (fun j => s (i + j)) a)
  end.

Definition triplet_sort_reads (s : Z -> Z) (a : list Z) : list Z :=
  sort_rounds_reads s [2; 1; 0] a.

(** The arguments of [s] in the test of the naming loop; [||] stops at the
    first difference. *)
Definition differs_reads (s : Z -> Z) (x p : Z) : list Z :=
  [x; p]
  ++ if s x =? s p
     then [x + 1; p + 1]
          ++ (if s (x + 1) =? s (p + 1) then [x + 2; p + 2] else [])
     else [].

Fixpoint name_loop_reads (s : Z -> Z) (prev : Z) (rest : list Z) : list Z :=
  match rest with
  | [] => []
  | x :: rest' => differs_reads s x prev ++ name_loop_reads s x rest'
  end.

Definition names_reads (s : Z -> Z) (a : list Z) : list Z :=
  match a with
  | [] => []
  | x :: rest => name_loop_reads s x rest
  end.

(** The arguments of [s] in [tmp]. *)
Definition merge_tmp_reads (s : Z -> Z) (x y : Z) : list Z :=
  [x; y]
  ++ if s x - s y =? 0
     then (if Z.rem x 3 =? 2 then [x + 1; y + 1] else [])
     else [].

Fixpoint merge_reads (s : Z -> Z) (lookup : gmap Z Z) (a : list Z)
    (b : list Z) {struct a} : list Z :=
  let fix merge_b (b : list Z) {struct b} : list Z :=
    match a, b with
    | [], _ => []
    | _, [] => []
    | x :: a', y :: b' =>
        merge_tmp_reads s x y
        ++ (if num_lt (merge_tmp s lookup x y) (Int 0)
            then merge_reads s lookup a' b
            else merge_b b')
    end
  in merge_b b.

(** Every argument with which one call of [_suffixArray] asks its accessor
    [s], in the order of the calls.  The nested call asks its own accessor
    ([reduced], which reads the table of names), not [s]. *)
Definition accessor_reads (fuel : nat) (s : Z -> Z) (len : num) : list Z :=
  match fuel with
  | O => []
  | S fuel' =>
      let alen := floor_2_3 len in
      let r := sar (num_ToInt32 (num_add alen (Int 1))) 1 in
      match init_a fuel alen with
      | None => []
      | Some a0 =>
          let a3 := triplet_sort s a0 in
          let '(j, b) := names s r a3 in
          triplet_sort_reads s a0 ++ names_reads s a3
          ++ match (if num_lt (Int j) (num_sub alen (Int 1))
                    then (fun rec => map (unslot r) rec)
                           <$> _suffixArray fuel' (reduced alen b) alen
                    else Some a3) with
             | None => []
             | Some a =>
                 let b0 := init_b len a in
                 bsort_reads s b0
                 ++ merge_reads s (build_lookup 0 a) a (bsort s b0)
             end
      end
  end.

(** ** The nested calls *)



(** The arguments that get through the guard of the public function to the
    caller's function ([charCodeAt] for a string). *)
Definition callback_reads (fuel : nat) (f : Z -> Z) (len : num) : list Z :=
  List.filter (fun i => negb (num_ge (Int i) len))
              (accessor_reads fuel (guarded f len) len).

(** ** The order of suffixes *)

(** Compare the symbols of [w] from [i] and from [j], at most [k] of them. *)
Fixpoint lex_le (k : nat) (w : Z -> Z) (i j : Z) : bool :=
  match k with
  | O => true
  | S k' =>
      if w i <? w j then true
      else if w j <? w i then false
      else lex_le k' w (i + 1) (j + 1)
  end.

(** The suffix at [i] is at most the suffix at [j], symbols at or beyond
    [len] being the sentinel 0. *)
Definition suffix_le (s : Z -> Z) (len : Z) (i j : Z) : bool :=
  lex_le (S (Z.to_nat len)) (guarded s (Int len)) i j.

(** Every suffix of the result is at most the next one. *)
Fixpoint suffixes_sorted (s : Z -> Z) (len : Z) (result : list Z) : bool :=
  match result with
  | [] => true
  | x :: rest =>
      match rest with
      | [] => true
      | y :: _ => suffix_le s len x y && suffixes_sorted s len rest
      end
  end.

(** The order of the triplets [(s x, s (x+1), s (x+2))]. *)
Definition triple_le (s : Z -> Z) : Z -> Z -> Prop :=
  lex (fun j => s (0 + j))
      (lex (fun j => s (1 + j)) (le_on (fun j => s (2 + j)))).

Definition same_triple (s : Z -> Z) (x y : Z) : bool :=
  (s x =? s y) && (s (x + 1) =? s (y + 1)) && (s (x + 2) =? s (y + 2)).

(** ** The names as they are written *)

(** The writes [b[slot(a[i])] = j] of the naming loop, as pairs of the
    position [a[i]] and its name, in the order of the loop. *)
Fixpoint name_loop_writes (s : Z -> Z) (prev : Z) (rest : list Z) (j : Z)
    : list (Z * Z) :=
  match rest with
  | [] => []
  | x :: rest' =>
      let j' := if differs s x prev then j + 1 else j in
      (x, j') :: name_loop_writes s x rest' j'
  end.

Definition names_writes (s : Z -> Z) (a : list Z) : list (Z * Z) :=
  match a with
  | [] => []
  | x :: rest => (x, 0) :: name_loop_writes s x rest 0
  end.

(** [b] after the writes [ws]. *)
Definition write_names (r : Z) (ws : list (Z * Z)) (b : gmap Z Z)
    : gmap Z Z :=
  fold_left (fun b w => <[slot r (fst w) := snd w]> b) ws b.

(** The position [p] and its name come before [q] and its name: the
    triplets are in order and the names follow them. *)
Definition named_in_order (s : Z -> Z) (p q : Z * Z) : Prop :=
  triple_le s (fst p) (fst q) /\ snd p <= snd q
  /\ (snd p = snd q <-> same_triple s (fst p) (fst q) = true).

(** Positions that are no multiples of 3. *)
Definition in_sample (x : Z) : bool := negb (x mod 3 =? 0).

(** ** The strict order of suffixes *)

(** The suffix at [x] is below the suffix at [y]: the symbols are the same
    up to some distance [k], where the one from [x] is the smaller one. *)
Definition suffix_lt (s : Z -> Z) (x y : Z) : Prop :=
  exists k, 0 <= k /\ (forall j, 0 <= j < k -> s (x + j) = s (y + j))
            /\ s (x + k) < s (y + k).

(** The triplet at [x] is below the triplet at [y]. *)
Definition triple_lt (s : Z -> Z) (x y : Z) : Prop :=
  triple_le s x y /\ same_triple s x y = false.

(** The last symbol of the sequence occurs only there. *)
Definition last_is_unique (s : Z -> Z) (len : Z) : Prop :=
  forall i, 0 <= i < len - 1 -> s i <> s (len - 1).

(** The lexicographic order of two sequences of symbols; a proper prefix is
    below the sequence it begins. *)
Fixpoint list_lt (u v : list Z) : Prop :=
  match u, v with
  | _, [] => False
  | [], _ :: _ => True
  | a :: u', b :: v' => a < b \/ (a = b /\ list_lt u' v')
  end.

(** The suffix of a string that starts at the position [x]. *)
Definition suffix_at (cs : list Z) (x : Z) : list Z := drop (Z.to_nat x) cs.

(** * Properties *)

(** ** Lists *)

Section ListFacts.

Context {A : Type}.
Implicit Types (p q : A -> bool) (l : list A) (R : A -> A -> Prop).

Lemma Some_inv (x y : A) : Some x = Some y -> x = y.
Proof. intros H. injection H. auto. Qed.

Lemma bind_Some {B : Type} (x : A) (k : A -> option B) : Some x ≫= k = k x.
Proof. reflexivity. Qed.

Lemma filter_filter_sub p q l :
  (forall x, In x l -> p x = true -> q x = true) ->
  List.filter p (List.filter q l) = List.filter p l.
Proof.
  induction l as [|x l IH]; simpl; intros Hpq; [reflexivity|].
  assert (IH' := IH (fun y Hy => Hpq y (or_intror Hy))).
  destruct (q x) eqn:Hq; simpl.
  - destruct (p x); [f_equal|]; exact IH'.
  - destruct (p x) eqn:Hp; [|exact IH'].
    apply Hpq in Hp; [congruence|auto].
Qed.

Lemma filter_none p l :
  (forall x, In x l -> p x = false) -> List.filter p l = [].
Proof.
  induction l as [|x l IH]; simpl; intros H; [reflexivity|].
  rewrite (H x) by auto. apply IH. auto.
Qed.

Lemma filter_all p l :
  (forall x, In x l -> p x = true) -> List.filter p l = l.
Proof.
  induction l as [|x l IH]; simpl; intros H; [reflexivity|].
  rewrite (H x) by auto. f_equal. apply IH. auto.
Qed.

Lemma StronglySorted_filter R p l :
  StronglySorted R l -> StronglySorted R (List.filter p l).
Proof.
  induction 1 as [|x l Hl IH Hx]; simpl; [constructor|].
  destruct (p x); [|exact IH].
  constructor; [exact IH|].
  rewrite List.Forall_forall in *. intros y Hy.
  apply List.filter_In in Hy. apply Hx, Hy.
Qed.

Lemma StronglySorted_app R l1 l2 :
  StronglySorted R l1 -> StronglySorted R l2 ->
  (forall x y, In x l1 -> In y l2 -> R x y) ->
  StronglySorted R (l1 ++ l2).
Proof.
  induction 1 as [|x l Hl IH Hx]; simpl; intros H2 H12; [exact H2|].
  constructor.
  - apply IH; auto.
  - rewrite List.Forall_forall in *. intros y Hy.
    apply List.in_app_or in Hy. destruct Hy; auto.
Qed.

Lemma StronglySorted_weaken R (R' : A -> A -> Prop) l :
  (forall x y, In x l -> In y l -> R x y -> R' x y) ->
  StronglySorted R l -> StronglySorted R' l.
Proof.
  intros HR Hs. induction Hs as [|x l Hl IH Hx]; constructor.
  - apply IH. intros y z Hy Hz. apply HR; right; assumption.
  - rewrite List.Forall_forall in *. intros y Hy.
    apply HR; simpl; auto.
Qed.

End ListFacts.

(** ** Stable sorting by an integer key *)

Section Stable.

Context {A : Type}.
Implicit Types (g : A -> Z) (l : list A) (R : A -> A -> Prop).

Lemma class_In g v l x : In x (class g v l) <-> In x l /\ g x = v.
Proof. unfold class. rewrite List.filter_In, Z.eqb_eq. reflexivity. Qed.

Lemma sorted_lex g R l :
  StronglySorted (le_on g) l ->
  (forall v, StronglySorted R (class g v l)) ->
  StronglySorted (lex g R) l.
Proof.
  induction 1 as [|x l Hl IH Hx]; intros Hc; [constructor|].
  constructor.
  - apply IH. intros v. specialize (Hc v). unfold class in *. simpl in Hc.
    destruct (g x =? v); [|exact Hc].
    inversion Hc; assumption.
  - rewrite List.Forall_forall in *. intros y Hy.
    specialize (Hx y Hy). unfold le_on in Hx.
    destruct (Z.eq_dec (g x) (g y)) as [Heq|Hne].
    + right. split; [exact Heq|].
      specialize (Hc (g x)). unfold class in Hc. simpl in Hc.
      rewrite Z.eqb_refl in Hc. inversion Hc as [|? ? _ Hall]; subst.
      rewrite List.Forall_forall in Hall. apply Hall.
      apply List.filter_In. split; [exact Hy|]. apply Z.eqb_eq. auto.
    + left. lia.
Qed.

Lemma bucket_concat_S g n l :
  bucket_concat g (S n) l = bucket_concat g n l ++ class g (Z.of_nat n) l.
Proof.
  unfold bucket_concat. rewrite seq_S, map_app, concat_app. simpl.
  rewrite app_nil_r. reflexivity.
Qed.

Lemma bucket_concat_In g n l x :
  In x (bucket_concat g n l) <-> In x l /\ 0 <= g x < Z.of_nat n.
Proof.
  induction n as [|n IH].
  - simpl. split; [tauto|]. lia.
  - rewrite bucket_concat_S, List.in_app_iff, IH, class_In.
    clear IH. split.
    + intros [[? ?]|[? ?]]; split; auto; lia.
    + intros [? ?]. destruct (Z.eq_dec (g x) (Z.of_nat n));
        [right|left]; split; auto; lia.
Qed.

Lemma bucket_concat_class g n l v :
  class g v (bucket_concat g n l)
  = if (0 <=? v) && (v <? Z.of_nat n) then class g v l else [].
Proof.
  induction n as [|n IH].
  - destruct (Z.leb_spec 0 v), (Z.ltb_spec v (Z.of_nat 0));
      simpl; try lia; reflexivity.
  - rewrite bucket_concat_S. unfold class at 1.
    rewrite List.filter_app. fold (class g v (bucket_concat g n l)).
    rewrite IH.
    destruct (Z.eq_dec v (Z.of_nat n)) as [->|Hne].
    + rewrite (filter_all _ (class g (Z.of_nat n) l)).
      * destruct (Z.leb_spec 0 (Z.of_nat n)),
          (Z.ltb_spec (Z.of_nat n) (Z.of_nat n)),
          (Z.ltb_spec (Z.of_nat n) (Z.of_nat (S n)));
          simpl; try lia; reflexivity.
      * intros x Hx. apply class_In in Hx. apply Z.eqb_eq, Hx.
    + rewrite (filter_none _ (class g (Z.of_nat n) l)).
      * rewrite app_nil_r.
        destruct (Z.leb_spec 0 v), (Z.ltb_spec v (Z.of_nat n)),
          (Z.ltb_spec v (Z.of_nat (S n)));
          simpl; try lia; reflexivity.
      * intros x Hx. apply class_In in Hx. apply Z.eqb_neq. lia.
Qed.

Lemma class_sorted g v l : StronglySorted (le_on g) (class g v l).
Proof.
  assert (H : forall c, (forall x, In x c -> g x = v) ->
                        StronglySorted (le_on g) c).
  { induction c as [|x c IHc]; intros Hc; constructor.
    - apply IHc. intros y Hy. apply Hc. right. exact Hy.
    - rewrite List.Forall_forall. intros y Hy. unfold le_on.
      rewrite (Hc x), (Hc y); simpl; auto. lia. }
  apply H. intros x Hx. apply class_In in Hx. apply Hx.
Qed.

Lemma bucket_concat_sorted g n l :
  StronglySorted (le_on g) (bucket_concat g n l).
Proof.
  induction n as [|n IH]; [constructor|].
  rewrite bucket_concat_S.
  apply StronglySorted_app; [exact IH|apply class_sorted|].
  intros x y Hx Hy. apply bucket_concat_In in Hx. apply class_In in Hy.
  unfold le_on. lia.
Qed.

Lemma bucket_concat_perm g n l :
  (forall x, In x l -> 0 <= g x < Z.of_nat n) ->
  Permutation l (bucket_concat g n l).
Proof.
  revert l. induction n as [|n IH]; intros l Hg.
  - destruct l as [|x l]; [constructor|].
    specialize (Hg x (or_introl eq_refl)). lia.
  - rewrite bucket_concat_S.
    assert (Hsplit : Permutation l
              (List.filter (fun x => negb (g x =? Z.of_nat n)) l
               ++ class g (Z.of_nat n) l)).
    { clear. induction l as [|x l IHl]; simpl; [constructor|].
      unfold class in *. simpl. destruct (g x =? Z.of_nat n); simpl.
      - apply Permutation_cons_app. exact IHl.
      - constructor. exact IHl. }
    eapply Permutation_trans; [exact Hsplit|].
    apply Permutation_app_tail.
    set (l' := List.filter (fun x => negb (g x =? Z.of_nat n)) l).
    assert (Hb : bucket_concat g n l = bucket_concat g n l').
    { unfold bucket_concat. f_equal. apply map_ext_in. intros b Hb.
      apply List.in_seq in Hb. unfold l', class.
      symmetry. apply filter_filter_sub. intros x _ Hx.
      apply Z.eqb_eq in Hx. apply negb_true_iff, Z.eqb_neq. lia. }
    rewrite Hb. apply IH. intros x Hx. unfold l' in Hx.
    apply List.filter_In in Hx. destruct Hx as [Hx Hn].
    apply negb_true_iff, Z.eqb_neq in Hn. specialize (Hg x Hx). lia.
Qed.

(** One bucket pass is a stable sort by the bucket number. *)
Lemma bucket_concat_stable g n l :
  (forall x, In x l -> 0 <= g x < Z.of_nat n) ->
  stable_sort_of g l (bucket_concat g n l).
Proof.
  intros Hg. split; [apply bucket_concat_perm, Hg|].
  split; [apply bucket_concat_sorted|].
  intros v. rewrite bucket_concat_class.
  destruct ((0 <=? v) && (v <? Z.of_nat n)) eqn:Hv; [reflexivity|].
  symmetry. apply filter_none. intros x Hx. apply Z.eqb_neq.
  specialize (Hg x Hx). lia.
Qed.

(** A stable sort by [g] after a list ordered by [R] orders by [g] first
    and by [R] among equal [g]. *)
Lemma stable_sort_lex g R l0 l :
  StronglySorted R l0 -> stable_sort_of g l0 l ->
  StronglySorted (lex g R) l.
Proof.
  intros H0 (_ & Hs & Hc). apply sorted_lex; [exact Hs|].
  intros v. rewrite Hc. apply StronglySorted_filter, H0.
Qed.

Lemma class_ext g g' v l :
  (forall x, In x l -> g x = g' x) -> class g v l = class g' v l.
Proof.
  intros H. unfold class. apply List.filter_ext_in.
  intros x Hx. rewrite (H x Hx). reflexivity.
Qed.

Lemma stable_sort_ext g g' l0 l :
  (forall x, In x l0 -> g x = g' x) ->
  stable_sort_of g l0 l -> stable_sort_of g' l0 l.
Proof.
  intros H (Hp & Hs & Hc).
  assert (H' : forall x, In x l -> g x = g' x).
  { intros x Hx. apply H. eapply Permutation_in; [|exact Hx].
    symmetry. exact Hp. }
  split; [exact Hp|]. split.
  - eapply StronglySorted_weaken; [|exact Hs].
    intros x y Hx Hy. unfold le_on. rewrite (H' x Hx), (H' y Hy). auto.
  - intros v. rewrite <- (class_ext g g' v l H'), <- (class_ext g g' v l0 H).
    apply Hc.
Qed.

Lemma stable_sort_refl g l :
  (forall x y, In x l -> In y l -> g x = g y) -> stable_sort_of g l l.
Proof.
  intros H. split; [reflexivity|]. split; [|reflexivity].
  clear -H. induction l as [|x l IH]; constructor.
  - apply IH. intros y z Hy Hz. apply H; right; assumption.
  - rewrite List.Forall_forall. intros y Hy. unfold le_on.
    rewrite (H x y); simpl; auto. lia.
Qed.

(** A stable sort by the digit [g] of weight [M], after a stable sort by
    the lower part [lo], is a stable sort by [g * M + lo]. *)
Lemma stable_sort_refine g lo c (M : Z) l0 l l' :
  0 < M ->
  (forall x, In x l0 -> c x = g x * M + lo x /\ 0 <= lo x < M) ->
  stable_sort_of lo l0 l -> stable_sort_of g l l' ->
  stable_sort_of c l0 l'.
Proof.
  intros HM Hc (Hp & Hs & Hcl) Hg.
  pose proof Hg as (Hp' & Hs' & Hcl').
  assert (Hin : forall x, In x l -> In x l0).
  { intros x Hx. eapply Permutation_in; [|exact Hx]. symmetry. exact Hp. }
  assert (Hin' : forall x, In x l' -> In x l0).
  { intros x Hx. apply Hin. eapply Permutation_in; [|exact Hx].
    symmetry. exact Hp'. }
  split; [etransitivity; eassumption|]. split.
  - eapply StronglySorted_weaken;
      [|exact (stable_sort_lex g (le_on lo) l l' Hs Hg)].
    intros x y Hx Hy. unfold lex, le_on.
    destruct (Hc x (Hin' x Hx)) as [-> ?].
    destruct (Hc y (Hin' y Hy)) as [-> ?]. nia.
  - intros v. unfold class.
    assert (Hgv : forall x, In x l0 -> (c x =? v) = true ->
                            (g x =? v / M) = true).
    { intros x Hx Hv. apply Z.eqb_eq in Hv. apply Z.eqb_eq.
      destruct (Hc x Hx) as [Heq Hr]. rewrite <- Hv, Heq.
      rewrite Z.div_add_l by lia. rewrite Z.div_small by lia. lia. }
    assert (Hlv : forall x, In x l0 -> (c x =? v) = true ->
                            (lo x =? v mod M) = true).
    { intros x Hx Hv. apply Z.eqb_eq in Hv. apply Z.eqb_eq.
      destruct (Hc x Hx) as [Heq Hr]. rewrite <- Hv, Heq.
      rewrite Z.add_comm, Z.mod_add by lia.
      rewrite Z.mod_small by lia. reflexivity. }
    rewrite <- (filter_filter_sub _ (fun x => g x =? v / M) l')
      by (intros x Hx; apply Hgv, Hin', Hx).
    fold (class g (v / M) l'). rewrite Hcl'. unfold class.
    rewrite filter_filter_sub by (intros x Hx; apply Hgv, Hin, Hx).
    rewrite <- (filter_filter_sub _ (fun x => lo x =? v mod M) l)
      by (intros x Hx; apply Hlv, Hin, Hx).
    fold (class lo (v mod M) l). rewrite Hcl. unfold class.
    apply filter_filter_sub. intros x Hx. apply Hlv, Hx.
Qed.

End Stable.

(** ** 32-bit operations *)

Lemma ToInt32_small x : - 2 ^ 31 <= x < 2 ^ 31 -> ToInt32 x = x.
Proof.
  intros Hx. unfold ToInt32.
  destruct (Z.ltb_spec (x mod 2 ^ 32) (2 ^ 31)) as [H|H];
    revert H; change (2 ^ 32) with 4294967296 in *;
    change (2 ^ 31) with 2147483648 in *; intros H;
    Z.div_mod_to_equations; lia.
Qed.

Lemma ToInt32_mod16 x : ToInt32 x mod 16 = x mod 16.
Proof.
  unfold ToInt32. change (2 ^ 32) with 4294967296.
  destruct (_ <? _); Z.div_mod_to_equations; lia.
Qed.

Lemma band_15 v : band v 15 = v mod 16.
Proof.
  unfold band. rewrite (ToInt32_small 15) by (simpl; lia).
  change 15 with (Z.ones 4). rewrite Z.land_ones by lia.
  change (2 ^ 4) with 16. rewrite ToInt32_mod16.
  apply ToInt32_small. pose proof (Z.mod_pos_bound v 16 eq_refl).
  simpl. lia.
Qed.

Lemma sar_div x d : 0 <= d < 32 -> sar x d = ToInt32 x / 2 ^ d.
Proof.
  intros Hd. unfold sar. change 31 with (Z.ones 5).
  rewrite Z.land_ones by lia. change (2 ^ 5) with 32.
  rewrite Z.mod_small by lia. apply Z.shiftr_div_pow2. lia.
Qed.

(** ** [bsort] *)

Section BsortFacts.

Context {A : Type}.
Variable key : A -> Z.

Lemma digit_mod d x : digit key d x = sar (key x) d mod 16.
Proof. apply band_15. Qed.

Lemma digit_range d x : 0 <= digit key d x < Z.of_nat 16.
Proof. rewrite digit_mod. apply (Z.mod_pos_bound _ 16). reflexivity. Qed.

(** Bucket [b] holds, in the order of the pushes, the elements of digit
    [b] from the last one to the first. *)
Lemma distribute_buckets d a :
  distribute key d a
  = map (fun b => rev (class (digit key d) (Z.of_nat b) a)) (seq 0 16).
Proof.
  induction a as [|x a IH].
  - reflexivity.
  - change (distribute key d (x :: a))
      with (push (digit key d x) x (distribute key d a)).
    rewrite IH. unfold push. apply list_eq. intros i.
    pose proof (digit_range d x) as Hd.
    destruct (decide (i = Z.to_nat (digit key d x))) as [->|Hne].
    + rewrite list_lookup_alter_eq, !list_lookup_fmap.
      destruct (seq 0 16 !! Z.to_nat (digit key d x)) as [b|] eqn:Hb;
        [|reflexivity].
      apply lookup_seq in Hb. destruct Hb as [-> _]. simpl.
      f_equal. unfold class. simpl.
      rewrite Z2Nat.id by lia. rewrite Z.eqb_refl. reflexivity.
    + rewrite list_lookup_alter_ne by auto. rewrite !list_lookup_fmap.
      destruct (seq 0 16 !! i) as [b|] eqn:Hb; [|reflexivity].
      apply lookup_seq in Hb. destruct Hb as [-> _]. simpl.
      f_equal. unfold class. simpl.
      destruct (Z.eqb_spec (digit key d x) (Z.of_nat i)); [|reflexivity].
      exfalso. apply Hne. lia.
Qed.

Lemma pass_buckets d a : pass key d a = bucket_concat (digit key d) 16 a.
Proof.
  unfold pass, collect. rewrite distribute_buckets, map_map.
  unfold bucket_concat. f_equal. apply map_ext. intros b.
  apply rev_involutive.
Qed.

Lemma pass_stable d a : stable_sort_of (digit key d) a (pass key d a).
Proof.
  rewrite pass_buckets. apply bucket_concat_stable.
  intros x _. apply digit_range.
Qed.

Lemma passes_perm n d bits a : Permutation a (passes key n d bits a).
Proof.
  revert d a. induction n as [|n IH]; intros d a; simpl; [reflexivity|].
  destruct (d <? bits); [|reflexivity].
  etransitivity; [apply (pass_stable d a)|apply IH].
Qed.

(** Whatever the keys, [bsort] rearranges its argument. *)
Lemma bsort_perm a : Permutation a (bsort key a).
Proof. apply passes_perm. Qed.

(** *** Keys below 2^32 *)

Lemma digit_div d x :
  0 <= key x < 2 ^ 32 -> 0 <= d <= 28 ->
  digit key d x = (key x / 2 ^ d) mod 16.
Proof.
  intros Hk Hd. rewrite digit_mod, sar_div by lia.
  unfold ToInt32. rewrite (Z.mod_small (key x) (2 ^ 32)) by lia.
  destruct (key x <? 2 ^ 31); [reflexivity|].
  replace (key x - 2 ^ 32)
    with (key x + (- 2 ^ (32 - d)) * 2 ^ d).
  - rewrite Z.div_add by lia.
    replace (- 2 ^ (32 - d)) with ((- 2 ^ (28 - d)) * 16).
    + apply Z.mod_add. lia.
    + replace (32 - d) with (28 - d + 4) by lia.
      rewrite Z.pow_add_r by lia. change (2 ^ 4) with 16. lia.
  - rewrite Z.mul_opp_l, <- Z.pow_add_r by lia.
    replace (32 - d + d) with 32 by lia. lia.
Qed.

Lemma low_step d x :
  0 <= key x < 2 ^ 32 -> 0 <= d <= 28 ->
  low key (d + 4) x = digit key d x * 2 ^ d + low key d x
  /\ 0 <= low key d x < 2 ^ d.
Proof.
  intros Hk Hd. unfold low. rewrite digit_div by assumption.
  assert (0 < 2 ^ d) by (apply Z.pow_pos_nonneg; lia).
  split; [|apply Z.mod_pos_bound; assumption].
  rewrite Z.pow_add_r by lia. change (2 ^ 4) with 16.
  rewrite Z.rem_mul_r by lia. lia.
Qed.

Lemma pass_radix d a0 a :
  (forall x, In x a0 -> 0 <= key x < 2 ^ 32) -> 0 <= d <= 28 ->
  stable_sort_of (low key d) a0 a ->
  stable_sort_of (low key (d + 4)) a0 (pass key d a).
Proof.
  intros Hk Hd Ha.
  apply (stable_sort_refine (digit key d) (low key d) (low key (d + 4)) (2 ^ d)
           a0 a).
  - apply Z.pow_pos_nonneg; lia.
  - intros x Hx. apply low_step; auto.
  - exact Ha.
  - apply pass_stable.
Qed.

Lemma passes_radix n i m a0 a :
  (forall x, In x a0 -> 0 <= key x < 2 ^ 32) ->
  0 <= i <= m -> m <= 8 -> m - i <= Z.of_nat n ->
  stable_sort_of (low key (4 * i)) a0 a ->
  stable_sort_of (low key (4 * m)) a0 (passes key n (4 * i) (4 * m) a).
Proof.
  intros Hk. revert i a. induction n as [|n IH]; intros i a Hi Hm Hn Ha.
  - simpl. replace m with i by lia. exact Ha.
  - simpl. destruct (Z.ltb_spec (4 * i) (4 * m)) as [Hlt|Hge].
    + replace (4 * i + 4) with (4 * (i + 1)) by lia.
      apply IH; try lia.
      replace (4 * (i + 1)) with (4 * i + 4) by lia.
      apply pass_radix; [exact Hk|lia|exact Ha].
    + replace m with i by lia. exact Ha.
Qed.

Lemma max_key_ge a x : In x a -> key x <= max_key key a.
Proof.
  induction a as [|y a IH]; simpl; [tauto|].
  intros [->|Hx]; [lia|]. specialize (IH Hx). lia.
Qed.

Lemma max_key_range a :
  (forall x, In x a -> 0 <= key x < 2 ^ 32) ->
  -1 <= max_key key a < 2 ^ 32.
Proof.
  induction a as [|y a IH]; simpl; intros Hk; [lia|].
  pose proof (Hk y (or_introl eq_refl)).
  specialize (IH (fun x Hx => Hk x (or_intror Hx))). lia.
Qed.

Lemma bits_of_cover j :
  -1 <= j < 2 ^ 32 ->
  exists m, bits_of j = 4 * m /\ 0 <= m <= 8 /\ j < 2 ^ (4 * m).
Proof.
  intros Hj. unfold bits_of. rewrite !sar_div by lia.
  assert (Hc : ToInt32 j = j \/ ToInt32 j < 0).
  { unfold ToInt32. change (2 ^ 32) with 4294967296 in *.
    change (2 ^ 31) with 2147483648.
    destruct (Z.ltb_spec (j mod 4294967296) 2147483648);
      Z.div_mod_to_equations; lia. }
  change (2 ^ 24) with 16777216. change (2 ^ 16) with 65536.
  change (2 ^ 8) with 256.
  destruct (Z.eqb_spec (ToInt32 j / 16777216) 0) as [H24|H24]; simpl;
    [|exists 8; change (2 ^ (4 * 8)) with 4294967296;
      change (2 ^ 32) with 4294967296 in Hj; lia].
  destruct (Z.eqb_spec (ToInt32 j / 65536) 0) as [H16|H16]; simpl;
    [|exists 6; change (2 ^ (4 * 6)) with 16777216;
      Z.div_mod_to_equations; lia].
  destruct (Z.eqb_spec (ToInt32 j / 256) 0) as [H8|H8]; simpl;
    [|exists 4; change (2 ^ (4 * 4)) with 65536;
      Z.div_mod_to_equations; lia].
  exists 2. change (2 ^ (4 * 2)) with 256. Z.div_mod_to_equations. lia.
Qed.

(** On keys in [0, 2^32), [bsort] is a stable sort by the key. *)
Lemma bsort_stable a :
  (forall x, In x a -> 0 <= key x < 2 ^ 32) ->
  stable_sort_of key a (bsort key a).
Proof.
  intros Hk. unfold bsort.
  destruct (bits_of_cover (max_key key a) (max_key_range a Hk))
    as (m & -> & Hm & Hlt).
  apply (stable_sort_ext (low key (4 * m))).
  - intros x Hx. unfold low. apply Z.mod_small.
    pose proof (max_key_ge a x Hx). specialize (Hk x Hx). lia.
  - change 0 with (4 * 0) at 1.
    apply passes_radix; [exact Hk|lia|lia|simpl; lia|].
    apply stable_sort_refl. intros x y _ _. unfold low.
    change (2 ^ (4 * 0)) with 1. rewrite !Z.mod_1_r. reflexivity.
Qed.

End BsortFacts.

(** ** Loops *)

Lemma In_indices n x : In x (indices n) <-> 0 <= x < Z.of_nat n.
Proof.
  unfold indices. rewrite List.in_map_iff. split.
  - intros (i & <- & Hi). apply List.in_seq in Hi. lia.
  - intros Hx. exists (Z.to_nat x). split; [lia|].
    apply List.in_seq. lia.
Qed.

Lemma NoDup_indices n : List.NoDup (indices n).
Proof.
  unfold indices. apply NoDup_map_NoDup_ForallPairs; [|apply List.seq_NoDup].
  intros x y _ _. lia.
Qed.

Lemma length_indices n : length (indices n) = n.
Proof. unfold indices. rewrite length_map, length_seq. reflexivity. Qed.

Lemma indices_S n : indices (S n) = indices n ++ [Z.of_nat n].
Proof. unfold indices. rewrite seq_S, map_app. reflexivity. Qed.

(** A [while (i--)] loop that starts at [n >= 0] runs its body at
    [n-1, ..., 0] and leaves, when the fuel allows [n + 1] tests. *)
(** ** The counter of [while (i--)] *)

Lemma max_int_value : max_int = 9007199254740992.
Proof. reflexivity. Qed.

Lemma max_length_value : max_length = 1073741825.
Proof. reflexivity. Qed.

(** Lengths up to [max_length], and what is below them, count exactly. *)
Lemma below_max_int (m : nat) len :
  Z.of_nat m <= len -> len <= max_length -> Z.of_nat m <= max_int.
Proof. rewrite max_int_value, max_length_value. lia. Qed.

Lemma round64_exact x : Z.abs x <= max_int -> round64 x = x.
Proof.
  intros H. unfold round64.
  destruct (Z.leb_spec (Z.abs x) max_int); [reflexivity|lia].
Qed.

(** Up to [max_int] the decrement is the integer one. *)
Lemma dec_exact i : - max_int < i <= max_int -> dec i = i - 1.
Proof. intros H. unfold dec. apply round64_exact. lia. Qed.

Lemma round64_negative x : x < 0 -> round64 x < 0.
Proof.
  intros Hx. unfold round64.
  destruct (Z.leb_spec (Z.abs x) max_int) as [|Hbig]; [exact Hx|].
  rewrite max_int_value in Hbig. cbv zeta.
  set (e := Z.log2 (Z.abs x) - 52).
  assert (Hlog : 53 <= Z.log2 (Z.abs x)).
  { apply Z.log2_le_pow2; [lia|]. change (2 ^ 53) with 9007199254740992.
    lia. }
  assert (He : 0 < 2 ^ e) by (apply Z.pow_pos_nonneg; unfold e; lia).
  assert (Hq : 0 < Z.abs x / 2 ^ e).
  { apply Z.div_str_pos. split; [exact He|].
    transitivity (2 ^ Z.log2 (Z.abs x)).
    - apply Z.pow_le_mono_r; unfold e; lia.
    - apply Z.log2_spec. lia. }
  rewrite Z.sgn_neg by exact Hx.
  set (q := Z.abs x / 2 ^ e) in *.
  assert (0 < (if 2 * (Z.abs x mod 2 ^ e) <? 2 ^ e then q
               else if 2 ^ e <? 2 * (Z.abs x mod 2 ^ e) then q + 1
               else if Z.even q then q else q + 1)).
  { repeat match goal with |- context [if ?c then _ else _] =>
      destruct c end; lia. }
  nia.
Qed.

(** A [while (i--)] loop that starts at [n >= 0] runs its body at
    [n-1, ..., 0] and leaves, when the fuel allows [n + 1] tests and the
    counter counts: [n] is at most [max_int]. *)
Lemma count_down_cons {B : Type} (f : Z -> B) (n fuel : nat) (acc : list B) :
  Z.of_nat n <= max_int ->
  count_down fuel (Z.of_nat n) (fun i a => f i :: a) acc
  = if (n <? fuel)%nat then Some (map f (indices n) ++ acc) else None.
Proof.
  revert fuel acc. induction n as [|n IH]; intros fuel acc Hn.
  - destruct fuel; reflexivity.
  - destruct fuel as [|fuel]; [reflexivity|].
    cbn [count_down].
    destruct (Z.eqb_spec (Z.of_nat (S n)) 0) as [H0|_]; [lia|].
    rewrite dec_exact by (rewrite max_int_value in *; lia).
    replace (Z.of_nat (S n) - 1) with (Z.of_nat n) by lia.
    rewrite IH by lia. change (S n <? S fuel)%nat with (n <? fuel)%nat.
    destruct (n <? fuel)%nat; [|reflexivity].
    rewrite indices_S, map_app, <- app_assoc. reflexivity.
Qed.

(** Started below 0 it never leaves. *)
Lemma count_down_negative {St : Type} fuel i (body : Z -> St -> St) st :
  i < 0 -> count_down fuel i body st = None.
Proof.
  revert i st. induction fuel as [|fuel IH]; intros i st Hi; [reflexivity|].
  simpl. destruct (Z.eqb_spec i 0); [lia|]. apply IH.
  apply round64_negative. lia.
Qed.


(** ** The sample [a] *)

Lemma init_a_fuel fuel n :
  Z.of_nat n <= max_int ->
  init_a fuel (Int (Z.of_nat n))
  = if (n <? fuel)%nat then Some (samples n) else None.
Proof.
  intros Hn. unfold init_a. rewrite count_down_cons by exact Hn.
  destruct (n <? fuel)%nat; [|reflexivity]. apply f_equal, app_nil_r.
Qed.

Lemma init_a_samples fuel n :
  Z.of_nat n <= max_int ->
  (n < fuel)%nat -> init_a fuel (Int (Z.of_nat n)) = Some (samples n).
Proof.
  intros Hn Hf. rewrite init_a_fuel by exact Hn.
  destruct (Nat.ltb_spec n fuel); [reflexivity|lia].
Qed.

Lemma sample_index_small i :
  0 <= i <= 715827882 -> sample_index i = 3 * i / 2 + 1.
Proof.
  intros Hi. unfold sample_index. rewrite sar_div by lia.
  rewrite ToInt32_small
    by (change (2 ^ 31) with 2147483648; lia).
  change (2 ^ 1) with 2. rewrite (Z.mul_comm i 3). reflexivity.
Qed.

Section Samples.

Variable len : Z.
Hypothesis len_range : 0 <= len <= max_length.

Let alen := 2 * len / 3.
Let r := (alen + 1) / 2.

Lemma alen_range : 0 <= alen <= 715827883.
Proof.
  unfold alen. unfold max_length in len_range.
  change (2 ^ 30) with 1073741824 in len_range.
  Z.div_mod_to_equations. lia.
Qed.

Lemma In_samples x :
  In x (samples (Z.to_nat alen)) <-> 0 < x < len /\ x mod 3 <> 0.
Proof.
  pose proof alen_range as Ha. unfold samples.
  rewrite List.in_map_iff. split.
  - intros (i & <- & Hi). apply In_indices in Hi.
    rewrite sample_index_small by lia.
    unfold alen in *. Z.div_mod_to_equations. lia.
  - intros [Hx Hm]. exists (2 * (x / 3) + (x mod 3 - 1)).
    assert (Hi : 0 <= 2 * (x / 3) + (x mod 3 - 1) < alen).
    { unfold alen. Z.div_mod_to_equations. lia. }
    split; [|apply In_indices; lia].
    rewrite sample_index_small by lia.
    Z.div_mod_to_equations. lia.
Qed.

Lemma NoDup_samples : List.NoDup (samples (Z.to_nat alen)).
Proof.
  pose proof alen_range as Ha. unfold samples.
  apply NoDup_map_NoDup_ForallPairs; [|apply NoDup_indices].
  intros i k Hi Hk. apply In_indices in Hi. apply In_indices in Hk.
  rewrite !sample_index_small by lia.
  Z.div_mod_to_equations. lia.
Qed.

Lemma r_model :
  sar (num_ToInt32 (num_add (Int alen) (Int 1))) 1 = r.
Proof.
  pose proof alen_range as Ha. cbn [num_ToInt32 num_add].
  rewrite sar_div by lia.
  rewrite !ToInt32_small
    by (rewrite ?ToInt32_small;
        change (2 ^ 31) with 2147483648; lia).
  reflexivity.
Qed.

Lemma In_unslot x :
  In x (map (unslot r) (indices (Z.to_nat alen)))
  <-> 0 < x < len /\ x mod 3 <> 0.
Proof.
  pose proof alen_range as Ha. rewrite List.in_map_iff. split.
  - intros (k & <- & Hk). apply In_indices in Hk. unfold unslot.
    destruct (Z.ltb_spec k r); unfold r, alen in *;
      Z.div_mod_to_equations; lia.
  - intros [Hx Hm].
    exists (if x mod 3 =? 1 then x / 3 else x / 3 + r).
    unfold unslot. split; [|apply In_indices].
    + destruct (Z.eqb_spec (x mod 3) 1).
      * destruct (Z.ltb_spec (x / 3) r); unfold r, alen in *;
          Z.div_mod_to_equations; lia.
      * destruct (Z.ltb_spec (x / 3 + r) r); unfold r, alen in *;
          Z.div_mod_to_equations; lia.
    + destruct (Z.eqb_spec (x mod 3) 1); unfold r, alen in *;
        Z.div_mod_to_equations; lia.
Qed.

Lemma NoDup_unslot : List.NoDup (map (unslot r) (indices (Z.to_nat alen))).
Proof.
  apply NoDup_map_NoDup_ForallPairs; [|apply NoDup_indices].
  intros i k Hi Hk. apply In_indices in Hi. apply In_indices in Hk.
  unfold unslot.
  destruct (Z.ltb_spec i r), (Z.ltb_spec k r); lia.
Qed.

(** Translating the positions [0 .. alen-1] back gives the sample. *)
Lemma unslot_samples :
  Permutation (samples (Z.to_nat alen))
              (map (unslot r) (indices (Z.to_nat alen))).
Proof.
  apply Permutation.NoDup_Permutation; [apply NoDup_samples|apply NoDup_unslot|].
  intros x. rewrite In_samples, In_unslot. reflexivity.
Qed.

Lemma In_init_b a x :
  (forall y, In y a <-> 0 < y < len /\ y mod 3 <> 0) ->
  In x (init_b (Int len) a) <-> 0 <= x < len /\ x mod 3 = 0.
Proof.
  intros Ha. unfold init_b, num_rem3_is1.
  rewrite List.in_app_iff, List.in_map_iff. split.
  - intros [(y & <- & Hy)|Hx].
    + apply List.filter_In in Hy. destruct Hy as [Hy Hr].
      apply Ha in Hy. apply Z.eqb_eq in Hr.
      rewrite Z.rem_mod_nonneg in Hr by lia.
      Z.div_mod_to_equations. lia.
    + destruct (Z.eqb_spec (Z.rem len 3) 1) as [Hr|Hr]; [|destruct Hx].
      destruct Hx as [<-|[]].
      destruct (Z.eq_dec len 0) as [->|Hne]; [discriminate Hr|].
      rewrite Z.rem_mod_nonneg in Hr by lia.
      Z.div_mod_to_equations. lia.
  - intros [Hx Hm]. destruct (Z.eq_dec (x + 1) len) as [Hl|Hl].
    + right. subst len.
      destruct (Z.eqb_spec (Z.rem (x + 1) 3) 1) as [Hr|Hr].
      * left. lia.
      * exfalso. apply Hr. rewrite Z.rem_mod_nonneg by lia.
        Z.div_mod_to_equations. lia.
    + left. exists (x + 1). split; [lia|].
      apply List.filter_In. split.
      * apply Ha. Z.div_mod_to_equations. lia.
      * apply Z.eqb_eq. rewrite Z.rem_mod_nonneg by lia.
        Z.div_mod_to_equations. lia.
Qed.

Lemma NoDup_init_b a :
  List.NoDup a -> (forall y, In y a <-> 0 < y < len /\ y mod 3 <> 0) ->
  List.NoDup (init_b (Int len) a).
Proof.
  intros Hn Ha. unfold init_b, num_rem3_is1. apply List.NoDup_app.
  - apply NoDup_map_NoDup_ForallPairs; [|apply List.NoDup_filter, Hn].
    intros y z _ _. lia.
  - destruct (Z.rem len 3 =? 1); repeat constructor. simpl. tauto.
  - intros x Hx Hx'. apply List.in_map_iff in Hx.
    destruct Hx as (y & <- & Hy). apply List.filter_In in Hy.
    destruct Hy as [Hy _]. apply Ha in Hy.
    destruct (Z.rem len 3 =? 1); [|destruct Hx'].
    destruct Hx' as [Hx'|[]]. lia.
Qed.

(** The sample and the remaining third make up [0 .. len-1]. *)
Lemma sample_and_rest a :
  Permutation (samples (Z.to_nat alen)) a ->
  Permutation (indices (Z.to_nat len)) (a ++ init_b (Int len) a).
Proof.
  intros Hp.
  assert (Ha : forall y, In y a <-> 0 < y < len /\ y mod 3 <> 0).
  { intros y. rewrite <- In_samples. split; apply Permutation_in;
      [symmetry|]; exact Hp. }
  assert (Hn : List.NoDup a).
  { eapply Permutation.Permutation_NoDup; [exact Hp|apply NoDup_samples]. }
  apply Permutation.NoDup_Permutation; [apply NoDup_indices| |].
  - apply List.NoDup_app; [exact Hn|apply NoDup_init_b; assumption|].
    intros x Hx Hx'. apply Ha in Hx. apply In_init_b in Hx'; [|exact Ha].
    lia.
  - intros x. rewrite In_indices, List.in_app_iff, Ha, In_init_b by exact Ha.
    rewrite Z2Nat.id by lia.
    Z.div_mod_to_equations. lia.
Qed.

End Samples.

(** ** The merge *)

Lemma merge_nil_l s lookup b : merge s lookup [] b = b.
Proof. destruct b; reflexivity. Qed.

Lemma merge_nil_r s lookup a : merge s lookup a [] = a.
Proof. destruct a; reflexivity. Qed.

Lemma merge_cons s lookup x a y b :
  merge s lookup (x :: a) (y :: b)
  = if num_lt (merge_tmp s lookup x y) (Int 0)
    then x :: merge s lookup a (y :: b)
    else y :: merge s lookup (x :: a) b.
Proof. reflexivity. Qed.

(** Whatever the comparisons answer, the merge keeps every element. *)
Lemma merge_perm s lookup a b : Permutation (a ++ b) (merge s lookup a b).
Proof.
  revert b. induction a as [|x a IHa]; intros b.
  - rewrite merge_nil_l. reflexivity.
  - induction b as [|y b IHb].
    + rewrite merge_nil_r, app_nil_r. reflexivity.
    + rewrite merge_cons.
      destruct (num_lt (merge_tmp s lookup x y) (Int 0)).
      * simpl. constructor. apply IHa.
      * etransitivity; [symmetry; apply Permutation_middle|].
        constructor. exact IHb.
Qed.

(** ** The result is a rearrangement of [0 .. len-1] *)

Lemma triplet_sort_perm s a : Permutation a (triplet_sort s a).
Proof.
  unfold triplet_sort. simpl.
  etransitivity; [apply bsort_perm|].
  etransitivity; [apply bsort_perm|]. apply bsort_perm.
Qed.

Lemma _suffixArray_unfold fuel s len :
  _suffixArray (S fuel) s len
  = let alen := floor_2_3 len in
    let r := sar (num_ToInt32 (num_add alen (Int 1))) 1 in
    a0 ← init_a (S fuel) alen;
    let a3 := triplet_sort s a0 in
    let '(j, b) := names s r a3 in
    a ← (if num_lt (Int j) (num_sub alen (Int 1))
         then (fun rec => map (unslot r) rec)
                <$> _suffixArray fuel (reduced alen b) alen
         else Some a3);
    Some (finish s len a).
Proof. reflexivity. Qed.

(** One call, for a length that is a number: at most one nested call, on
    the names, of length [floor(2 * len / 3)], and only when the last name
    is below [alen - 1]. *)
Lemma _suffixArray_step fuel s len :
  _suffixArray (S fuel) s (Int len)
  = match init_a (S fuel) (Int (2 * len / 3)) with
    | None => None
    | Some a0 =>
        let r := sar (ToInt32 (2 * len / 3 + 1)) 1 in
        let a3 := triplet_sort s a0 in
        let nb := names s r a3 in
        if fst nb <? 2 * len / 3 - 1
        then match _suffixArray fuel (reduced (Int (2 * len / 3)) (snd nb))
                     (Int (2 * len / 3)) with
             | None => None
             | Some rec => Some (finish s (Int len) (map (unslot r) rec))
             end
        else Some (finish s (Int len) a3)
    end.
Proof.
  rewrite _suffixArray_unfold. cbv zeta.
  cbn [floor_2_3 num_add num_sub num_ToInt32 num_lt].
  destruct (init_a (S fuel) (Int (2 * len / 3))) as [a0|]; [|reflexivity].
  rewrite bind_Some.
  destruct (names s _ (triplet_sort s a0)) as [j b]. cbn [fst snd].
  destruct (j <? 2 * len / 3 - 1); [|rewrite bind_Some; reflexivity].
  destruct (_suffixArray fuel _ _); reflexivity.
Qed.

Lemma finish_perm s len a :
  0 <= len <= max_length ->
  Permutation (samples (Z.to_nat (2 * len / 3))) a ->
  Permutation (indices (Z.to_nat len)) (finish s (Int len) a).
Proof.
  intros Hlen Ha. unfold finish.
  etransitivity; [apply (sample_and_rest len Hlen a Ha)|].
  etransitivity; [|apply merge_perm].
  apply Permutation_app_head, bsort_perm.
Qed.

Lemma _suffixArray_0 fuel s : _suffixArray (S fuel) s (Int 0) = Some [].
Proof. reflexivity. Qed.

Lemma _suffixArray_perm fuel :
  forall s (n : nat) res,
    Z.of_nat n <= max_length ->
    _suffixArray fuel s (Int (Z.of_nat n)) = Some res ->
    Permutation (indices n) res.
Proof.
  induction fuel as [|fuel IH]; intros s n res Hb Hres; [discriminate|].
  destruct n as [|n'].
  { change (Z.of_nat 0) with 0 in Hres. rewrite _suffixArray_0 in Hres.
    apply Some_inv in Hres. subst res. reflexivity. }
  set (n := S n') in *. set (len := Z.of_nat n) in *.
  assert (Hlen : 0 <= len <= max_length) by lia.
  pose proof (alen_range len Hlen) as Ha.
  pose proof (r_model len Hlen) as Hr. cbv zeta in Hr.
  cbn [num_add num_ToInt32] in Hr.
  set (m := Z.to_nat (2 * len / 3)).
  assert (Hm : 2 * len / 3 = Z.of_nat m) by (unfold m; lia).
  assert (Hmn : Z.of_nat m < len) by (Z.div_mod_to_equations; lia).
  rewrite _suffixArray_step in Hres. cbv zeta in Hres.
  rewrite Hr in Hres. clear Hr.
  rewrite Hm, init_a_fuel in Hres by (apply (below_max_int m len); lia).
  destruct (m <? S fuel)%nat; [|discriminate].
  assert (Hfin : forall a, Permutation (samples m) a ->
            Permutation (indices n) (finish s (Int len) a)).
  { intros a Hp. replace n with (Z.to_nat len) by (unfold len; lia).
    apply finish_perm; [exact Hlen|exact Hp]. }
  destruct (fst _ <? _).
  - destruct (_suffixArray fuel _ _) as [rec|] eqn:Hrec; [|discriminate].
    apply Some_inv in Hres. subst res. apply Hfin.
    pose proof (unslot_samples len Hlen) as Hu. cbv zeta in Hu.
    rewrite Hm, Nat2Z.id in Hu.
    etransitivity; [exact Hu|]. apply Permutation_map.
    eapply (IH _ m); [lia|exact Hrec].
  - apply Some_inv in Hres. subst res. apply Hfin, triplet_sort_perm.
Qed.

(** ** The tables are read where they were written *)

Lemma name_loop_written s r prev rest j b k :
  is_Some (b !! k) \/ (exists x, In x rest /\ slot r x = k) ->
  is_Some (snd (name_loop s r prev rest j b) !! k).
Proof.
  revert prev j b. induction rest as [|x rest IH]; intros prev j b H.
  - destruct H as [H|(x & [] & _)]. exact H.
  - cbn [name_loop]. apply IH.
    destruct H as [H|(y & [<-|Hy] & Hk)].
    + left. apply lookup_insert_is_Some.
      destruct (decide (slot r x = k)); [left|right]; auto.
    + left. apply lookup_insert_is_Some. left. exact Hk.
    + right. exists y. split; assumption.
Qed.

Lemma names_written s r a x :
  In x a -> is_Some (snd (names s r a) !! slot r x).
Proof.
  destruct a as [|y rest]; intros Hx; [destruct Hx|].
  unfold names. apply name_loop_written. destruct Hx as [<-|Hx].
  - left. rewrite lookup_singleton_eq. eexists. reflexivity.
  - right. exists x. split; [exact Hx|reflexivity].
Qed.

(** Up to [max_length] the names fill every position [0 .. alen-1] of [b]:
    the accessor [reduced] of the nested call never reads a position that was
    not written. *)
Lemma names_total s (n : nat) i :
  Z.of_nat n <= max_length ->
  0 <= i < 2 * Z.of_nat n / 3 ->
  is_Some (snd (names s (sar (ToInt32 (2 * Z.of_nat n / 3 + 1)) 1)
                  (triplet_sort s (samples (Z.to_nat (2 * Z.of_nat n / 3)))))
           !! i).
Proof.
  intros Hb Hi. set (len := Z.of_nat n) in *.
  assert (Hlen : 0 <= len <= max_length) by lia.
  pose proof (alen_range len Hlen) as Ha.
  pose proof (r_model len Hlen) as Hr. cbv zeta in Hr.
  cbn [num_add num_ToInt32] in Hr. rewrite Hr.
  set (r := (2 * len / 3 + 1) / 2).
  assert (Hx : In (unslot r i) (samples (Z.to_nat (2 * len / 3)))).
  { apply (In_samples len Hlen). apply (In_unslot len Hlen).
    apply List.in_map. apply In_indices. lia. }
  assert (Hs : slot r (unslot r i) = i).
  { unfold slot, unslot. destruct (Z.ltb_spec i r).
    - rewrite Z.rem_mod_nonneg by lia.
      destruct (Z.eqb_spec ((i * 3 + 1) mod 3) 1);
        Z.div_mod_to_equations; lia.
    - rewrite Z.rem_mod_nonneg by lia.
      destruct (Z.eqb_spec (((i - r) * 3 + 2) mod 3) 1);
        Z.div_mod_to_equations; lia. }
  rewrite <- Hs. apply names_written.
  eapply Permutation_in; [apply triplet_sort_perm|exact Hx].
Qed.

(** Up to [max_length] the sorted sample has [alen] elements and the other
    third [blen = len - alen]: the merge runs over the whole of both. *)
Lemma merge_operands s len a :
  0 <= len <= max_length ->
  Permutation (samples (Z.to_nat (2 * len / 3))) a ->
  Z.of_nat (length a) = 2 * len / 3
  /\ Z.of_nat (length (bsort s (init_b (Int len) a))) = len - 2 * len / 3.
Proof.
  intros Hlen Hp. pose proof (alen_range len Hlen) as Ha.
  assert (Hla : length a = Z.to_nat (2 * len / 3)).
  { rewrite <- (Permutation_length Hp). unfold samples.
    rewrite length_map. apply length_indices. }
  split; [lia|].
  pose proof (Permutation_length (sample_and_rest len Hlen a Hp)) as Hl.
  rewrite length_indices, length_app in Hl.
  rewrite <- (Permutation_length (bsort_perm s (init_b (Int len) a))). lia.
Qed.

(** ** Termination *)

Lemma name_loop_nonneg s r prev rest j b :
  0 <= j -> 0 <= fst (name_loop s r prev rest j b).
Proof.
  revert prev j b. induction rest as [|x rest IH]; intros prev j b Hj.
  - exact Hj.
  - simpl. apply IH. destruct (differs s x prev); lia.
Qed.

Lemma names_nonneg s r a : 0 <= fst (names s r a).
Proof.
  destruct a as [|x rest]; simpl; [lia|]. apply name_loop_nonneg. lia.
Qed.

Lemma _suffixArray_returns fuel :
  forall s (n : nat),
    Z.of_nat n <= max_int -> (n < fuel)%nat ->
    is_Some (_suffixArray fuel s (Int (Z.of_nat n))).
Proof.
  induction fuel as [|fuel IH]; intros s n Hn Hf; [lia|].
  destruct n as [|n'].
  { exists []. reflexivity. }
  set (n := S n') in *. set (len := Z.of_nat n) in *.
  set (m := Z.to_nat (2 * len / 3)).
  assert (Hm : 2 * len / 3 = Z.of_nat m)
    by (unfold m; Z.div_mod_to_equations; lia).
  assert (Hmn : Z.of_nat m < len) by (Z.div_mod_to_equations; lia).
  rewrite _suffixArray_step. cbv zeta. rewrite Hm.
  rewrite init_a_samples by lia.
  destruct (fst _ <? _); [|eexists; reflexivity].
  destruct (IH (reduced (Int (Z.of_nat m))
                  (snd (names s (sar (ToInt32 (Z.of_nat m + 1)) 1)
                          (triplet_sort s (samples m))))) m)
    as (rec & Hrec); [lia|lia|].
  rewrite Hrec. eexists. reflexivity.
Qed.

(** ** The three sorts of the sample *)

Lemma filter_via_class (g : Z -> Z) v (p : Z -> bool) l l0 :
  (forall y, p y = true -> g y = v) ->
  class g v l = class g v l0 ->
  List.filter p l = List.filter p l0.
Proof.
  intros Hp Hc.
  assert (H : forall k, List.filter p (class g v k) = List.filter p k).
  { intros k. apply filter_filter_sub. intros y _ Hy.
    apply Z.eqb_eq, Hp, Hy. }
  rewrite <- (H l), <- (H l0), Hc. reflexivity.
Qed.

Lemma triplet_sort_stable s a :
  (forall x, In x a ->
     0 <= s x < 2 ^ 32 /\ 0 <= s (x + 1) < 2 ^ 32
     /\ 0 <= s (x + 2) < 2 ^ 32) ->
  Permutation a (triplet_sort s a)
  /\ StronglySorted (triple_le s) (triplet_sort s a)
  /\ forall x, List.filter (same_triple s x) (triplet_sort s a)
               = List.filter (same_triple s x) a.
Proof.
  intros Hs. unfold triplet_sort. cbn [fold_left].
  set (k2 := fun j => s (2 + j)). set (k1 := fun j => s (1 + j)).
  set (k0 := fun j => s (0 + j)).
  set (a1 := bsort k2 a). set (a2 := bsort k1 a1). set (a3 := bsort k0 a2).
  assert (H1 : stable_sort_of k2 a a1).
  { apply bsort_stable. intros x Hx. unfold k2.
    rewrite Z.add_comm. apply Hs, Hx. }
  assert (Hin1 : forall x, In x a1 -> In x a).
  { intros x. apply Permutation_in. symmetry. apply H1. }
  assert (H2 : stable_sort_of k1 a1 a2).
  { apply bsort_stable. intros x Hx. unfold k1.
    rewrite Z.add_comm. apply Hs, Hin1, Hx. }
  assert (Hin2 : forall x, In x a2 -> In x a).
  { intros x Hx. apply Hin1. revert Hx. apply Permutation_in.
    symmetry. apply H2. }
  assert (H3 : stable_sort_of k0 a2 a3).
  { apply bsort_stable. intros x Hx. unfold k0. apply Hs, Hin2, Hx. }
  split; [|split].
  - etransitivity; [apply H1|]. etransitivity; [apply H2|apply H3].
  - unfold triple_le. fold k0 k1 k2.
    apply (stable_sort_lex k0 _ a2 a3); [|exact H3].
    apply (stable_sort_lex k1 _ a1 a2); [|exact H2]. apply H1.
  - intros x.
    assert (Hst : forall y, same_triple s x y = true ->
              s y = s x /\ s (y + 1) = s (x + 1) /\ s (y + 2) = s (x + 2)).
    { intros y Hy. unfold same_triple in Hy.
      apply andb_true_iff in Hy. destruct Hy as [Hy Hy2].
      apply andb_true_iff in Hy. destruct Hy as [Hy0 Hy1].
      apply Z.eqb_eq in Hy0, Hy1, Hy2. auto. }
    rewrite (filter_via_class k0 (s x) _ a3 a2);
      [|intros y Hy; apply Hst, Hy|apply H3].
    rewrite (filter_via_class k1 (s (x + 1)) _ a2 a1);
      [|intros y Hy; unfold k1; rewrite (Z.add_comm 1 y); apply Hst, Hy
       |apply H2].
    apply (filter_via_class k2 (s (x + 2)));
      [intros y Hy; unfold k2; rewrite (Z.add_comm 2 y); apply Hst, Hy
      |apply H1].
Qed.

(** ** Where the accessor is asked *)

Lemma near_perm a a' i : Permutation a a' -> near a' i -> near a i.
Proof.
  intros Hp (y & Hy & Hi). exists y. split; [|exact Hi].
  eapply Permutation_in; [symmetry; exact Hp|exact Hy].
Qed.

Lemma near_nonneg a i : (forall y, In y a -> 0 <= y) -> near a i -> 0 <= i.
Proof. intros Ha (y & Hy & Hi). specialize (Ha y Hy). lia. Qed.

Section BsortReadsFacts.

Context {A : Type}.
Variable key : A -> Z.

Lemma passes_reads_In n d bits a x :
  In x (passes_reads key n d bits a) -> In x a.
Proof.
  revert d a. induction n as [|n IH]; intros d a; simpl; [tauto|].
  destruct (d <? bits); [|simpl; tauto].
  rewrite List.in_app_iff, <- List.in_rev. intros [Hx|Hx]; [exact Hx|].
  apply IH in Hx. eapply Permutation_in; [|exact Hx].
  symmetry. apply (pass_stable key d a).
Qed.

Lemma bsort_reads_In a x : In x (bsort_reads key a) -> In x a.
Proof.
  unfold bsort_reads. rewrite List.in_app_iff, <- List.in_rev.
  intros [Hx|Hx]; [exact Hx|]. eapply passes_reads_In, Hx.
Qed.

Lemma bsort_reads_head a x : In x a -> In x (bsort_reads key a).
Proof.
  intros Hx. unfold bsort_reads. apply List.in_or_app. left.
  apply List.in_rev in Hx. exact Hx.
Qed.

End BsortReadsFacts.

Lemma sort_rounds_reads_near s rounds a i :
  (forall k, In k rounds -> 0 <= k <= 2) ->
  In i (sort_rounds_reads s rounds a) -> near a i.
Proof.
  revert a. induction rounds as [|k rounds IH]; intros a Hk; simpl; [tauto|].
  rewrite List.in_app_iff, List.in_map_iff. intros [(y & <- & Hy)|Hi].
  - apply bsort_reads_In in Hy. exists y. split; [exact Hy|].
    specialize (Hk k (or_introl eq_refl)). lia.
  - apply IH in Hi; [|intros k' Hk'; apply Hk; right; exact Hk'].
    eapply near_perm; [apply bsort_perm|exact Hi].
Qed.

Lemma triplet_sort_reads_near s a i :
  In i (triplet_sort_reads s a) -> near a i.
Proof.
  apply sort_rounds_reads_near. simpl. intros k Hk.
  repeat (destruct Hk as [<-|Hk]; [lia|]). destruct Hk.
Qed.

Lemma differs_reads_near s x p i :
  In i (differs_reads s x p) -> near [x; p] i.
Proof.
  unfold differs_reads, near. simpl.
  destruct (s x =? s p); simpl; [destruct (s (x + 1) =? s (p + 1)); simpl|];
    intros Hi;
    repeat (destruct Hi as [<-|Hi];
            [first [exists x; split; [tauto|lia] | exists p; split; [tauto|lia]]
            |]);
    destruct Hi.
Qed.

Lemma name_loop_reads_near s prev rest i :
  In i (name_loop_reads s prev rest) -> near (prev :: rest) i.
Proof.
  revert prev. induction rest as [|x rest IH]; intros prev;
    cbn [name_loop_reads]; [simpl; tauto|].
  rewrite List.in_app_iff. intros [Hi|Hi].
  - apply differs_reads_near in Hi. destruct Hi as (y & Hy & Hi).
    exists y. split; [|exact Hi]. simpl in *. tauto.
  - apply IH in Hi. destruct Hi as (y & Hy & Hi).
    exists y. split; [right; exact Hy|exact Hi].
Qed.

Lemma names_reads_near s a i : In i (names_reads s a) -> near a i.
Proof.
  destruct a as [|x rest]; simpl; [tauto|]. apply name_loop_reads_near.
Qed.

Lemma merge_reads_nil_l s lookup b : merge_reads s lookup [] b = [].
Proof. destruct b; reflexivity. Qed.

Lemma merge_reads_nil_r s lookup a : merge_reads s lookup a [] = [].
Proof. destruct a; reflexivity. Qed.

Lemma merge_reads_cons s lookup x a y b :
  merge_reads s lookup (x :: a) (y :: b)
  = merge_tmp_reads s x y
    ++ if num_lt (merge_tmp s lookup x y) (Int 0)
       then merge_reads s lookup a (y :: b)
       else merge_reads s lookup (x :: a) b.
Proof. reflexivity. Qed.

Lemma merge_reads_near s lookup a b i :
  In i (merge_reads s lookup a b) -> near (a ++ b) i.
Proof.
  revert b. induction a as [|x a IHa]; intros b.
  - rewrite merge_reads_nil_l. simpl. tauto.
  - induction b as [|y b IHb].
    + rewrite merge_reads_nil_r. simpl. tauto.
    + rewrite merge_reads_cons, List.in_app_iff. intros [Hi|Hi].
      * assert (Hxy : near [x; y] i).
        { unfold merge_tmp_reads in Hi. simpl in Hi.
          destruct (s x - s y =? 0); [destruct (Z.rem x 3 =? 2)|];
            simpl in Hi;
            repeat (destruct Hi as [<-|Hi];
                    [first [exists x; split; [simpl; tauto|lia]
                           | exists y; split; [simpl; tauto|lia]]|]);
            destruct Hi. }
        destruct Hxy as (z & Hz & Hi'). exists z. split; [|exact Hi'].
        destruct Hz as [<-|[<-|[]]]; [left; reflexivity|].
        apply List.in_or_app. right. left. reflexivity.
      * destruct (num_lt (merge_tmp s lookup x y) (Int 0)).
        -- apply IHa in Hi. destruct Hi as (z & Hz & Hi).
           exists z. split; [right; exact Hz|exact Hi].
        -- apply IHb in Hi. destruct Hi as (z & Hz & Hi).
           exists z. split; [|exact Hi].
           apply List.in_app_or in Hz. apply List.in_or_app.
           destruct Hz as [Hz|Hz]; [left; exact Hz|right; right; exact Hz].
Qed.

(** One call, as [_suffixArray_step]. *)
Lemma accessor_reads_step fuel s len :
  accessor_reads (S fuel) s (Int len)
  = match init_a (S fuel) (Int (2 * len / 3)) with
    | None => []
    | Some a0 =>
        let r := sar (ToInt32 (2 * len / 3 + 1)) 1 in
        let a3 := triplet_sort s a0 in
        let nb := names s r a3 in
        triplet_sort_reads s a0 ++ names_reads s a3
        ++ match (if fst nb <? 2 * len / 3 - 1
                  then match _suffixArray fuel
                               (reduced (Int (2 * len / 3)) (snd nb))
                               (Int (2 * len / 3)) with
                       | None => None
                       | Some rec => Some (map (unslot r) rec)
                       end
                  else Some a3) with
           | None => []
           | Some a =>
               bsort_reads s (init_b (Int len) a)
               ++ merge_reads s (build_lookup 0 a) a
                    (bsort s (init_b (Int len) a))
           end
    end.
Proof.
  unfold accessor_reads. cbv zeta.
  cbn [floor_2_3 num_add num_sub num_ToInt32 num_lt].
  destruct (init_a (S fuel) (Int (2 * len / 3))) as [a0|]; [|reflexivity].
  destruct (names s _ (triplet_sort s a0)) as [j b]. cbn [fst snd].
  destruct (j <? 2 * len / 3 - 1); [|reflexivity].
  destruct (_suffixArray fuel _ _); reflexivity.
Qed.

(** Up to [max_length] every argument handed to the accessor is an index
    from 0 on. *)
Lemma accessor_reads_nonneg fuel s (n : nat) i :
  Z.of_nat n <= max_length ->
  In i (accessor_reads fuel s (Int (Z.of_nat n))) -> 0 <= i.
Proof.
  intros Hb. destruct fuel as [|fuel]; [simpl; tauto|].
  set (len := Z.of_nat n) in *.
  assert (Hlen : 0 <= len <= max_length) by lia.
  pose proof (alen_range len Hlen) as Ha.
  pose proof (r_model len Hlen) as Hr. cbv zeta in Hr.
  cbn [num_add num_ToInt32] in Hr.
  set (m := Z.to_nat (2 * len / 3)).
  assert (Hm : 2 * len / 3 = Z.of_nat m) by (unfold m; lia).
  assert (Hsam : forall a y, Permutation (samples m) a -> In y a -> 0 < y).
  { intros a y Hp Hy. eapply Permutation_in in Hy; [|symmetry; exact Hp].
    apply (In_samples len Hlen) in Hy. lia. }
  rewrite accessor_reads_step. cbv zeta.
  rewrite Hr, Hm, init_a_fuel
    by (apply (below_max_int m len); [Z.div_mod_to_equations; lia|lia]).
  destruct (m <? S fuel)%nat; [|simpl; tauto].
  rewrite !List.in_app_iff. intros [Hi|[Hi|Hi]].
  - apply triplet_sort_reads_near in Hi. revert Hi. apply near_nonneg.
    intros y Hy. apply (Hsam (samples m)) in Hy; [lia|reflexivity].
  - apply names_reads_near in Hi. revert Hi. apply near_nonneg.
    intros y Hy. apply (Hsam _ y (triplet_sort_perm s (samples m))) in Hy.
    lia.
  - assert (Hfin : forall a, Permutation (samples m) a ->
              In i (bsort_reads s (init_b (Int len) a)
                    ++ merge_reads s (build_lookup 0 a) a
                         (bsort s (init_b (Int len) a))) -> 0 <= i).
    { intros a Hp. rewrite List.in_app_iff.
      assert (Hb0 : forall y, In y (init_b (Int len) a) -> 0 <= y).
      { intros y Hy. apply (In_init_b len Hlen a) in Hy; [lia|].
        intros z. rewrite <- (In_samples len Hlen). fold m.
        split; apply Permutation_in; [symmetry|]; exact Hp. }
      intros [Hi'|Hi'].
      - apply bsort_reads_In in Hi'. apply Hb0, Hi'.
      - apply merge_reads_near in Hi'. revert Hi'. apply near_nonneg.
        intros y Hy. apply List.in_app_or in Hy. destruct Hy as [Hy|Hy].
        + apply (Hsam a y Hp) in Hy. lia.
        + apply Hb0. eapply Permutation_in; [|exact Hy].
          symmetry. apply bsort_perm. }
    destruct (fst _ <? _).
    + destruct (_suffixArray fuel _ _) as [rec|] eqn:Hrec; [|destruct Hi].
      revert Hi. apply Hfin.
      pose proof (unslot_samples len Hlen) as Hu. cbv zeta in Hu.
      rewrite Hm, Nat2Z.id in Hu.
      etransitivity; [exact Hu|]. apply Permutation_map.
      eapply (_suffixArray_perm fuel _ m); [|exact Hrec].
      Z.div_mod_to_equations. lia.
    + revert Hi. apply Hfin, triplet_sort_perm.
Qed.

(** ** Beyond [max_length] *)

Lemma spread_nonneg i : 0 <= spread i.
Proof. unfold spread. destruct (Z.ltb_spec i 0); lia. Qed.

Lemma spread_inj i k : spread i = spread k -> i = k.
Proof.
  unfold spread. destruct (Z.ltb_spec i 0), (Z.ltb_spec k 0); lia.
Qed.

(** At length 2^30 + 2 the last sample position is [(715827883 * 3) >> 1],
    and [715827883 * 3] is beyond 2^31. *)
Lemma samples_overflow (m : nat) :
  Z.of_nat m = 715827884 ->
  In (-1073741823) (samples m) /\ List.NoDup (samples m)
  /\ forall y, In y (samples m) -> y < 1073741826.
Proof.
  intros Hm. destruct m as [|m']; [lia|].
  assert (Hm' : Z.of_nat m' = 715827883) by lia.
  assert (Hlen : 0 <= 1073741825 <= max_length)
    by (vm_compute; split; discriminate).
  assert (Hto : Z.to_nat (2 * 1073741825 / 3) = m').
  { change (2 * 1073741825 / 3) with 715827883. lia. }
  pose proof (In_samples 1073741825 Hlen) as Hin.
  pose proof (NoDup_samples 1073741825 Hlen) as Hnd.
  cbv zeta in Hin, Hnd. rewrite Hto in Hin, Hnd.
  unfold samples in *. rewrite indices_S, map_app. simpl map.
  rewrite Hm'. change (sample_index 715827883) with (-1073741823).
  split; [|split].
  - apply List.in_or_app. right. left. reflexivity.
  - apply List.NoDup_app; [exact Hnd|repeat constructor; simpl; tauto|].
    intros y Hy [<-|[]]. apply Hin in Hy. lia.
  - intros y Hy. apply List.in_app_or in Hy. destruct Hy as [Hy|[<-|[]]].
    + apply Hin in Hy. lia.
    + lia.
Qed.

Lemma differs_first s x p : s x <> s p -> differs s x p = true.
Proof.
  intros H. unfold differs. destruct (Z.eqb_spec (s x) (s p)); [tauto|].
  reflexivity.
Qed.

Lemma name_loop_all_distinct s r prev rest j b :
  List.NoDup (prev :: rest) ->
  (forall x y, In x (prev :: rest) -> In y (prev :: rest) ->
               s x = s y -> x = y) ->
  fst (name_loop s r prev rest j b) = j + Z.of_nat (length rest).
Proof.
  revert prev j b. induction rest as [|x rest IH]; intros prev j b Hnd Hinj.
  - simpl. lia.
  - cbn [name_loop]. rewrite differs_first.
    + rewrite IH.
      * cbn [length]. lia.
      * inversion Hnd; assumption.
      * intros y z Hy Hz. apply Hinj; right; assumption.
    + intros Heq. apply Hinj in Heq; [|simpl; tauto|simpl; tauto].
      subst x. inversion Hnd as [|? ? Hnot _]. apply Hnot. left. reflexivity.
Qed.

(** When no two positions of [a] start with the same symbol, the last name
    is [a.length - 1]. *)
Lemma names_all_distinct s r a :
  a <> [] -> List.NoDup a ->
  (forall x y, In x a -> In y a -> s x = s y -> x = y) ->
  fst (names s r a) = Z.of_nat (length a) - 1.
Proof.
  intros Hne Hnd Hinj. destruct a as [|x rest]; [congruence|].
  unfold names. rewrite name_loop_all_distinct by assumption.
  cbn [length]. lia.
Qed.

Lemma finish_In s len a x : In x a -> In x (finish s len a).
Proof.
  intros Hx. unfold finish. cbv zeta.
  eapply Permutation_in; [apply merge_perm|].
  apply List.in_or_app. left. exact Hx.
Qed.

Lemma filter_perm {A : Type} (p : A -> bool) (l l' : list A) :
  Permutation l l' -> Permutation (List.filter p l) (List.filter p l').
Proof.
  induction 1 as [|x l l' _ IH|x y l|l l' l'' _ IH1 _ IH2]; simpl.
  - constructor.
  - destruct (p x); [constructor|]; exact IH.
  - destruct (p x), (p y); try reflexivity. constructor.
  - etransitivity; eassumption.
Qed.

Lemma init_b_length len a a' :
  Permutation a a' -> length (init_b len a) = length (init_b len a').
Proof.
  intros Hp. unfold init_b. rewrite !length_app, !length_map.
  rewrite (Permutation_length (filter_perm _ a a' Hp)). reflexivity.
Qed.

(** There too the merge runs over the whole of both arrays: the sample has
    [alen] elements and the other third [blen]. *)
Lemma overflow_operands (m : nat) s a :
  Z.of_nat m = 715827884 -> Permutation (samples m) a ->
  Z.of_nat (length a) = 2 * 1073741826 / 3
  /\ Z.of_nat (length (bsort s (init_b (Int 1073741826) a)))
     = 1073741826 - 2 * 1073741826 / 3.
Proof.
  intros Hm Hp. change (2 * 1073741826 / 3) with 715827884.
  assert (Hla : length a = m).
  { rewrite <- (Permutation_length Hp). unfold samples.
    rewrite length_map. apply length_indices. }
  split; [lia|].
  rewrite <- (Permutation_length (bsort_perm s _)).
  rewrite <- (init_b_length _ _ _ Hp).
  destruct m as [|m']; [lia|].
  assert (Hm' : Z.of_nat m' = 715827883) by lia.
  assert (Hlen : 0 <= 1073741825 <= max_length)
    by (vm_compute; split; discriminate).
  assert (Hto : Z.to_nat (2 * 1073741825 / 3) = m').
  { change (2 * 1073741825 / 3) with 715827883. lia. }
  destruct (merge_operands s 1073741825 (samples m') Hlen) as [_ Hlb].
  { rewrite Hto. reflexivity. }
  rewrite <- (Permutation_length (bsort_perm s _)) in Hlb.
  change (1073741825 - 2 * 1073741825 / 3) with 357913942 in Hlb.
  change (1073741826 - 715827884) with 357913942. rewrite <- Hlb.
  unfold samples at 1. rewrite indices_S, map_app. cbn [map].
  rewrite Hm'. change (sample_index 715827883) with (-1073741823).
  fold (samples m'). unfold init_b. rewrite List.filter_app.
  cbn [List.filter]. change (Z.rem (-1073741823) 3 =? 1) with false.
  cbv iota. change (num_rem3_is1 (Int 1073741826)) with false.
  change (num_rem3_is1 (Int 1073741825)) with false. cbv iota.
  rewrite !app_nil_r. reflexivity.
Qed.

(** With the symbols [spread] the names are all different, no nested call is
    made, and the negative position stays in the sample and gets into the
    result. *)
Lemma overflow_result (m : nat) fuel :
  Z.of_nat m = 715827884 -> (m < fuel)%nat ->
  exists res,
    _suffixArray fuel (guarded spread (Int 1073741826)) (Int 1073741826)
    = Some res
    /\ In (-1073741823) res.
Proof.
  intros Hm Hf. destruct fuel as [|fuel]; [lia|].
  destruct (samples_overflow m Hm) as (Hin & Hnd & Hlt).
  set (s := guarded spread (Int 1073741826)).
  assert (Hinit : init_a (S fuel) (Int 715827884) = Some (samples m)).
  { rewrite <- Hm. apply init_a_samples; [|exact Hf].
    rewrite Hm, max_int_value. lia. }
  rewrite _suffixArray_step. cbv zeta.
  change (2 * 1073741826 / 3) with 715827884. rewrite Hinit.
  pose proof (triplet_sort_perm s (samples m)) as Hp.
  rewrite names_all_distinct.
  - rewrite <- (Permutation_length Hp). unfold samples.
    rewrite length_map, length_indices, Hm.
    rewrite Z.ltb_irrefl. eexists. split; [reflexivity|].
    apply finish_In. eapply Permutation_in; [exact Hp|exact Hin].
  - intros Hnil. rewrite Hnil in Hp. apply Permutation_nil_r in Hp.
    rewrite Hp in Hin. destruct Hin.
  - eapply Permutation.Permutation_NoDup; [exact Hp|exact Hnd].
  - intros x y Hx Hy.
    assert (Hs : forall z, In z (triplet_sort s (samples m)) ->
                           s z = spread z).
    { intros z Hz. eapply Permutation_in in Hz; [|symmetry; exact Hp].
      apply Hlt in Hz. unfold s, guarded, num_ge.
      destruct (Z.leb_spec 1073741826 z); [lia|reflexivity]. }
    rewrite (Hs x Hx), (Hs y Hy). apply spread_inj.
Qed.

(** The scan of the first sort starts at the last sample position: the
    first index handed to the accessor, and through its guard to the
    caller's function, is that position plus 2. *)
Lemma overflow_reads (m : nat) fuel (f : Z -> Z) :
  Z.of_nat m = 715827884 -> (m < fuel)%nat ->
  In (-1073741821) (callback_reads fuel f (Int 1073741826)).
Proof.
  intros Hm Hf. destruct fuel as [|fuel]; [lia|].
  destruct (samples_overflow m Hm) as (Hin & _ & _).
  assert (Hinit : init_a (S fuel) (Int 715827884) = Some (samples m)).
  { rewrite <- Hm. apply init_a_samples; [|exact Hf].
    rewrite Hm, max_int_value. lia. }
  unfold callback_reads. apply List.filter_In. split; [|reflexivity].
  rewrite accessor_reads_step. cbv zeta.
  change (2 * 1073741826 / 3) with 715827884. rewrite Hinit.
  apply List.in_or_app. left. unfold triplet_sort_reads.
  cbn [sort_rounds_reads]. apply List.in_or_app. left.
  change (-1073741821) with (2 + -1073741823).
  apply (List.in_map (fun j => 2 + j)). apply bsort_reads_head, Hin.
Qed.

(** * The claims *)

(** The public function on a function and a number is [_suffixArray] on the
    guarded accessor. *)
Lemma suffixArray_Fn fuel f len :
  suffixArray fuel (Fn f) (Number len) = _suffixArray fuel (guarded f len) len.
Proof. reflexivity. Qed.

Lemma suffixArray_Str fuel cs :
  suffixArray fuel (Str cs) Undefined
  = _suffixArray fuel
      (guarded (charCodeAt cs) (Int (Z.of_nat (length cs))))
      (Int (Z.of_nat (length cs))).
Proof. reflexivity. Qed.

Lemma _suffixArray_correct fuel s (n : nat) :
  Z.of_nat n <= max_length -> (n < fuel)%nat ->
  exists res, _suffixArray fuel s (Int (Z.of_nat n)) = Some res
              /\ length res = n /\ Permutation (indices n) res.
Proof.
  intros Hb Hf.
  destruct (_suffixArray_returns fuel s n
              (below_max_int n _ (Z.le_refl _) Hb) Hf) as [res Hres].
  exists res. split; [exact Hres|].
  pose proof (_suffixArray_perm fuel s n res Hb Hres) as Hp.
  split; [|exact Hp].
  rewrite <- (Permutation_length Hp). apply length_indices.
Qed.

(** C1, as amended: for every length [n] up to [max_length] = 2^30 + 1 and
    every symbol function (in particular one into the non-negative
    integers), and for every string of [n] code units, [suffixArray] returns
    an array of length [n] that is a rearrangement of [0 .. n-1]: every index
    once, whether or not the nested call was made. *)
Theorem suffixArray_permutation (fuel n : nat) :
  Z.of_nat n <= max_length -> (n < fuel)%nat ->
  (forall f, exists res,
      suffixArray fuel (Fn f) (Number (Int (Z.of_nat n))) = Some res
      /\ length res = n /\ Permutation (indices n) res)
  /\ (forall cs, length cs = n -> exists res,
        suffixArray fuel (Str cs) Undefined = Some res
        /\ length res = n /\ Permutation (indices n) res).
Proof.
  intros Hb Hf. split.
  - intros f. rewrite suffixArray_Fn. apply _suffixArray_correct; assumption.
  - intros cs Hcs. rewrite suffixArray_Str, Hcs.
    apply _suffixArray_correct; assumption.
Qed.

Lemma suffixArray_permutation_witness :
  Z.of_nat 6 <= max_length /\ (6 < 7)%nat
  /\ (forall f, exists res,
        suffixArray 7 (Fn f) (Number (Int (Z.of_nat 6))) = Some res
        /\ length res = 6%nat /\ Permutation (indices 6) res)
  /\ (forall cs, length cs = 6%nat -> exists res,
        suffixArray 7 (Str cs) Undefined = Some res
        /\ length res = 6%nat /\ Permutation (indices 6) res).
Proof.
  split; [vm_compute; discriminate|]. split; [lia|].
  apply (suffixArray_permutation 7 6); [vm_compute; discriminate|lia].
Defined.

(** C1 as stated fails at length 2^30 + 2 with the symbols [spread], which
    are non-negative: the last sample position is
    [((715827883 * 3) >> 1) + 1 = -1073741823], and the array that comes back
    holds it. *)
Lemma suffixArray_beyond_max_length :
  (forall i, 0 <= spread i)
  /\ exists fuel res,
       suffixArray fuel (Fn spread) (Number (Int 1073741826)) = Some res
       /\ In (-1073741823) res
       /\ ~ Permutation (indices (Z.to_nat 1073741826)) res.
Proof.
  split; [exact spread_nonneg|].
  assert (Hm : Z.of_nat (Z.to_nat 715827884) = 715827884) by lia.
  destruct (overflow_result (Z.to_nat 715827884)
              (S (Z.to_nat 715827884)) Hm (Nat.lt_succ_diag_r _))
    as (res & Hres & Hin).
  exists (S (Z.to_nat 715827884)), res. rewrite suffixArray_Fn.
  split; [exact Hres|]. split; [exact Hin|].
  intros Hp. eapply Permutation_in in Hin; [|symmetry; exact Hp].
  apply In_indices in Hin. lia.
Qed.

(** C2 (the order of the result) fails on the code: for the string of two
    equal symbols the merge reads [lookup[2]], which was never written, the
    difference is [NaN], and the longer suffix is put first.  A position at
    or beyond the length has no rank either when the names are sorted by the
    nested call: ["ccbabab"] comes out unsorted too. *)
Theorem suffixArray_aa_unsorted :
  (forall fuel, suffixArray (S (S (S fuel))) (Str (codes "aa")) Undefined
                = Some [0; 1])
  /\ Forall (fun c => 1 <= c) (codes "aa")
  /\ suffixes_sorted (charCodeAt (codes "aa")) 2 [0; 1] = false
  /\ suffixes_sorted (charCodeAt (codes "aa")) 2 [1; 0] = true
  /\ suffixArray 8 (Str (codes "ccbabab")) Undefined
     = Some [3; 5; 6; 2; 4; 1; 0]
  /\ suffixes_sorted (charCodeAt (codes "ccbabab")) 7 [3; 5; 6; 2; 4; 1; 0]
     = false
  /\ suffixes_sorted (charCodeAt (codes "ccbabab")) 7 [5; 3; 6; 4; 2; 1; 0]
     = true.
Proof.
  split; [intros fuel; reflexivity|].
  split; [repeat constructor; vm_compute; discriminate|].
  repeat split; vm_compute; reflexivity.
Qed.

(** C3 (the policy argument) fails on the code: the second argument is the
    length, a policy name converts to [NaN] and the result is empty; an index
    at or beyond the length is answered with 0, never wrapped around. *)
Theorem suffixArray_wrap_is_a_length :
  (forall fuel, suffixArray (S fuel) (Str (codes "baa")) (Text "wrap")
                = Some [])
  /\ (forall f len i, len <= i -> guarded f (Int len) i = 0).
Proof.
  split; [intros fuel; reflexivity|].
  intros f len i Hi. unfold guarded, num_ge.
  destruct (Z.leb_spec len i); [reflexivity|lia].
Qed.

(** C4, as amended: on keys in [0, 2^32) [bsort] returns a stable
    rearrangement of the items in ascending order of the key (equal keys keep
    their order), and the empty array for the empty array. *)
Theorem bsort_stable_sort {A : Type} (key : A -> Z) (a : list A) :
  (forall x, In x a -> 0 <= key x < 2 ^ 32) ->
  Permutation a (bsort key a)
  /\ StronglySorted (le_on key) (bsort key a)
  /\ (forall v, class key v (bsort key a) = class key v a)
  /\ bsort key [] = [].
Proof.
  intros Hk. destruct (bsort_stable key a Hk) as (Hp & Hs & Hc).
  repeat split; assumption || reflexivity.
Qed.

Lemma bsort_stable_sort_witness :
  (forall x, In x [3; 1; 2; 1] -> 0 <= (fun z => z / 2) x < 2 ^ 32)
  /\ Permutation [3; 1; 2; 1] (bsort (fun z => z / 2) [3; 1; 2; 1])
  /\ StronglySorted (le_on (fun z => z / 2))
       (bsort (fun z => z / 2) [3; 1; 2; 1])
  /\ (forall v, class (fun z => z / 2) v (bsort (fun z => z / 2) [3; 1; 2; 1])
                = class (fun z => z / 2) v [3; 1; 2; 1])
  /\ bsort (fun z : Z => z / 2) [] = [].
Proof.
  assert (H : forall x, In x [3; 1; 2; 1] -> 0 <= (fun z => z / 2) x < 2 ^ 32).
  { intros x Hx. simpl in Hx.
    repeat (destruct Hx as [<-|Hx];
            [vm_compute; split; [discriminate|reflexivity]|]).
    destruct Hx. }
  split; [exact H|]. apply (bsort_stable_sort (fun z => z / 2) [3; 1; 2; 1] H).
Defined.

(** C4 as stated fails for a key of 2^32: only the low 32 bits are sorted. *)
Lemma bsort_beyond_32_bits :
  (forall x, In x [2 ^ 32; 1] -> 0 <= x)
  /\ bsort (fun x => x) [2 ^ 32; 1] = [2 ^ 32; 1]
  /\ ~ StronglySorted (le_on (fun x => x)) (bsort (fun x => x) [2 ^ 32; 1]).
Proof.
  split.
  { intros x [<-|[<-|[]]]; vm_compute; discriminate. }
  split; [reflexivity|].
  change (bsort (fun x => x) [2 ^ 32; 1]) with [2 ^ 32; 1].
  intros Hs. inversion Hs as [|? ? _ Hall]; subst.
  inversion Hall as [|? ? Hle _]; subst. unfold le_on in Hle.
  vm_compute in Hle. apply Hle. reflexivity.
Qed.

(** C5, as amended: when the symbols read are in [0, 2^32), the three
    sorts by [s (x + 2)], [s (x + 1)] and [s x] leave the sample in ascending
    order of the triplets [(s x, s (x + 1), s (x + 2))], positions with equal
    triplets in their former order. *)
Theorem triplet_sort_orders_triples (s : Z -> Z) (a : list Z) :
  (forall x, In x a ->
     0 <= s x < 2 ^ 32 /\ 0 <= s (x + 1) < 2 ^ 32
     /\ 0 <= s (x + 2) < 2 ^ 32) ->
  Permutation a (triplet_sort s a)
  /\ StronglySorted (triple_le s) (triplet_sort s a)
  /\ forall x, List.filter (same_triple s x) (triplet_sort s a)
               = List.filter (same_triple s x) a.
Proof. apply triplet_sort_stable. Qed.

Lemma triplet_sort_orders_triples_witness :
  (forall x, In x [1; 2; 4; 5] ->
     0 <= Z.rem x 2 < 2 ^ 32 /\ 0 <= Z.rem (x + 1) 2 < 2 ^ 32
     /\ 0 <= Z.rem (x + 2) 2 < 2 ^ 32)
  /\ Permutation [1; 2; 4; 5] (triplet_sort (fun i => Z.rem i 2) [1; 2; 4; 5])
  /\ StronglySorted (triple_le (fun i => Z.rem i 2))
       (triplet_sort (fun i => Z.rem i 2) [1; 2; 4; 5])
  /\ forall x,
       List.filter (same_triple (fun i => Z.rem i 2) x)
         (triplet_sort (fun i => Z.rem i 2) [1; 2; 4; 5])
       = List.filter (same_triple (fun i => Z.rem i 2) x) [1; 2; 4; 5].
Proof.
  assert (H : forall x, In x [1; 2; 4; 5] ->
     0 <= Z.rem x 2 < 2 ^ 32 /\ 0 <= Z.rem (x + 1) 2 < 2 ^ 32
     /\ 0 <= Z.rem (x + 2) 2 < 2 ^ 32).
  { intros x Hx. simpl in Hx.
    repeat (destruct Hx as [<-|Hx];
            [vm_compute; repeat split; discriminate || reflexivity|]).
    destruct Hx. }
  split; [exact H|].
  apply (triplet_sort_orders_triples (fun i => Z.rem i 2) [1; 2; 4; 5] H).
Defined.

(** C5 as stated fails for a symbol of 2^32: the sample [1; 2] of a
    sequence of length 3 stays as it is, though the triplet at 2 is the
    smaller one. *)
Lemma triplet_sort_beyond_32_bits :
  (forall i, 0 <= i < 3 -> 0 <= wide i)
  /\ triplet_sort (guarded wide (Int 3)) [1; 2] = [1; 2]
  /\ ~ StronglySorted (triple_le (guarded wide (Int 3)))
         (triplet_sort (guarded wide (Int 3)) [1; 2]).
Proof.
  split.
  { intros i Hi. assert (Hc : i = 0 \/ i = 1 \/ i = 2) by lia.
    destruct Hc as [-> | [-> | ->]]; vm_compute; discriminate. }
  split; [reflexivity|].
  change (triplet_sort (guarded wide (Int 3)) [1; 2]) with [1; 2].
  intros Hs. inversion Hs as [|? ? _ Hall]; subst.
  inversion Hall as [|? ? Hle _]; subst.
  unfold triple_le, lex in Hle. vm_compute in Hle.
  destruct Hle as [Hlt|[Heq _]]; discriminate.
Qed.

(** ** The chain of nested calls *)







(** C7 (the worked results with an explicit ["min"]) fails on the code:
    the policy name is taken for the length and the result is empty; without
    the argument the three results are the documented ones. *)
Theorem suffixArray_min_is_a_length :
  (forall fuel,
     suffixArray (S fuel) (Str (codes "aaa")) (Text "min") = Some []
     /\ suffixArray (S fuel) (Str (codes "baa")) (Text "min") = Some []
     /\ suffixArray (S fuel) (Str (codes "banana")) (Text "min") = Some [])
  /\ suffixArray 4 (Str (codes "aaa")) Undefined = Some [2; 1; 0]
  /\ suffixArray 4 (Str (codes "baa")) Undefined = Some [2; 1; 0]
  /\ suffixArray 7 (Str (codes "banana")) Undefined = Some [5; 3; 1; 0; 4; 2].
Proof.
  split; [intros fuel; repeat split; reflexivity|].
  repeat split; vm_compute; reflexivity.
Qed.

Lemma _suffixArray_negative fuel s len :
  len < 0 -> _suffixArray fuel s (Int len) = None.
Proof.
  intros Hlen. destruct fuel as [|fuel]; [reflexivity|].
  rewrite _suffixArray_step. unfold init_a.
  rewrite count_down_negative; [reflexivity|].
  Z.div_mod_to_equations. lia.
Qed.

(** C8, as amended: a negative length is not validated and nothing is
    thrown; the call goes into the computation, where the loop that fills the
    sample counts down from [floor(2 * len / 3) < 0] and never reaches 0, so
    the call does not return, whatever the fuel. *)
Theorem negative_length_not_validated (fuel : nat) (src : source) (len : Z) :
  len < 0 ->
  suffixArray fuel src (Number (Int len)) = None
  /\ run fuel src (Number (Int len)) = Runs.
Proof.
  intros Hlen.
  assert (H : suffixArray fuel src (Number (Int len)) = None).
  { destruct src as [cs|f].
    - unfold suffixArray, length_or, truthy, ToNumber.
      destruct (Z.eqb_spec len 0); [lia|]. cbn [negb].
      apply _suffixArray_negative, Hlen.
    - apply _suffixArray_negative, Hlen. }
  split; [exact H|]. unfold run. rewrite H. reflexivity.
Qed.

Lemma negative_length_not_validated_witness :
  -1 < 0
  /\ suffixArray 5 (Str (codes "baa")) (Number (Int (-1))) = None
  /\ run 5 (Str (codes "baa")) (Number (Int (-1))) = Runs.
Proof.
  assert (H : -1 < 0) by lia.
  split; [exact H|].
  apply (negative_length_not_validated 5 (Str (codes "baa")) (-1) H).
Defined.

(** C8 as stated fails at length -1: no error comes out, with any fuel the
    call is still running. *)
Lemma negative_length_runs :
  (forall fuel, run fuel (Fn (fun _ => 1)) (Number (Int (-1))) = Runs)
  /\ ~ exists fuel message,
         run fuel (Fn (fun _ => 1)) (Number (Int (-1))) = Throws message.
Proof.
  assert (H : forall fuel,
             run fuel (Fn (fun _ => 1)) (Number (Int (-1))) = Runs).
  { intros fuel. unfold run. rewrite suffixArray_Fn.
    rewrite _suffixArray_negative; [reflexivity|]. cbn [ToNumber]. lia. }
  split; [exact H|]. intros (fuel & message & Hrun).
  rewrite H in Hrun. discriminate Hrun.
Qed.

(** C9, as amended: for every length [n] up to [max_length] the caller's
    function (the character lookup, for a string) is only asked indices
    [0 <= i < n]: a call of [_suffixArray] (the outer one, and so the nested
    ones) asks its accessor only indices from 0 on, and the accessor of the
    public function answers every index at or beyond [n] with 0 without
    asking. *)
Theorem callback_reads_in_range (fuel : nat) (f : Z -> Z) (n : nat) :
  Z.of_nat n <= max_length ->
  Forall (fun i => 0 <= i < Z.of_nat n)
         (callback_reads fuel f (Int (Z.of_nat n)))
  /\ (forall s, Forall (fun i => 0 <= i)
                   (accessor_reads fuel s (Int (Z.of_nat n))))
  /\ (forall i, Z.of_nat n <= i -> guarded f (Int (Z.of_nat n)) i = 0).
Proof.
  intros Hb. split; [|split].
  - apply List.Forall_forall. intros i Hi. unfold callback_reads in Hi.
    apply List.filter_In in Hi. destruct Hi as [Hi Hg].
    apply accessor_reads_nonneg in Hi; [|exact Hb].
    unfold num_ge in Hg. apply negb_true_iff in Hg.
    destruct (Z.leb_spec (Z.of_nat n) i); [discriminate|lia].
  - intros s. apply List.Forall_forall. intros i Hi.
    apply accessor_reads_nonneg in Hi; [exact Hi|exact Hb].
  - intros i Hi. unfold guarded, num_ge.
    destruct (Z.leb_spec (Z.of_nat n) i); [reflexivity|lia].
Qed.

Lemma callback_reads_in_range_witness :
  Z.of_nat 6 <= max_length
  /\ Forall (fun i => 0 <= i < Z.of_nat 6)
            (callback_reads 7 (charCodeAt (codes "banana")) (Int (Z.of_nat 6)))
  /\ (forall s, Forall (fun i => 0 <= i)
                   (accessor_reads 7 s (Int (Z.of_nat 6))))
  /\ (forall i, Z.of_nat 6 <= i ->
                guarded (charCodeAt (codes "banana")) (Int (Z.of_nat 6)) i = 0).
Proof.
  assert (H : Z.of_nat 6 <= max_length) by (vm_compute; discriminate).
  split; [exact H|].
  apply (callback_reads_in_range 7 (charCodeAt (codes "banana")) 6 H).
Defined.

(** C9 as stated fails at length 2^30 + 2: the first index handed to the
    caller's function is [(715827883 * 3 >> 1) + 1 + 2 = -1073741821]. *)
Lemma callback_beyond_max_length :
  exists fuel,
    In (-1073741821) (callback_reads fuel (fun _ => 1) (Int 1073741826)).
Proof.
  assert (Hm : Z.of_nat (Z.to_nat 715827884) = 715827884) by lia.
  exists (S (Z.to_nat 715827884)).
  apply (overflow_reads (Z.to_nat 715827884) _ _ Hm). apply Nat.lt_succ_diag_r.
Qed.

(** * Further properties *)

(** Whatever the keys are, [bsort] returns a rearrangement of its argument,
    of the same length. *)
Theorem bsort_rearranges {A : Type} (key : A -> Z) (a : list A) :
  Permutation a (bsort key a) /\ length (bsort key a) = length a.
Proof.
  pose proof (bsort_perm key a) as Hp. split; [exact Hp|].
  symmetry. apply Permutation_length, Hp.
Qed.

(** The two results that the header of [suffixarray.js] documents. *)
Theorem suffixArray_documented_results :
  suffixArray 11 (Str (codes "Sort this!")) Undefined
  = Some [4; 9; 0; 6; 7; 1; 2; 8; 3; 5]
  /\ suffixArray 11
       (Fn (fun i => charCodeAt (codes "Sort this!") (10 - 1 - i)))
       (Number (Int 10))
     = Some [5; 0; 9; 3; 2; 8; 7; 1; 4; 6].
Proof. split; vm_compute; reflexivity. Qed.

(** The smallest lengths: the empty array for length 0 and [[0]] for
    length 1, for every symbol function and every string. *)
Theorem suffixArray_base_cases (fuel : nat) (f : Z -> Z) (c : Z) :
  suffixArray (S fuel) (Fn f) (Number (Int 0)) = Some []
  /\ suffixArray (S fuel) (Str []) Undefined = Some []
  /\ suffixArray (S fuel) (Fn f) (Number (Int 1)) = Some [0]
  /\ suffixArray (S fuel) (Str [c]) Undefined = Some [0].
Proof.
  assert (H1 : forall s, _suffixArray (S fuel) s (Int 1) = Some [0]).
  { intros s. rewrite _suffixArray_step. cbv zeta.
    change (2 * 1 / 3) with 0.
    assert (Hi : init_a (S fuel) (Int 0) = Some []) by reflexivity.
    assert (Ht : triplet_sort s [] = []) by reflexivity.
    rewrite Hi, Ht. cbn [names fst].
    assert (Hc : (0 <? 0 - 1) = false) by reflexivity. rewrite Hc.
    unfold finish. cbv zeta.
    assert (Hb : init_b (Int 1) [] = [0]) by reflexivity. rewrite Hb.
    pose proof (bsort_perm s [0]) as Hp.
    apply Permutation_length_1_inv in Hp. rewrite Hp. reflexivity. }
  split; [reflexivity|]. split; [reflexivity|].
  split; [rewrite suffixArray_Fn; apply H1|].
  rewrite suffixArray_Str. apply H1.
Qed.

(** ** [bsort] on every key *)

Section BsortAnyKey.

Context {A : Type}.
Variable key : A -> Z.

(** The key as [>>] sees it. *)
Let u (x : A) : Z := key x mod 2 ^ 32.

Lemma ToInt32_mod32 x : ToInt32 (x mod 2 ^ 32) = ToInt32 x.
Proof. unfold ToInt32. rewrite Z.mod_mod by lia. reflexivity. Qed.

Lemma digit_low32 d x : digit key d x = digit u d x.
Proof. unfold digit, sar, u. rewrite ToInt32_mod32. reflexivity. Qed.

Lemma distribute_digits (key' : A -> Z) d a :
  (forall x, In x a -> digit key d x = digit key' d x) ->
  distribute key d a = distribute key' d a.
Proof.
  induction a as [|x a IH]; intros H; [reflexivity|].
  unfold distribute. cbn [fold_right]. fold (distribute key d a).
  fold (distribute key' d a). rewrite IH by (intros; apply H; right; assumption).
  rewrite (H x) by (left; reflexivity). reflexivity.
Qed.

Lemma passes_digits (key' : A -> Z) n d bits a :
  (forall d' x, digit key d' x = digit key' d' x) ->
  passes key n d bits a = passes key' n d bits a.
Proof.
  intros H. revert d a. induction n as [|n IH]; intros d a; [reflexivity|].
  cbn [passes]. destruct (d <? bits); [|reflexivity].
  unfold pass. rewrite (distribute_digits key') by (intros; apply H).
  apply IH.
Qed.

Lemma bits_of_values j :
  exists m, bits_of j = 4 * m /\ (m = 2 \/ m = 4 \/ m = 6 \/ m = 8).
Proof.
  unfold bits_of.
  destruct (negb (sar j 24 =? 0)); [exists 8; lia|].
  destruct (negb (sar j 16 =? 0)); [exists 6; lia|].
  destruct (negb (sar j 8 =? 0)); [exists 4; lia|].
  exists 2; lia.
Qed.

Lemma bsort_low a :
  stable_sort_of (low key (bits_of (max_key key a))) a (bsort key a).
Proof.
  destruct (bits_of_values (max_key key a)) as (m & Hm & Hcases).
  unfold bsort. rewrite Hm.
  rewrite (passes_digits u) by (intros; apply digit_low32).
  assert (Hu : forall x, In x a -> 0 <= u x < 2 ^ 32).
  { intros x _. unfold u. apply Z.mod_pos_bound. lia. }
  pose proof (passes_radix u 8 0 m a a Hu) as H.
  change (4 * 0) with 0 in H.
  apply (stable_sort_ext (low u (4 * m))).
  - intros x _. unfold low, u.
    destruct Hcases as [-> | [-> | [-> | ->]]];
      cbn; Z.div_mod_to_equations; lia.
  - apply H; [lia|lia|lia|].
    apply stable_sort_refl. intros x y _ _. unfold low.
    rewrite !Z.mod_1_r. reflexivity.
Qed.

End BsortAnyKey.

(** ** Stable sorts are unique *)

Section Unique.

Context {A : Type}.
Implicit Types (g : A -> Z) (l : list A).

Lemma class_cons g v x l :
  class g v (x :: l) = if g x =? v then x :: class g v l else class g v l.
Proof. reflexivity. Qed.

Lemma class_head_In g x l : In x (class g (g x) (x :: l)).
Proof. rewrite class_cons, Z.eqb_refl. left. reflexivity. Qed.

Lemma sorted_classes_eq g l1 :
  forall l2,
    StronglySorted (le_on g) l1 -> StronglySorted (le_on g) l2 ->
    (forall v, class g v l1 = class g v l2) -> l1 = l2.
Proof.
  induction l1 as [|x t1 IH]; intros l2 H1 H2 Hc.
  - destruct l2 as [|y t2]; [reflexivity|].
    pose proof (class_head_In g y t2) as Hy. rewrite <- Hc in Hy.
    destruct Hy.
  - destruct l2 as [|y t2].
    { pose proof (class_head_In g x t1) as Hx. rewrite Hc in Hx.
      destruct Hx. }
    apply StronglySorted_inv in H1. destruct H1 as [H1 Hx].
    apply StronglySorted_inv in H2. destruct H2 as [H2 Hy].
    rewrite List.Forall_forall in Hx, Hy.
    assert (Hxy : g x = g y).
    { pose proof (class_head_In g x t1) as Hx2. rewrite Hc in Hx2.
      apply class_In in Hx2. destruct Hx2 as [Hx2 _].
      pose proof (class_head_In g y t2) as Hy1. rewrite <- Hc in Hy1.
      apply class_In in Hy1. destruct Hy1 as [Hy1 _].
      assert (g y <= g x).
      { destruct Hx2 as [<-|Hx2]; [lia|]. apply (Hy x Hx2). }
      assert (g x <= g y).
      { destruct Hy1 as [<-|Hy1]; [lia|]. apply (Hx y Hy1). }
      lia. }
    assert (x = y).
    { pose proof (Hc (g x)) as Hv. rewrite !class_cons in Hv.
      rewrite Z.eqb_refl in Hv. rewrite <- Hxy, Z.eqb_refl in Hv.
      congruence. }
    subst y. f_equal. apply IH; [exact H1|exact H2|].
    intros v. pose proof (Hc v) as Hv. rewrite !class_cons in Hv.
    destruct (g x =? v); congruence.
Qed.

Lemma stable_sort_unique g l0 l1 l2 :
  stable_sort_of g l0 l1 -> stable_sort_of g l0 l2 -> l1 = l2.
Proof.
  intros (_ & S1 & C1) (_ & S2 & C2).
  apply (sorted_classes_eq g); [exact S1|exact S2|].
  intros v. rewrite C1, C2. reflexivity.
Qed.

Lemma stable_sort_sorted g l :
  StronglySorted (le_on g) l -> stable_sort_of g l l.
Proof. intros H. split; [reflexivity|]. split; [exact H|reflexivity]. Qed.

End Unique.

(** ** The sample is written in ascending order *)

Lemma samples_S n : samples (S n) = samples n ++ [sample_index (Z.of_nat n)].
Proof. unfold samples. rewrite indices_S, map_app. reflexivity. Qed.

Lemma samples_ascending n :
  Z.of_nat n <= 715827883 -> StronglySorted Z.lt (samples n).
Proof.
  induction n as [|n IH]; intros Hn; [constructor|].
  rewrite samples_S. apply StronglySorted_app.
  - apply IH. lia.
  - repeat constructor.
  - intros x y Hx [<-|[]]. unfold samples in Hx.
    apply in_map_iff in Hx. destruct Hx as (i & <- & Hi).
    apply In_indices in Hi.
    rewrite !sample_index_small by lia.
    Z.div_mod_to_equations. lia.
Qed.

Lemma length_samples n : length (samples n) = n.
Proof. unfold samples. rewrite length_map. apply length_indices. Qed.

Section Counts.

Variable len : Z.
Hypothesis len_range : 0 <= len <= max_length.

Let alen := 2 * len / 3.
Let r := (alen + 1) / 2.

Lemma ones_of_sample a :
  List.NoDup a -> (forall y, In y a <-> 0 < y < len /\ y mod 3 <> 0) ->
  Z.of_nat (length (List.filter (fun x => Z.rem x 3 =? 1) a)) = r.
Proof.
  intros Hnd Ha.
  assert (Hr : 0 <= r).
  { unfold r, alen. Z.div_mod_to_equations. lia. }
  assert (Hp : Permutation (List.filter (fun x => Z.rem x 3 =? 1) a)
                 (map (fun q => 3 * q + 1) (indices (Z.to_nat r)))).
  { apply Permutation.NoDup_Permutation.
    - apply List.NoDup_filter, Hnd.
    - apply NoDup_map_NoDup_ForallPairs; [|apply NoDup_indices].
      intros x y _ _ H. lia.
    - intros x. rewrite filter_In, in_map_iff, Ha. split.
      + intros ((Hx & Hm) & H1). apply Z.eqb_eq in H1.
        rewrite Z.rem_mod_nonneg in H1 by lia.
        exists (x / 3). split.
        * Z.div_mod_to_equations. lia.
        * apply In_indices. unfold r, alen. Z.div_mod_to_equations. lia.
      + intros (q & <- & Hq). apply In_indices in Hq.
        assert (Hq' : 0 <= q < r) by lia.
        assert (Hm : (3 * q + 1) mod 3 = 1)
          by (Z.div_mod_to_equations; lia).
        split; [split|].
        * unfold r, alen in Hq'. Z.div_mod_to_equations. lia.
        * lia.
        * apply Z.eqb_eq. rewrite Z.rem_mod_nonneg by lia. exact Hm. }
  rewrite (Permutation_length Hp), length_map, length_indices. lia.
Qed.

Lemma slot_unslot i :
  0 <= i < alen -> slot r (unslot r i) = i.
Proof.
  intros Hi. unfold slot, unslot. destruct (Z.ltb_spec i r).
  - rewrite Z.rem_mod_nonneg by lia.
    destruct (Z.eqb_spec ((i * 3 + 1) mod 3) 1);
      Z.div_mod_to_equations; lia.
  - rewrite Z.rem_mod_nonneg by lia.
    destruct (Z.eqb_spec (((i - r) * 3 + 2) mod 3) 1);
      Z.div_mod_to_equations; lia.
Qed.

Lemma unslot_range i :
  0 <= i < alen ->
  0 < unslot r i < len /\ unslot r i mod 3 <> 0
  /\ (i < r <-> unslot r i mod 3 = 1).
Proof.
  intros Hi. unfold unslot. destruct (Z.ltb_spec i r).
  - unfold r, alen in *. Z.div_mod_to_equations. lia.
  - unfold r, alen in *. Z.div_mod_to_equations. lia.
Qed.

Lemma unslot_slot x :
  0 < x < len -> x mod 3 <> 0 ->
  unslot r (slot r x) = x /\ 0 <= slot r x < alen.
Proof.
  intros Hx Hm. unfold slot, unslot.
  rewrite Z.rem_mod_nonneg by lia.
  destruct (Z.eqb_spec (x mod 3) 1) as [H1|H1].
  - rewrite Z.add_0_r. destruct (Z.ltb_spec (x / 3) r);
      unfold r, alen in *; Z.div_mod_to_equations; lia.
  - destruct (Z.ltb_spec (x / 3 + r) r);
      unfold r, alen in *; Z.div_mod_to_equations; lia.
Qed.

Lemma slot_inj x y :
  0 < x < len -> x mod 3 <> 0 -> 0 < y < len -> y mod 3 <> 0 ->
  slot r x = slot r y -> x = y.
Proof.
  intros Hx Hxm Hy Hym H.
  destruct (unslot_slot x Hx Hxm) as [<- _].
  destruct (unslot_slot y Hy Hym) as [<- _].
  rewrite H. reflexivity.
Qed.

End Counts.

(** ** The reverse lookup table *)

Lemma build_lookup_notin a : forall i x,
  ~ In x a -> build_lookup i a !! x = None.
Proof.
  induction a as [|y a IH]; intros i x Hx; cbn [build_lookup].
  - apply lookup_empty.
  - rewrite lookup_insert_ne.
    + apply IH. intros H. apply Hx. right. exact H.
    + intros ->. apply Hx. left. reflexivity.
Qed.

Lemma build_lookup_first l1 : forall i l2 x,
  ~ In x l1 ->
  build_lookup i (l1 ++ x :: l2) !! x = Some (i + Z.of_nat (length l1)).
Proof.
  induction l1 as [|y l1 IH]; intros i l2 x Hx; cbn [app build_lookup].
  - rewrite lookup_insert_eq. f_equal. cbn. lia.
  - rewrite lookup_insert_ne.
    + rewrite IH by (intros H; apply Hx; right; exact H).
      f_equal. cbn [length]. lia.
    + intros ->. apply Hx. left. reflexivity.
Qed.

Lemma build_lookup_In a : forall i x k,
  build_lookup i a !! x = Some k ->
  In x a /\ i <= k < i + Z.of_nat (length a).
Proof.
  induction a as [|y a IH]; intros i x k H; cbn [build_lookup] in H.
  - rewrite lookup_empty in H. discriminate.
  - destruct (decide (y = x)) as [->|Hne].
    + rewrite lookup_insert_eq in H. apply Some_inv in H. subst k.
      split; [left; reflexivity|]. cbn [length]. lia.
    + rewrite lookup_insert_ne in H by exact Hne.
      apply IH in H. destruct H as [H1 H2].
      split; [right; exact H1|]. cbn [length]. lia.
Qed.

Lemma build_lookup_nth a :
  List.NoDup a ->
  forall x k, build_lookup 0 a !! x = Some k
              <-> 0 <= k /\ a !! Z.to_nat k = Some x.
Proof.
  intros Hnd x k. split.
  - intros H. pose proof (build_lookup_In a 0 x k H) as [Hx Hk].
    apply in_split in Hx. destruct Hx as (l1 & l2 & ->).
    assert (Hn : ~ In x l1).
    { apply List.NoDup_remove_2 in Hnd. intros Hx. apply Hnd.
      apply in_or_app. left. exact Hx. }
    rewrite build_lookup_first in H by exact Hn. apply Some_inv in H.
    split; [lia|]. subst k. rewrite Z.add_0_l, Nat2Z.id.
    apply list_lookup_middle. reflexivity.
  - intros [Hk H]. pose proof (take_drop_middle a (Z.to_nat k) x H) as E.
    assert (Hl : length (take (Z.to_nat k) a) = Z.to_nat k).
    { apply length_take_le. apply lookup_lt_Some in H. lia. }
    rewrite <- E in Hnd |- *.
    rewrite build_lookup_first.
    + rewrite Hl. f_equal. lia.
    + apply List.NoDup_remove_2 in Hnd. intros Hx. apply Hnd.
      apply in_or_app. left. exact Hx.
Qed.

(** ** The merge is an interleaving *)

Lemma merge_sublist s lookup a : forall b,
  sublist a (merge s lookup a b) /\ sublist b (merge s lookup a b).
Proof.
  induction a as [|x a IHa]; intros b.
  - rewrite merge_nil_l. split; [apply sublist_nil_l|reflexivity].
  - induction b as [|y b IHb].
    + rewrite merge_nil_r. split; [reflexivity|apply sublist_nil_l].
    + rewrite merge_cons.
      destruct (num_lt (merge_tmp s lookup x y) (Int 0)).
      * destruct (IHa (y :: b)) as [H1 H2]. split.
        -- apply sublist_skip, H1.
        -- apply sublist_cons, H2.
      * destruct IHb as [H1 H2]. split.
        -- apply sublist_cons, H1.
        -- apply sublist_skip, H2.
Qed.

(** The first symbols are always compared rightly. *)
Lemma merge_tmp_first s lookup x y :
  (num_lt (merge_tmp s lookup x y) (Int 0) = true -> s x <= s y)
  /\ (num_lt (merge_tmp s lookup x y) (Int 0) = false -> s y <= s x).
Proof.
  unfold merge_tmp.
  set (tie := if Z.rem x 3 =? 2 then _ else _). unfold or_else.
  destruct (Z.eqb_spec (s x - s y) 0) as [H0|H0].
  - split; intros _; lia.
  - cbn [num_lt]. destruct (Z.ltb_spec (s x - s y) 0); split; intros Hc;
      try discriminate; lia.
Qed.

Lemma merge_In s lookup a b x :
  In x (merge s lookup a b) <-> In x a \/ In x b.
Proof.
  rewrite <- in_app_iff. split; intros H.
  - eapply Permutation_in; [symmetry; apply merge_perm|exact H].
  - eapply Permutation_in; [apply merge_perm|exact H].
Qed.

Lemma merge_sorted_first s lookup a : forall b,
  StronglySorted (le_on s) a -> StronglySorted (le_on s) b ->
  StronglySorted (le_on s) (merge s lookup a b).
Proof.
  induction a as [|x a IHa]; intros b Ha Hb.
  - rewrite merge_nil_l. exact Hb.
  - induction b as [|y b IHb].
    + rewrite merge_nil_r. exact Ha.
    + rewrite merge_cons.
      pose proof (merge_tmp_first s lookup x y) as [Ht Hf].
      pose proof (StronglySorted_inv Ha) as [Ha' Hx].
      pose proof (StronglySorted_inv Hb) as [Hb' Hy].
      rewrite List.Forall_forall in Hx, Hy.
      destruct (num_lt (merge_tmp s lookup x y) (Int 0)).
      * constructor; [apply IHa; assumption|].
        apply List.Forall_forall. intros z Hz. apply merge_In in Hz.
        specialize (Ht eq_refl). unfold le_on in *.
        destruct Hz as [Hz|[<-|Hz]].
        -- apply Hx, Hz.
        -- exact Ht.
        -- specialize (Hy z Hz). lia.
      * constructor; [apply IHb; assumption|].
        apply List.Forall_forall. intros z Hz. apply merge_In in Hz.
        specialize (Hf eq_refl). unfold le_on in *.
        destruct Hz as [[<-|Hz]|Hz].
        -- exact Hf.
        -- specialize (Hx z Hz). lia.
        -- apply Hy, Hz.
Qed.

(** ** The names *)

Lemma triple_le_iff s x y :
  triple_le s x y
  <-> s x < s y
      \/ (s x = s y
          /\ (s (x + 1) < s (y + 1)
              \/ (s (x + 1) = s (y + 1) /\ s (x + 2) <= s (y + 2)))).
Proof.
  unfold triple_le, lex, le_on. cbn beta.
  rewrite !Z.add_0_l, !(Z.add_comm 1), !(Z.add_comm 2). reflexivity.
Qed.

Lemma same_triple_iff s x y :
  same_triple s x y = true
  <-> s x = s y /\ s (x + 1) = s (y + 1) /\ s (x + 2) = s (y + 2).
Proof.
  unfold same_triple. rewrite !andb_true_iff, !Z.eqb_eq. tauto.
Qed.

Lemma differs_same s x p : differs s x p = negb (same_triple s p x).
Proof.
  unfold differs, same_triple.
  rewrite (Z.eqb_sym (s x)), (Z.eqb_sym (s (x + 1))),
    (Z.eqb_sym (s (x + 2))).
  destruct (s p =? s x), (s (p + 1) =? s (x + 1)),
    (s (p + 2) =? s (x + 2)); reflexivity.
Qed.

Lemma triple_le_first s x y : triple_le s x y -> s x <= s y.
Proof. rewrite triple_le_iff. lia. Qed.

Lemma named_in_order_trans s p q t :
  named_in_order s p q -> named_in_order s q t -> named_in_order s p t.
Proof.
  unfold named_in_order. rewrite !triple_le_iff, !same_triple_iff.
  intros (H1 & H2 & H3) (H4 & H5 & H6).
  split; [lia|]. split; [lia|]. split.
  - intros He. assert (E1 : snd p = snd q) by lia.
    assert (E2 : snd q = snd t) by lia.
    apply H3 in E1. apply H6 in E2. lia.
  - intros He. assert (E1 : s (fst p) = s (fst q)
                            /\ s (fst p + 1) = s (fst q + 1)
                            /\ s (fst p + 2) = s (fst q + 2)) by lia.
    assert (E2 : s (fst q) = s (fst t)
                 /\ s (fst q + 1) = s (fst t + 1)
                 /\ s (fst q + 2) = s (fst t + 2)) by lia.
    apply H3 in E1. apply H6 in E2. lia.
Qed.

Lemma named_in_order_refl s p : named_in_order s p p.
Proof.
  unfold named_in_order. rewrite triple_le_iff, same_triple_iff.
  split; [lia|]. split; [lia|]. split; intros _; [lia|reflexivity].
Qed.

Lemma name_loop_fold s r rest : forall prev j b,
  snd (name_loop s r prev rest j b)
  = write_names r (name_loop_writes s prev rest j) b.
Proof.
  induction rest as [|x rest IH]; intros prev j b; [reflexivity|].
  cbn [name_loop name_loop_writes]. rewrite IH. reflexivity.
Qed.

Lemma names_fold s r a :
  snd (names s r a) = write_names r (names_writes s a) ∅.
Proof.
  destruct a as [|x rest]; [reflexivity|].
  unfold names, names_writes. rewrite name_loop_fold.
  unfold write_names. cbn [fold_left fst snd].
  rewrite insert_empty. reflexivity.
Qed.

Lemma name_loop_writes_fst s rest : forall prev j,
  map fst (name_loop_writes s prev rest j) = rest.
Proof.
  induction rest as [|x rest IH]; intros prev j; [reflexivity|].
  cbn [name_loop_writes map fst]. rewrite IH. reflexivity.
Qed.

Lemma names_writes_fst s a : map fst (names_writes s a) = a.
Proof.
  destruct a as [|x rest]; [reflexivity|].
  unfold names_writes. cbn [map fst]. rewrite name_loop_writes_fst.
  reflexivity.
Qed.

Lemma name_loop_step_bound s r rest : forall prev j b,
  j <= fst (name_loop s r prev rest j b) <= j + Z.of_nat (length rest).
Proof.
  induction rest as [|x rest IH]; intros prev j b.
  - cbn. lia.
  - cbn [name_loop length].
    set (j' := if differs s x prev then j + 1 else j).
    assert (Hj : j <= j' <= j + 1)
      by (unfold j'; destruct (differs s x prev); lia).
    specialize (IH x j' (<[slot r x := j']> b)). lia.
Qed.

(** The names written are between the counter at the start and at the
    end. *)
Lemma name_loop_writes_bounds s r rest : forall prev j b w,
  In w (name_loop_writes s prev rest j) ->
  j <= snd w <= fst (name_loop s r prev rest j b).
Proof.
  induction rest as [|x rest IH]; intros prev j b w Hw; [destruct Hw|].
  cbn [name_loop name_loop_writes] in *.
  set (j' := if differs s x prev then j + 1 else j) in *.
  assert (Hj : j <= j') by (unfold j'; destruct (differs s x prev); lia).
  pose proof (name_loop_step_bound s r rest x j' (<[slot r x := j']> b))
    as Hb.
  destruct Hw as [<-|Hw].
  - cbn [snd]. lia.
  - specialize (IH x j' (<[slot r x := j']> b) w Hw). lia.
Qed.

Lemma names_writes_bounds s r a w :
  In w (names_writes s a) -> 0 <= snd w <= fst (names s r a).
Proof.
  destruct a as [|x rest]; intros Hw; [destruct Hw|].
  unfold names, names_writes in *. destruct Hw as [<-|Hw].
  - cbn [snd]. pose proof (name_loop_step_bound s r rest x 0
                             {[slot r x := 0]}). lia.
  - eapply name_loop_writes_bounds. exact Hw.
Qed.

Lemma names_last_bound s r a :
  0 <= fst (names s r a) <= Z.max 0 (Z.of_nat (length a) - 1).
Proof.
  destruct a as [|x rest]; [cbn; lia|].
  unfold names. pose proof (name_loop_step_bound s r rest x 0
                              {[slot r x := 0]}).
  cbn [length]. lia.
Qed.

(** Every value from the first name to the last one is written: the
    counter moves by steps of one. *)
Lemma name_loop_writes_dense s r rest : forall prev j b k,
  j < k <= fst (name_loop s r prev rest j b) ->
  exists x, In (x, k) (name_loop_writes s prev rest j).
Proof.
  induction rest as [|x rest IH]; intros prev j b k Hk.
  - cbn in Hk. lia.
  - cbn [name_loop name_loop_writes] in *.
    set (j' := if differs s x prev then j + 1 else j) in *.
    assert (Hj : j <= j' <= j + 1)
      by (unfold j'; destruct (differs s x prev); lia).
    destruct (Z.eq_dec k j') as [->|Hne].
    + exists x. left. reflexivity.
    + destruct (IH x j' (<[slot r x := j']> b) k) as [y Hy]; [lia|].
      exists y. right. exact Hy.
Qed.

Lemma names_writes_dense s r a k :
  0 <= k <= fst (names s r a) -> a <> [] ->
  exists x, In (x, k) (names_writes s a).
Proof.
  destruct a as [|x rest]; intros Hk Ha; [contradiction|].
  unfold names, names_writes in *.
  destruct (Z.eq_dec k 0) as [->|Hne].
  - exists x. left. reflexivity.
  - destruct (name_loop_writes_dense s r rest x 0 {[slot r x := 0]} k)
      as [y Hy]; [lia|].
    exists y. right. exact Hy.
Qed.

Lemma write_names_cons r w ws b :
  write_names r (w :: ws) b = write_names r ws (<[slot r (fst w) := snd w]> b).
Proof. reflexivity. Qed.

(** The table after writes to different positions holds each of them. *)
Lemma write_names_other r ws : forall b k,
  ~ In k (map (fun w => slot r (fst w)) ws) ->
  write_names r ws b !! k = b !! k.
Proof.
  induction ws as [|w ws IH]; intros b k Hk; [reflexivity|].
  rewrite write_names_cons.
  rewrite IH by (intros H; apply Hk; right; exact H).
  apply lookup_insert_ne. intros E. apply Hk. left. exact E.
Qed.

Lemma write_names_lookup r ws : forall b w,
  List.NoDup (map (fun w => slot r (fst w)) ws) -> In w ws ->
  write_names r ws b !! slot r (fst w) = Some (snd w).
Proof.
  induction ws as [|w0 ws IH]; intros b w Hnd Hw; [destruct Hw|].
  cbn [map] in Hnd. apply List.NoDup_cons_iff in Hnd.
  destruct Hnd as [Hn Hnd].
  rewrite write_names_cons.
  destruct Hw as [<-|Hw].
  - rewrite write_names_other by exact Hn. apply lookup_insert_eq.
  - apply IH; assumption.
Qed.

Lemma write_names_origin r ws : forall b k n,
  write_names r ws b !! k = Some n ->
  b !! k = Some n \/ exists w, In w ws /\ slot r (fst w) = k /\ snd w = n.
Proof.
  induction ws as [|w0 ws IH]; intros b k n H; [left; exact H|].
  rewrite write_names_cons in H.
  apply IH in H. destruct H as [H|(w & Hw & Hk & Hn)].
  - destruct (decide (slot r (fst w0) = k)) as [E|E].
    + rewrite <- E, lookup_insert_eq in H. apply Some_inv in H.
      right. exists w0. split; [left; reflexivity|]. split; assumption.
    + rewrite lookup_insert_ne in H by exact E. left. exact H.
  - right. exists w. split; [right; exact Hw|]. split; assumption.
Qed.

(** On a sample in the order of its triplets the names follow the
    triplets. *)
Lemma name_loop_writes_sorted s rest : forall prev j,
  StronglySorted (triple_le s) (prev :: rest) ->
  StronglySorted (named_in_order s)
                 ((prev, j) :: name_loop_writes s prev rest j).
Proof.
  induction rest as [|x rest IH]; intros prev j Hs.
  - repeat constructor.
  - cbn [name_loop_writes].
    set (j' := if differs s x prev then j + 1 else j).
    apply StronglySorted_inv in Hs. destruct Hs as [Hs Hp].
    specialize (IH x j' Hs).
    assert (Hq : named_in_order s (prev, j) (x, j')).
    { unfold named_in_order. cbn [fst snd].
      split; [apply (List.Forall_inv Hp)|].
      unfold j'. rewrite differs_same.
      destruct (same_triple s prev x); cbn [negb].
      - split; [lia|]. split; intros _; reflexivity.
      - split; [lia|]. split; [lia|intros H; discriminate H]. }
    constructor; [exact IH|].
    constructor; [exact Hq|].
    apply StronglySorted_inv in IH. destruct IH as [_ IH].
    eapply List.Forall_impl; [|exact IH].
    intros w Hw. eapply named_in_order_trans; [exact Hq|exact Hw].
Qed.

Lemma names_writes_sorted s a :
  StronglySorted (triple_le s) a ->
  StronglySorted (named_in_order s) (names_writes s a).
Proof.
  destruct a as [|x rest]; intros Hs; [constructor|].
  apply name_loop_writes_sorted. exact Hs.
Qed.

Lemma StronglySorted_In2 {A : Type} (R : A -> A -> Prop) l p q :
  StronglySorted R l -> In p l -> In q l -> p = q \/ R p q \/ R q p.
Proof.
  induction 1 as [|x l Hs IH Hx]; intros Hp Hq; [destruct Hp|].
  rewrite List.Forall_forall in Hx.
  destruct Hp as [<-|Hp], Hq as [<-|Hq].
  - left. reflexivity.
  - right. left. apply Hx, Hq.
  - right. right. apply Hx, Hp.
  - apply IH; assumption.
Qed.

(** The names of two positions of a sample [a] that is in the order of its
    triplets and has different slots for different positions. *)
Lemma names_order s r a x y :
  StronglySorted (triple_le s) a ->
  List.NoDup (map (slot r) a) -> In x a -> In y a ->
  exists nx ny,
    snd (names s r a) !! slot r x = Some nx
    /\ snd (names s r a) !! slot r y = Some ny
    /\ 0 <= nx <= fst (names s r a)
    /\ (nx = ny <-> same_triple s x y = true)
    /\ (nx <= ny <-> triple_le s x y).
Proof.
  intros Hs Hnd Hx Hy.
  pose proof (names_writes_sorted s a Hs) as Hw.
  assert (Hnd' : List.NoDup (map (fun w => slot r (fst w))
                               (names_writes s a))).
  { rewrite <- (map_map fst (slot r)), names_writes_fst. exact Hnd. }
  assert (Hin : forall z, In z a -> exists n, In (z, n) (names_writes s a)).
  { intros z Hz. rewrite <- (names_writes_fst s a) in Hz.
    apply in_map_iff in Hz. destruct Hz as ([z' n] & E & Hz).
    cbn [fst] in E. subst z'. exists n. exact Hz. }
  destruct (Hin x Hx) as [nx Hnx]. destruct (Hin y Hy) as [ny Hny].
  exists nx, ny. rewrite names_fold.
  split; [apply (write_names_lookup r _ ∅ (x, nx) Hnd' Hnx)|].
  split; [apply (write_names_lookup r _ ∅ (y, ny) Hnd' Hny)|].
  split; [apply (names_writes_bounds s r a (x, nx) Hnx)|].
  destruct (StronglySorted_In2 _ _ _ _ Hw Hnx Hny) as [E|[H|H]].
  - injection E as <- <-. rewrite triple_le_iff, same_triple_iff.
    split; split; intros _; try lia; repeat split; reflexivity.
  - unfold named_in_order in H. cbn [fst snd] in H.
    destruct H as (H1 & H2 & H3). split; [exact H3|].
    split; intros _; assumption.
  - unfold named_in_order in H. cbn [fst snd] in H.
    destruct H as (H1 & H2 & H3).
    rewrite triple_le_iff, same_triple_iff in *.
    destruct H3 as [H3a H3b]. split; split; intros E.
    + assert (E' : ny = nx) by lia. specialize (H3a E'). lia.
    + assert (E' : ny = nx) by (apply H3b; lia). lia.
    + assert (E' : ny = nx) by lia. specialize (H3a E'). lia.
    + assert (E' : ny = nx) by (apply H3b; lia). lia.
Qed.

(** Every entry of the table of names is a name between 0 and the last
    one. *)
Lemma names_values s r a k n :
  snd (names s r a) !! k = Some n -> 0 <= n <= fst (names s r a).
Proof.
  rewrite names_fold. intros H. apply write_names_origin in H.
  destruct H as [H|(w & Hw & _ & <-)].
  - rewrite lookup_empty in H. discriminate.
  - apply names_writes_bounds. exact Hw.
Qed.

Lemma names_keys s r a k :
  is_Some (snd (names s r a) !! k) -> exists x, In x a /\ slot r x = k.
Proof.
  rewrite names_fold. intros [n H]. apply write_names_origin in H.
  destruct H as [H|(w & Hw & Hk & _)].
  - rewrite lookup_empty in H. discriminate.
  - exists (fst w). split; [|exact Hk].
    rewrite <- (names_writes_fst s a). apply List.in_map. exact Hw.
Qed.

(** ** The result is in the order of the first symbols *)

Lemma StronglySorted_map {A B : Type} (R : A -> A -> Prop)
    (R' : B -> B -> Prop) (f : A -> B) l :
  (forall x y, In x l -> In y l -> R x y -> R' (f x) (f y)) ->
  StronglySorted R l -> StronglySorted R' (map f l).
Proof.
  intros H Hs. induction Hs as [|x l Hs IH Hx]; [constructor|].
  cbn [map]. constructor.
  - apply IH. intros y z Hy Hz. apply H; right; assumption.
  - rewrite List.Forall_forall in *. intros y Hy.
    apply in_map_iff in Hy. destruct Hy as (z & <- & Hz).
    apply H; [left; reflexivity|right; exact Hz|apply Hx, Hz].
Qed.

Lemma sample_sorted s len :
  0 <= len <= max_length ->
  (forall i, 0 <= i -> 0 <= s i < 2 ^ 32) ->
  StronglySorted (triple_le s)
                 (triplet_sort s (samples (Z.to_nat (2 * len / 3)))).
Proof.
  intros Hlen Hs. apply triplet_sort_stable. intros x Hx.
  apply (In_samples len Hlen) in Hx.
  repeat split; apply Hs; lia.
Qed.

Lemma sample_slots len a :
  0 <= len <= max_length ->
  Permutation (samples (Z.to_nat (2 * len / 3))) a ->
  List.NoDup (map (slot ((2 * len / 3 + 1) / 2)) a).
Proof.
  intros Hlen Hp.
  assert (Hin : forall x, In x a -> 0 < x < len /\ x mod 3 <> 0).
  { intros x Hx. apply (In_samples len Hlen).
    eapply Permutation_in; [symmetry; exact Hp|exact Hx]. }
  apply NoDup_map_NoDup_ForallPairs.
  - intros x y Hx Hy E. apply Hin in Hx, Hy.
    apply (slot_inj len x y); tauto.
  - eapply Permutation.Permutation_NoDup; [exact Hp|].
    apply (NoDup_samples len Hlen).
Qed.

Lemma merge_filter_l s lookup (p : Z -> bool) a : forall b,
  (forall x, In x a -> p x = true) -> (forall y, In y b -> p y = false) ->
  List.filter p (merge s lookup a b) = a.
Proof.
  induction a as [|x a IHa]; intros b Ha Hb.
  - rewrite merge_nil_l. apply filter_none. exact Hb.
  - induction b as [|y b IHb].
    + rewrite merge_nil_r. apply filter_all. exact Ha.
    + rewrite merge_cons.
      destruct (num_lt (merge_tmp s lookup x y) (Int 0)); cbn [List.filter].
      * rewrite (Ha x) by (left; reflexivity). f_equal.
        apply IHa; [|exact Hb]. intros z Hz. apply Ha. right. exact Hz.
      * rewrite (Hb y) by (left; reflexivity).
        apply IHb. intros z Hz. apply Hb. right. exact Hz.
Qed.

Lemma finish_sorted_first s len a :
  0 <= len <= max_length ->
  (forall i, 0 <= i -> 0 <= s i < 2 ^ 32) ->
  Permutation (samples (Z.to_nat (2 * len / 3))) a ->
  StronglySorted (triple_le s) a ->
  StronglySorted (le_on s) (finish s (Int len) a)
  /\ List.filter in_sample (finish s (Int len) a) = a.
Proof.
  intros Hlen Hs Hp Ha.
  assert (Hin : forall y, In y a <-> 0 < y < len /\ y mod 3 <> 0).
  { intros y. rewrite <- (In_samples len Hlen). split; intros Hy.
    - eapply Permutation_in; [symmetry; exact Hp|exact Hy].
    - eapply Permutation_in; [exact Hp|exact Hy]. }
  assert (Hb : forall x, In x (bsort s (init_b (Int len) a)) ->
                         0 <= x < len /\ x mod 3 = 0).
  { intros x Hx. apply (In_init_b len Hlen a x Hin).
    eapply Permutation_in; [symmetry; apply bsort_perm|exact Hx]. }
  unfold finish. split.
  - apply merge_sorted_first.
    + eapply StronglySorted_weaken; [|exact Ha].
      intros x y _ _. apply triple_le_first.
    + apply bsort_stable. intros x Hx. apply Hs.
      apply (In_init_b len Hlen a x Hin) in Hx. lia.
  - apply merge_filter_l.
    + intros x Hx. apply Hin in Hx. unfold in_sample.
      destruct (Z.eqb_spec (x mod 3) 0); [lia|reflexivity].
    + intros y Hy. apply Hb in Hy. unfold in_sample.
      destruct (Z.eqb_spec (y mod 3) 0); [reflexivity|lia].
Qed.

(** The accessor of the nested call answers with names below its length. *)
Lemma reduced_range s r a alen i :
  fst (names s r a) < alen - 1 -> alen <= 2 ^ 32 ->
  0 <= reduced (Int alen) (snd (names s r a)) i < 2 ^ 32.
Proof.
  intros Hj Ha. unfold reduced. cbn [num_ge].
  destruct (alen <=? i); [lia|].
  destruct (snd (names s r a) !! i) as [n|] eqn:E; cbn [default from_option id]; [|lia].
  apply names_values in E. lia.
Qed.

Lemma _suffixArray_first fuel :
  forall s (n : nat) res,
    Z.of_nat n <= max_length ->
    (forall i, 0 <= i -> 0 <= s i < 2 ^ 32) ->
    _suffixArray fuel s (Int (Z.of_nat n)) = Some res ->
    StronglySorted (le_on s) res
    /\ StronglySorted (triple_le s) (List.filter in_sample res).
Proof.
  induction fuel as [|fuel IH]; intros s n res Hb Hs Hres; [discriminate|].
  set (len := Z.of_nat n) in *.
  assert (Hlen : 0 <= len <= max_length) by lia.
  pose proof (alen_range len Hlen) as Ha.
  pose proof (r_model len Hlen) as Hr. cbv zeta in Hr.
  cbn [num_add num_ToInt32] in Hr.
  set (m := Z.to_nat (2 * len / 3)).
  assert (Hm : 2 * len / 3 = Z.of_nat m) by (unfold m; lia).
  rewrite _suffixArray_step in Hres. cbv zeta in Hres.
  rewrite Hr in Hres. clear Hr.
  rewrite Hm, init_a_fuel in Hres by (rewrite <- Hm, max_int_value; lia).
  destruct (m <? S fuel)%nat; [|discriminate].
  pose proof (sample_sorted s len Hlen Hs) as Hsort. fold m in Hsort.
  pose proof (triplet_sort_perm s (samples m)) as Hperm.
  set (a3 := triplet_sort s (samples m)) in *.
  set (r := (Z.of_nat m + 1) / 2) in *.
  assert (Hfin : forall a, Permutation (samples m) a ->
            StronglySorted (triple_le s) a ->
            StronglySorted (le_on s) (finish s (Int len) a)
            /\ StronglySorted (triple_le s)
                 (List.filter in_sample (finish s (Int len) a))).
  { intros a Hp Hsa.
    destruct (finish_sorted_first s len a Hlen Hs Hp Hsa) as [H1 H2].
    split; [exact H1|]. rewrite H2. exact Hsa. }
  destruct (fst _ <? _) eqn:Hj.
  - apply Z.ltb_lt in Hj.
    destruct (_suffixArray fuel _ _) as [rec|] eqn:Hrec; [|discriminate].
    apply Some_inv in Hres. subst res.
    assert (Hmb : Z.of_nat m <= max_length)
      by (unfold max_length in *; lia).
    pose proof (_suffixArray_perm fuel _ m rec Hmb Hrec) as Hprec.
    assert (Hsrec : StronglySorted
              (le_on (reduced (Int (Z.of_nat m)) (snd (names s r a3)))) rec).
    { apply (IH _ m rec Hmb); [|exact Hrec].
      intros i _. apply reduced_range; [exact Hj|lia]. }
    pose proof (unslot_samples len Hlen) as Hu. cbv zeta in Hu.
    rewrite Hm in Hu. fold r in Hu. rewrite Nat2Z.id in Hu.
    apply Hfin.
    + etransitivity; [exact Hu|]. apply Permutation_map. exact Hprec.
    + pose proof (sample_slots len a3 Hlen Hperm) as Hnd.
      rewrite Hm in Hnd. fold r in Hnd.
      eapply StronglySorted_map; [|exact Hsrec].
      intros i k Hi Hk Hik.
      assert (Hrange : forall z, In z rec -> 0 <= z < Z.of_nat m).
      { intros z Hz. apply In_indices.
        eapply Permutation_in; [symmetry; exact Hprec|exact Hz]. }
      assert (Hsamp : forall z, In z rec -> In (unslot r z) a3).
      { intros z Hz. eapply Permutation_in; [exact Hperm|].
        eapply Permutation_in; [symmetry; exact Hu|].
        apply List.in_map. apply In_indices. apply Hrange, Hz. }
      destruct (names_order s r a3 (unslot r i) (unslot r k) Hsort Hnd
                  (Hsamp i Hi) (Hsamp k Hk))
        as (ni & nk & Hni & Hnk & _ & _ & Hord).
      pose proof (slot_unslot len i) as Si.
      rewrite Hm in Si. fold r in Si.
      pose proof (slot_unslot len k) as Sk.
      rewrite Hm in Sk. fold r in Sk.
      rewrite Si in Hni by (apply Hrange, Hi).
      rewrite Sk in Hnk by (apply Hrange, Hk).
      unfold le_on, reduced in Hik. cbn [num_ge] in Hik.
      pose proof (Hrange i Hi) as Ri. pose proof (Hrange k Hk) as Rk.
      destruct (Z.leb_spec (Z.of_nat m) i); [lia|].
      destruct (Z.leb_spec (Z.of_nat m) k); [lia|].
      rewrite Hni, Hnk in Hik. cbn [default from_option id] in Hik.
      apply Hord, Hik.
  - apply Some_inv in Hres. subst res. apply Hfin; [exact Hperm|exact Hsort].
Qed.

(** ** The symbols an accessor is never asked for do not matter *)

Section Ext.

Variables s s' : Z -> Z.
Hypothesis same : forall i, s i = s' i.

Lemma bsort_ext {A : Type} (key key' : A -> Z) a :
  (forall x, key x = key' x) -> bsort key a = bsort key' a.
Proof.
  intros H. unfold bsort.
  assert (Hmax : max_key key a = max_key key' a).
  { unfold max_key. induction a as [|x a IH]; [reflexivity|].
    cbn [fold_right]. rewrite IH, H. reflexivity. }
  rewrite Hmax. apply passes_digits. intros d x. unfold digit.
  rewrite H. reflexivity.
Qed.

Lemma triplet_sort_ext a : triplet_sort s a = triplet_sort s' a.
Proof.
  unfold triplet_sort. cbn [fold_left].
  rewrite (bsort_ext (fun j => s (2 + j)) (fun j => s' (2 + j)))
    by (intros; apply same).
  rewrite (bsort_ext (fun j => s (1 + j)) (fun j => s' (1 + j)))
    by (intros; apply same).
  rewrite (bsort_ext (fun j => s (0 + j)) (fun j => s' (0 + j)))
    by (intros; apply same).
  reflexivity.
Qed.

Lemma differs_ext x p : differs s x p = differs s' x p.
Proof. unfold differs. rewrite !same. reflexivity. Qed.

Lemma name_loop_ext r rest : forall prev j b,
  name_loop s r prev rest j b = name_loop s' r prev rest j b.
Proof.
  induction rest as [|x rest IH]; intros prev j b; [reflexivity|].
  cbn [name_loop]. rewrite differs_ext. apply IH.
Qed.

Lemma names_ext r a : names s r a = names s' r a.
Proof. destruct a; [reflexivity|]. apply name_loop_ext. Qed.

Lemma merge_tmp_ext lookup x y :
  merge_tmp s lookup x y = merge_tmp s' lookup x y.
Proof. unfold merge_tmp. rewrite !same. reflexivity. Qed.

Lemma merge_ext lookup a : forall b,
  merge s lookup a b = merge s' lookup a b.
Proof.
  induction a as [|x a IHa]; intros b.
  - rewrite !merge_nil_l. reflexivity.
  - induction b as [|y b IHb].
    + rewrite !merge_nil_r. reflexivity.
    + rewrite !merge_cons, merge_tmp_ext, IHa, IHb. reflexivity.
Qed.

Lemma finish_ext len a : finish s len a = finish s' len a.
Proof.
  unfold finish. rewrite (bsort_ext s s') by exact same. apply merge_ext.
Qed.

End Ext.

Lemma _suffixArray_ext fuel : forall s s' len,
  (forall i, s i = s' i) ->
  _suffixArray fuel s len = _suffixArray fuel s' len.
Proof.
  induction fuel as [|fuel IH]; intros s s' len H; [reflexivity|].
  rewrite !_suffixArray_unfold. cbv zeta.
  destruct (init_a (S fuel) (floor_2_3 len)) as [a0|]; [|reflexivity].
  rewrite !bind_Some.
  rewrite (triplet_sort_ext s s' H), (names_ext s s' H).
  destruct (names s' _ _) as [j b].
  destruct (num_lt _ _).
  - destruct (_suffixArray fuel _ _) as [rec|]; [|reflexivity].
    cbn [fmap option_fmap option_map]. rewrite !bind_Some.
    rewrite (finish_ext s s' H). reflexivity.
  - rewrite !bind_Some. rewrite (finish_ext s s' H). reflexivity.
Qed.

Lemma guarded_ext f g len :
  (forall i, i < len -> f i = g i) ->
  forall i, guarded f (Int len) i = guarded g (Int len) i.
Proof.
  intros H i. unfold guarded. cbn [num_ge].
  destruct (Z.leb_spec len i); [reflexivity|]. apply H. lia.
Qed.

Lemma charCodeAt_firstn cs (k : nat) i :
  i < Z.of_nat k -> charCodeAt (firstn k cs) i = charCodeAt cs i.
Proof.
  intros Hi. unfold charCodeAt. destruct (Z.ltb_spec i 0); [reflexivity|].
  assert (Hk : (Z.to_nat i < k)%nat) by lia.
  revert Hk. generalize (Z.to_nat i). clear.
  revert cs. induction k as [|k IH]; intros cs j Hj; [lia|].
  destruct cs as [|c cs]; [destruct j; reflexivity|].
  destruct j as [|j]; [reflexivity|]. cbn [firstn nth]. apply IH. lia.
Qed.

(** ** [bsort] *)

(** Whatever the keys are, [bsort] is the stable sort by the low [bits] bits
    of the key, where [bits] is the 8, 16, 24 or 32 that the largest key
    selects: negative keys and keys of 2^32 and more are ordered by these
    bits alone. *)
Theorem bsort_orders_low_bits {A : Type} (key : A -> Z) (a : list A) :
  In (bits_of (max_key key a)) [8; 16; 24; 32]
  /\ stable_sort_of (fun x => key x mod 2 ^ bits_of (max_key key a)) a
                    (bsort key a).
Proof.
  split.
  - destruct (bits_of_values (max_key key a)) as (m & -> & Hm).
    destruct Hm as [-> | [-> | [-> | ->]]]; cbn; tauto.
  - apply (bsort_low key a).
Qed.

(** For keys in [0, 2^32) the result of [bsort] is the one stable sort of its
    argument: it is equal to every list that is a stable sort of the
    argument by the key, an argument that is in order comes back unchanged,
    and sorting twice is sorting once. *)
Theorem bsort_is_the_stable_sort {A : Type} (key : A -> Z) (a : list A) :
  (forall x, In x a -> 0 <= key x < 2 ^ 32) ->
  (forall l, stable_sort_of key a l -> bsort key a = l)
  /\ (StronglySorted (le_on key) a -> bsort key a = a)
  /\ bsort key (bsort key a) = bsort key a.
Proof.
  intros Hk. pose proof (bsort_stable key a Hk) as Hb.
  assert (Hu : forall l, stable_sort_of key a l -> bsort key a = l).
  { intros l Hl. apply (stable_sort_unique key a); assumption. }
  split; [exact Hu|]. split.
  - intros Hs. apply Hu, stable_sort_sorted, Hs.
  - destruct Hb as (Hp & Hs & _).
    apply (stable_sort_unique key (bsort key a)).
    + apply bsort_stable. intros x Hx. apply Hk.
      eapply Permutation_in; [symmetry; exact Hp|exact Hx].
    + apply stable_sort_sorted, Hs.
Qed.

Lemma bsort_is_the_stable_sort_witness :
  (forall x, In x [3; 1; 2] -> 0 <= (fun z => z) x < 2 ^ 32)
  /\ bsort (fun z => z) (bsort (fun z => z) [3; 1; 2])
     = bsort (fun z => z) [3; 1; 2].
Proof.
  assert (H : forall x, In x [3; 1; 2] -> 0 <= (fun z => z) x < 2 ^ 32).
  { intros x Hx. simpl in Hx.
    repeat (destruct Hx as [<-|Hx];
            [vm_compute; split; [discriminate|reflexivity]|]).
    destruct Hx. }
  split; [exact H|].
  exact (proj2 (proj2 (bsort_is_the_stable_sort (fun z => z) [3; 1; 2] H))).
Defined.

(** [bsort(a)] without a key takes [identity]: an array of integers in
    [0, 2^32) comes back in ascending order, with the same elements. *)
Theorem bsort_without_key_sorts (a : list Z) :
  (forall x, In x a -> 0 <= x < 2 ^ 32) ->
  Permutation a (bsort_with a None)
  /\ StronglySorted Z.le (bsort_with a None).
Proof.
  intros Ha. unfold bsort_with. cbn [default from_option].
  destruct (bsort_stable identity a Ha) as (Hp & Hs & _).
  split; [exact Hp|exact Hs].
Qed.

Lemma bsort_without_key_sorts_witness :
  (forall x, In x [3; 1; 2] -> 0 <= x < 2 ^ 32)
  /\ Permutation [3; 1; 2] (bsort_with [3; 1; 2] None)
  /\ StronglySorted Z.le (bsort_with [3; 1; 2] None).
Proof.
  assert (H : forall x, In x [3; 1; 2] -> 0 <= x < 2 ^ 32).
  { intros x Hx. simpl in Hx.
    repeat (destruct Hx as [<-|Hx];
            [vm_compute; split; [discriminate|reflexivity]|]).
    destruct Hx. }
  split; [exact H|]. apply (bsort_without_key_sorts [3; 1; 2] H).
Defined.

(** ** The phases of [_suffixArray] *)

(** The first loop: up to [max_length] it leaves in [a] the positions of
    [1 .. len-1] that are no multiples of 3, each once and in ascending
    order; there are [alen] of them, and [r] of them are 1 modulo 3, as the
    comments at the declarations of [alen] and [r] say. *)
Theorem sample_is_ascending (fuel : nat) (len : Z) :
  0 <= len <= max_length -> (Z.to_nat (2 * len / 3) < fuel)%nat ->
  exists a,
    init_a fuel (floor_2_3 (Int len)) = Some a
    /\ StronglySorted Z.lt a
    /\ (forall x, In x a <-> 0 < x < len /\ x mod 3 <> 0)
    /\ Z.of_nat (length a) = 2 * len / 3
    /\ Z.of_nat (length (List.filter (fun x => Z.rem x 3 =? 1) a))
       = sar (num_ToInt32 (num_add (floor_2_3 (Int len)) (Int 1))) 1.
Proof.
  intros Hlen Hf. pose proof (alen_range len Hlen) as Ha.
  pose proof (r_model len Hlen) as Hr. cbv zeta in Hr.
  set (m := Z.to_nat (2 * len / 3)) in *.
  assert (Hm : 2 * len / 3 = Z.of_nat m) by (unfold m; lia).
  exists (samples m). cbn [floor_2_3]. rewrite Hr.
  split; [rewrite Hm; apply init_a_samples;
          [rewrite <- Hm, max_int_value; lia|exact Hf]|].
  split; [apply samples_ascending; lia|].
  split; [intros x; apply (In_samples len Hlen)|].
  split; [rewrite length_samples; lia|].
  apply (ones_of_sample len Hlen).
  - apply (NoDup_samples len Hlen).
  - intros y. apply (In_samples len Hlen).
Qed.

Lemma sample_is_ascending_witness :
  0 <= 7 <= max_length /\ (Z.to_nat (2 * 7 / 3) < 5)%nat
  /\ exists a,
       init_a 5 (floor_2_3 (Int 7)) = Some a
       /\ StronglySorted Z.lt a
       /\ (forall x, In x a <-> 0 < x < 7 /\ x mod 3 <> 0)
       /\ Z.of_nat (length a) = 2 * 7 / 3
       /\ Z.of_nat (length (List.filter (fun x => Z.rem x 3 =? 1) a))
          = sar (num_ToInt32 (num_add (floor_2_3 (Int 7)) (Int 1))) 1.
Proof.
  assert (H1 : 0 <= 7 <= max_length)
    by (vm_compute; split; discriminate).
  assert (H2 : (Z.to_nat (2 * 7 / 3) < 5)%nat) by (vm_compute; lia).
  split; [exact H1|]. split; [exact H2|].
  apply (sample_is_ascending 5 7 H1 H2).
Defined.

(** The position [slot] of a name and the translation [unslot] of a nested
    result are inverse to each other: up to [max_length], [unslot] maps
    [0 .. alen-1] one to one onto the sample positions of [s], the first [r]
    of them onto the positions that are 1 modulo 3, and [slot] maps back. *)
Theorem slot_unslot_inverse (len : Z) :
  0 <= len <= max_length ->
  let alen := 2 * len / 3 in
  let r := sar (num_ToInt32 (num_add (Int alen) (Int 1))) 1 in
  (forall i, 0 <= i < alen ->
     slot r (unslot r i) = i
     /\ 0 < unslot r i < len /\ unslot r i mod 3 <> 0
     /\ (i < r <-> unslot r i mod 3 = 1))
  /\ (forall x, 0 < x < len -> x mod 3 <> 0 ->
        unslot r (slot r x) = x /\ 0 <= slot r x < alen).
Proof.
  intros Hlen alen r. pose proof (r_model len Hlen) as Hr. cbv zeta in Hr.
  unfold r, alen. rewrite Hr. split.
  - intros i Hi. split; [apply slot_unslot; exact Hi|].
    apply unslot_range. exact Hi.
  - intros x Hx Hm. apply unslot_slot; assumption.
Qed.

Lemma slot_unslot_inverse_witness :
  0 <= 7 <= max_length
  /\ (forall i, 0 <= i < 4 -> slot 2 (unslot 2 i) = i)
  /\ (forall x, 0 < x < 7 -> x mod 3 <> 0 -> unslot 2 (slot 2 x) = x).
Proof.
  assert (H : 0 <= 7 <= max_length) by (vm_compute; split; discriminate).
  split; [exact H|].
  pose proof (slot_unslot_inverse 7 H) as T. cbv zeta in T.
  destruct T as [T1 T2]. split.
  - intros i Hi. exact (proj1 (T1 i Hi)).
  - intros x Hx Hm. exact (proj1 (T2 x Hx Hm)).
Defined.

(** The naming loop after the three sorts, for symbols in [0, 2^32) and a
    length up to [max_length]: the last name [j] is at least 0; every sample
    position gets a name between 0 and [j], two positions get the same name
    exactly when their triplets are equal, and the order of the names is the
    order of the triplets.  When the sample is not empty ([alen > 0], that
    is [len >= 2]), [j] is at most [alen - 1] and every value from 0 to [j]
    is the name of some position.  On an empty sample ([len <= 1], where
    [alen - 1] is -1) [j] is 0 and the array of names holds no element. *)
Theorem names_follow_triplets (s : Z -> Z) (len : Z) :
  0 <= len <= max_length ->
  (forall i, 0 <= i -> 0 <= s i < 2 ^ 32) ->
  let alen := 2 * len / 3 in
  let r := sar (num_ToInt32 (num_add (Int alen) (Int 1))) 1 in
  let nb := names s r (triplet_sort s (samples (Z.to_nat alen))) in
  0 <= fst nb
  /\ (0 < alen -> fst nb <= alen - 1)
  /\ (alen = 0 -> fst nb = 0 /\ snd nb = ∅)
  /\ (forall x y,
        0 < x < len -> x mod 3 <> 0 -> 0 < y < len -> y mod 3 <> 0 ->
        exists nx ny,
          snd nb !! slot r x = Some nx /\ snd nb !! slot r y = Some ny
          /\ 0 <= nx <= fst nb
          /\ (nx = ny <-> same_triple s x y = true)
          /\ (nx <= ny <-> triple_le s x y))
  /\ (forall k, 0 <= k <= fst nb -> 0 < alen ->
        exists x, 0 < x < len /\ x mod 3 <> 0
                  /\ snd nb !! slot r x = Some k).
Proof.
  intros Hlen Hs alen r nb.
  pose proof (alen_range len Hlen) as Ha.
  pose proof (r_model len Hlen) as Hr. cbv zeta in Hr.
  pose proof (sample_sorted s len Hlen Hs) as Hsort.
  pose proof (triplet_sort_perm s (samples (Z.to_nat (2 * len / 3))))
    as Hperm.
  pose proof (sample_slots len _ Hlen Hperm) as Hnd.
  assert (Hin : forall x, In x (triplet_sort s (samples (Z.to_nat alen)))
                          <-> 0 < x < len /\ x mod 3 <> 0).
  { intros x. rewrite <- (In_samples len Hlen). split; intros Hx.
    - eapply Permutation_in; [symmetry; exact Hperm|exact Hx].
    - eapply Permutation_in; [exact Hperm|exact Hx]. }
  unfold nb, r, alen in *. rewrite Hr in *. clear nb r Hr.
  set (r := (2 * len / 3 + 1) / 2) in *.
  set (a3 := triplet_sort s (samples (Z.to_nat (2 * len / 3)))) in *.
  assert (Hl3 : Z.of_nat (length a3) = 2 * len / 3).
  { pose proof (Permutation_length Hperm) as Hlen3.
    rewrite length_samples in Hlen3. fold a3 in Hlen3. lia. }
  pose proof (names_last_bound s r a3) as Hl.
  split; [lia|]. split; [intros Hpos; lia|]. split; [|split].
  - intros H0. rewrite H0 in Hl3. destruct a3 as [|x a3'].
    + split; reflexivity.
    + cbn [length] in Hl3. lia.
  - intros x y Hx Hxm Hy Hym.
    apply (names_order s r a3 x y Hsort Hnd);
      [apply (proj2 (Hin x))|apply (proj2 (Hin y))]; split; assumption.
  - intros k Hk Hpos.
    assert (Hne : a3 <> []).
    { intros E. pose proof (Permutation_length Hperm) as Hlen3.
      rewrite length_samples in Hlen3. fold a3 in Hlen3.
      rewrite E in Hlen3. cbn [length] in Hlen3. lia. }
    destruct (names_writes_dense s r a3 k Hk Hne) as [x Hx].
    assert (Hxa : In x a3).
    { rewrite <- (names_writes_fst s a3).
      apply (List.in_map fst _ (x, k)). exact Hx. }
    exists x. destruct (proj1 (Hin x) Hxa) as [H1 H2].
    split; [exact H1|]. split; [exact H2|].
    rewrite names_fold.
    apply (write_names_lookup r (names_writes s a3) ∅ (x, k)); [|exact Hx].
    rewrite <- (map_map fst (slot r)), names_writes_fst. exact Hnd.
Qed.

Lemma names_follow_triplets_witness :
  0 <= 7 <= max_length
  /\ (forall i, 0 <= i -> 0 <= (fun _ => 1) i < 2 ^ 32)
  /\ 0 <= fst (names (fun _ => 1) 2 (triplet_sort (fun _ => 1) (samples 4)))
     <= 3.
Proof.
  assert (H1 : 0 <= 7 <= max_length) by (vm_compute; split; discriminate).
  assert (H2 : forall i : Z, 0 <= i -> 0 <= (fun _ : Z => 1) i < 2 ^ 32).
  { intros i _. vm_compute. split; [discriminate|reflexivity]. }
  split; [exact H1|]. split; [exact H2|].
  destruct (names_follow_triplets (fun _ => 1) 7 H1 H2) as (T0 & T1 & _).
  split; [exact T0|exact (T1 eq_refl)].
Defined.

(** The other third: from a sample [a] in any order, and up to
    [max_length], the array [b] built for the merge holds exactly the
    multiples of 3 below [len], each once; there are [len - alen] of them,
    and [a] and [b] together hold every position of [0 .. len-1] once. *)
Theorem rest_is_the_multiples_of_three (len : Z) (a : list Z) :
  0 <= len <= max_length ->
  Permutation (samples (Z.to_nat (2 * len / 3))) a ->
  List.NoDup (init_b (Int len) a)
  /\ (forall x, In x (init_b (Int len) a) <-> 0 <= x < len /\ x mod 3 = 0)
  /\ Z.of_nat (length (init_b (Int len) a)) = len - 2 * len / 3
  /\ Permutation (indices (Z.to_nat len)) (a ++ init_b (Int len) a).
Proof.
  intros Hlen Hp.
  assert (Hin : forall y, In y a <-> 0 < y < len /\ y mod 3 <> 0).
  { intros y. rewrite <- (In_samples len Hlen). split; intros Hy.
    - eapply Permutation_in; [symmetry; exact Hp|exact Hy].
    - eapply Permutation_in; [exact Hp|exact Hy]. }
  assert (Hnd : List.NoDup a).
  { eapply Permutation.Permutation_NoDup; [exact Hp|].
    apply (NoDup_samples len Hlen). }
  pose proof (sample_and_rest len Hlen a Hp) as Hall.
  split; [apply (NoDup_init_b len Hlen a Hnd Hin)|].
  split; [intros x; apply (In_init_b len Hlen a x Hin)|].
  split; [|exact Hall].
  pose proof (Permutation_length Hall) as Hl.
  pose proof (Permutation_length Hp) as Hla.
  rewrite length_indices, length_app in Hl. rewrite length_samples in Hla.
  pose proof (alen_range len Hlen). lia.
Qed.

Lemma rest_is_the_multiples_of_three_witness :
  0 <= 7 <= max_length
  /\ Permutation (samples (Z.to_nat (2 * 7 / 3))) [5; 1; 4; 2]
  /\ forall x, In x (init_b (Int 7) [5; 1; 4; 2]) <-> 0 <= x < 7 /\ x mod 3 = 0.
Proof.
  assert (H1 : 0 <= 7 <= max_length) by (vm_compute; split; discriminate).
  assert (H2 : Permutation (samples (Z.to_nat (2 * 7 / 3))) [5; 1; 4; 2]).
  { change (samples (Z.to_nat (2 * 7 / 3))) with [1; 2; 4; 5].
    apply (perm_trans (l' := [1; 5; 4; 2])).
    - apply perm_skip. apply (perm_trans (l' := [2; 5; 4])).
      + apply perm_skip, perm_swap.
      + apply (perm_trans (l' := [5; 2; 4])); [apply perm_swap|].
        apply perm_skip, perm_swap.
    - apply perm_swap. }
  split; [exact H1|]. split; [exact H2|].
  exact (proj1 (proj2 (rest_is_the_multiples_of_three 7 [5; 1; 4; 2] H1 H2))).
Defined.

(** The reverse lookup table of an array without duplicates is its inverse:
    [lookup[x] = i] exactly when [a[i] = x], and [lookup[x]] is undefined for
    every [x] that is not in [a] (for the sample: every multiple of 3 and
    every position at or beyond [len]). *)
Theorem lookup_is_the_inverse (a : list Z) :
  List.NoDup a ->
  (forall x k, build_lookup 0 a !! x = Some k
               <-> 0 <= k /\ a !! Z.to_nat k = Some x)
  /\ (forall x, ~ In x a -> build_lookup 0 a !! x = None).
Proof.
  intros Hnd. split; [apply build_lookup_nth, Hnd|].
  intros x. apply build_lookup_notin.
Qed.

Lemma lookup_is_the_inverse_witness :
  List.NoDup [4; 1; 2] /\ build_lookup 0 [4; 1; 2] !! 3 = None.
Proof.
  assert (H : List.NoDup [4; 1; 2]).
  { repeat constructor; simpl; intros Hx;
      repeat (destruct Hx as [Hx|Hx]; [discriminate Hx|]); exact Hx. }
  split; [exact H|].
  apply (proj2 (lookup_is_the_inverse [4; 1; 2] H)).
  simpl. intros Hx.
  repeat (destruct Hx as [Hx|Hx]; [discriminate Hx|]). exact Hx.
Defined.

(** Whatever the comparisons give (also [NaN]), the merge is an interleaving
    of its two arrays: the result keeps the elements of [a] in the order of
    [a] and those of [b] in the order of [b], and has all of them. *)
Theorem merge_interleaves (s : Z -> Z) (lookup : gmap Z Z) (a b : list Z) :
  sublist a (merge s lookup a b) /\ sublist b (merge s lookup a b)
  /\ length (merge s lookup a b) = (length a + length b)%nat.
Proof.
  destruct (merge_sublist s lookup a b) as [H1 H2].
  split; [exact H1|]. split; [exact H2|].
  rewrite <- (Permutation_length (merge_perm s lookup a b)).
  apply length_app.
Qed.

(** ** The order of the result *)

Lemma accessor_order fuel g (n : nat) :
  Z.of_nat n <= max_length -> (n < fuel)%nat ->
  (forall i, 0 <= i < Z.of_nat n -> 0 <= g i < 2 ^ 32) ->
  exists res,
    _suffixArray fuel (guarded g (Int (Z.of_nat n))) (Int (Z.of_nat n))
    = Some res
    /\ Permutation (indices n) res
    /\ StronglySorted (le_on g) res
    /\ StronglySorted (triple_le (guarded g (Int (Z.of_nat n))))
         (List.filter in_sample res).
Proof.
  intros Hb Hf Hg.
  destruct (_suffixArray_correct fuel (guarded g (Int (Z.of_nat n))) n Hb Hf)
    as (res & Hres & _ & Hp).
  assert (Hs : forall i, 0 <= i ->
                 0 <= guarded g (Int (Z.of_nat n)) i < 2 ^ 32).
  { intros i Hi. unfold guarded. cbn [num_ge].
    destruct (Z.leb_spec (Z.of_nat n) i); [lia|]. apply Hg. lia. }
  destruct (_suffixArray_first fuel _ n res Hb Hs Hres) as [H1 H2].
  exists res. split; [exact Hres|]. split; [exact Hp|]. split; [|exact H2].
  eapply StronglySorted_weaken; [|exact H1].
  intros x y Hx Hy. unfold le_on, guarded. cbn [num_ge].
  assert (Hr : forall z, In z res -> 0 <= z < Z.of_nat n).
  { intros z Hz. apply In_indices.
    eapply Permutation_in; [symmetry; exact Hp|exact Hz]. }
  apply Hr in Hx, Hy.
  destruct (Z.leb_spec (Z.of_nat n) x); [lia|].
  destruct (Z.leb_spec (Z.of_nat n) y); [lia|]. tauto.
Qed.

Lemma charCodeAt_range cs i :
  Forall (fun c => 0 <= c < 2 ^ 32) cs ->
  0 <= i < Z.of_nat (length cs) -> 0 <= charCodeAt cs i < 2 ^ 32.
Proof.
  intros Hcs Hi. unfold charCodeAt. destruct (Z.ltb_spec i 0); [lia|].
  rewrite List.Forall_forall in Hcs. apply Hcs. apply nth_In. lia.
Qed.

(** In spite of the ties that the merge decides wrongly, the result is in
    order as far as the first symbols go: for a length up to [max_length]
    and symbols in [0, 2^32) (in particular for every string) the positions
    come in ascending order of their first symbol, and the positions that
    are no multiples of 3 come in ascending order of their first three
    symbols. *)
Theorem result_follows_first_symbols (fuel : nat) (n : nat) :
  Z.of_nat n <= max_length -> (n < fuel)%nat ->
  (forall f, (forall i, 0 <= i < Z.of_nat n -> 0 <= f i < 2 ^ 32) ->
     exists res,
       suffixArray fuel (Fn f) (Number (Int (Z.of_nat n))) = Some res
       /\ StronglySorted (le_on f) res
       /\ StronglySorted (triple_le (guarded f (Int (Z.of_nat n))))
            (List.filter in_sample res))
  /\ (forall cs, length cs = n -> Forall (fun c => 0 <= c < 2 ^ 32) cs ->
        exists res,
          suffixArray fuel (Str cs) Undefined = Some res
          /\ StronglySorted (le_on (charCodeAt cs)) res
          /\ StronglySorted
               (triple_le (guarded (charCodeAt cs) (Int (Z.of_nat n))))
               (List.filter in_sample res)).
Proof.
  intros Hb Hf. split.
  - intros f Hg. rewrite suffixArray_Fn.
    destruct (accessor_order fuel f n Hb Hf Hg) as (res & H1 & _ & H2 & H3).
    exists res. split; [exact H1|]. split; [exact H2|exact H3].
  - intros cs Hn Hcs. rewrite suffixArray_Str, Hn.
    destruct (accessor_order fuel (charCodeAt cs) n Hb Hf)
      as (res & H1 & _ & H2 & H3).
    { intros i Hi. apply charCodeAt_range; [exact Hcs|]. rewrite Hn. exact Hi. }
    exists res. split; [exact H1|]. split; [exact H2|exact H3].
Qed.

Lemma result_follows_first_symbols_witness :
  Z.of_nat 6 <= max_length /\ (6 < 7)%nat
  /\ exists res,
       suffixArray 7 (Str (codes "banana")) Undefined = Some res
       /\ StronglySorted (le_on (charCodeAt (codes "banana"))) res.
Proof.
  assert (H1 : Z.of_nat 6 <= max_length) by (vm_compute; discriminate).
  assert (H2 : (6 < 7)%nat) by lia.
  split; [exact H1|]. split; [exact H2|].
  destruct (proj2 (result_follows_first_symbols 7 6 H1 H2)
              (codes "banana") eq_refl) as (res & Hres & Hs & _).
  { repeat constructor; vm_compute; discriminate || reflexivity. }
  exists res. split; [exact Hres|exact Hs].
Defined.

(** ** The length argument *)

(** The symbols at and beyond [len] never matter: two functions that agree
    below [len] have the same result. *)
Theorem symbols_beyond_length_ignored (fuel : nat) (f g : Z -> Z) (len : Z) :
  (forall i, i < len -> f i = g i) ->
  suffixArray fuel (Fn f) (Number (Int len))
  = suffixArray fuel (Fn g) (Number (Int len)).
Proof.
  intros H. rewrite !suffixArray_Fn. apply _suffixArray_ext.
  apply guarded_ext. exact H.
Qed.

Lemma symbols_beyond_length_ignored_witness :
  (forall i, i < 3 -> (fun i => i) i = (fun i => if i <? 3 then i else 99) i)
  /\ suffixArray 4 (Fn (fun i => i)) (Number (Int 3))
     = suffixArray 4 (Fn (fun i => if i <? 3 then i else 99)) (Number (Int 3)).
Proof.
  assert (H : forall i, i < 3 ->
                (fun i => i) i = (fun i => if i <? 3 then i else 99) i).
  { intros i Hi. cbn beta. destruct (Z.ltb_spec i 3); [reflexivity|lia]. }
  split; [exact H|].
  apply (symbols_beyond_length_ignored 4 _ _ 3 H).
Defined.

(** A string with an explicit length [k] between 1 and its character count
    is sorted as its prefix of [k] characters. *)
Theorem explicit_length_takes_prefix (fuel : nat) (cs : list Z) (k : nat) :
  (0 < k <= length cs)%nat ->
  suffixArray fuel (Str cs) (Number (Int (Z.of_nat k)))
  = suffixArray fuel (Str (firstn k cs)) Undefined.
Proof.
  intros Hk. rewrite suffixArray_Str.
  rewrite length_firstn, Nat.min_l by lia.
  unfold suffixArray, length_or. cbn [truthy ToNumber].
  destruct (Z.eqb_spec (Z.of_nat k) 0) as [E|_]; [lia|]. cbn [negb].
  apply _suffixArray_ext. intros i. unfold guarded. cbn [num_ge].
  destruct (Z.leb_spec (Z.of_nat k) i); [reflexivity|].
  symmetry. apply charCodeAt_firstn. lia.
Qed.

Lemma explicit_length_takes_prefix_witness :
  (0 < 3 <= length (codes "banana"))%nat
  /\ suffixArray 4 (Str (codes "banana")) (Number (Int (Z.of_nat 3)))
     = suffixArray 4 (Str (firstn 3 (codes "banana"))) Undefined.
Proof.
  assert (H : (0 < 3 <= length (codes "banana"))%nat) by (simpl; lia).
  split; [exact H|].
  apply (explicit_length_takes_prefix 4 (codes "banana") 3 H).
Defined.

(** A function without a length, or with [NaN] for it, is not refused:
    no symbol is read and the call returns the empty array. *)
Theorem missing_length_gives_empty (fuel : nat) (f : Z -> Z) :
  suffixArray (S fuel) (Fn f) Undefined = Some []
  /\ suffixArray (S fuel) (Fn f) (Number NaN) = Some []
  /\ accessor_reads (S fuel) (guarded f NaN) NaN = [].
Proof.
  split; [reflexivity|]. split; reflexivity.
Qed.

(** ** Only the order of the symbols matters *)

Section KeyOrder.

Context {A : Type}.
Variables key key' : A -> Z.

Lemma bsort_order a :
  (forall x, In x a -> 0 <= key x < 2 ^ 32) ->
  (forall x, In x a -> 0 <= key' x < 2 ^ 32) ->
  (forall x y, In x a -> In y a -> (key x < key y <-> key' x < key' y)) ->
  bsort key a = bsort key' a.
Proof.
  intros Hk Hk' Ho.
  destruct (bsort_stable key a Hk) as (Hp & Hs & Hc).
  assert (Hin : forall x, In x (bsort key a) -> In x a).
  { intros x Hx. eapply Permutation_in; [symmetry; exact Hp|exact Hx]. }
  assert (He : forall x y, In x a -> In y a ->
                 (key x = key y <-> key' x = key' y)).
  { intros x y Hx Hy. pose proof (Ho x y Hx Hy). pose proof (Ho y x Hy Hx).
    lia. }
  apply (stable_sort_unique key' a); [|apply bsort_stable; exact Hk'].
  split; [exact Hp|]. split.
  - eapply StronglySorted_weaken; [|exact Hs].
    intros x y Hx Hy. unfold le_on.
    pose proof (Ho y x (Hin y Hy) (Hin x Hx)). lia.
  - intros v. destruct (class key' v a) as [|y l] eqn:E.
    + apply filter_none. intros x Hx. apply Z.eqb_neq. intros Ev.
      assert (Hxa : In x (class key' v a)).
      { apply class_In. split; [apply Hin, Hx|exact Ev]. }
      rewrite E in Hxa. destruct Hxa.
    + rewrite <- E.
      assert (Hy : In y a /\ key' y = v).
      { apply class_In. rewrite E. left. reflexivity. }
      destruct Hy as [Hy <-].
      assert (Hcl : forall l', (forall x, In x l' -> In x a) ->
                class key' (key' y) l' = class key (key y) l').
      { intros l' Hl. apply List.filter_ext_in. intros x Hx.
        pose proof (He x y (Hl x Hx) Hy).
        destruct (Z.eqb_spec (key' x) (key' y)),
          (Z.eqb_spec (key x) (key y)); tauto || reflexivity. }
      rewrite (Hcl (bsort key a) Hin), (Hcl a (fun x H => H)). apply Hc.
Qed.

End KeyOrder.

Section SymbolOrder.

Variables s s' : Z -> Z.
Hypothesis s_range : forall i, 0 <= i -> 0 <= s i < 2 ^ 32.
Hypothesis s'_range : forall i, 0 <= i -> 0 <= s' i < 2 ^ 32.
Hypothesis same_order :
  forall i k, 0 <= i -> 0 <= k -> (s i < s k <-> s' i < s' k).

Lemma same_equal i k : 0 <= i -> 0 <= k -> (s i = s k <-> s' i = s' k).
Proof.
  intros Hi Hk. pose proof (same_order i k Hi Hk).
  pose proof (same_order k i Hk Hi). lia.
Qed.

Lemma same_eqb i k : 0 <= i -> 0 <= k -> (s i =? s k) = (s' i =? s' k).
Proof.
  intros Hi Hk. pose proof (same_equal i k Hi Hk).
  destruct (Z.eqb_spec (s i) (s k)), (Z.eqb_spec (s' i) (s' k));
    tauto || reflexivity.
Qed.

Lemma bsort_shift_order d a :
  0 <= d -> (forall x, In x a -> 0 <= x) ->
  bsort (fun j => s (d + j)) a = bsort (fun j => s' (d + j)) a.
Proof.
  intros Hd Ha. apply bsort_order.
  - intros x Hx. apply s_range. specialize (Ha x Hx). lia.
  - intros x Hx. apply s'_range. specialize (Ha x Hx). lia.
  - intros x y Hx Hy. apply same_order.
    + specialize (Ha x Hx). lia.
    + specialize (Ha y Hy). lia.
Qed.

Lemma triplet_sort_order a :
  (forall x, In x a -> 0 <= x) -> triplet_sort s a = triplet_sort s' a.
Proof.
  intros Ha. unfold triplet_sort. cbn [fold_left].
  rewrite (bsort_shift_order 2 a) by (lia || exact Ha).
  set (a2 := bsort (fun j => s' (2 + j)) a).
  assert (Ha2 : forall x, In x a2 -> 0 <= x).
  { intros x Hx. apply Ha.
    eapply Permutation_in; [symmetry; apply bsort_perm|exact Hx]. }
  rewrite (bsort_shift_order 1 a2) by (lia || exact Ha2).
  set (a1 := bsort (fun j => s' (1 + j)) a2).
  assert (Ha1 : forall x, In x a1 -> 0 <= x).
  { intros x Hx. apply Ha2.
    eapply Permutation_in; [symmetry; apply bsort_perm|exact Hx]. }
  rewrite (bsort_shift_order 0 a1) by (lia || exact Ha1).
  reflexivity.
Qed.

Lemma differs_order x p :
  0 <= x -> 0 <= p -> differs s x p = differs s' x p.
Proof.
  intros Hx Hp. unfold differs.
  rewrite (same_eqb x p), (same_eqb (x + 1) (p + 1)),
    (same_eqb (x + 2) (p + 2)) by lia.
  reflexivity.
Qed.

Lemma name_loop_order r rest : forall prev j b,
  0 <= prev -> (forall x, In x rest -> 0 <= x) ->
  name_loop s r prev rest j b = name_loop s' r prev rest j b.
Proof.
  induction rest as [|x rest IH]; intros prev j b Hp Hr; [reflexivity|].
  cbn [name_loop].
  rewrite differs_order
    by first [exact Hp|apply Hr; left; reflexivity].
  apply IH; [apply Hr; left; reflexivity|].
  intros y Hy. apply Hr. right. exact Hy.
Qed.

Lemma names_same_order r a :
  (forall x, In x a -> 0 <= x) -> names s r a = names s' r a.
Proof.
  destruct a as [|x rest]; intros Ha; [reflexivity|].
  apply name_loop_order; [apply Ha; left; reflexivity|].
  intros y Hy. apply Ha. right. exact Hy.
Qed.

Lemma sign_order x y :
  0 <= x -> 0 <= y ->
  (s x - s y =? 0) = (s' x - s' y =? 0)
  /\ (s x - s y <? 0) = (s' x - s' y <? 0).
Proof.
  intros Hx Hy. pose proof (same_order x y Hx Hy).
  pose proof (same_order y x Hy Hx).
  destruct (Z.eqb_spec (s x - s y) 0), (Z.eqb_spec (s' x - s' y) 0),
    (Z.ltb_spec (s x - s y) 0), (Z.ltb_spec (s' x - s' y) 0);
    split; reflexivity || lia.
Qed.

Lemma merge_tmp_order lookup x y :
  0 <= x -> 0 <= y ->
  num_lt (merge_tmp s lookup x y) (Int 0)
  = num_lt (merge_tmp s' lookup x y) (Int 0).
Proof.
  intros Hx Hy. unfold merge_tmp.
  set (tie := undef_sub (lookup !! (x + 2)) (lookup !! (y + 2))).
  set (tie1 := undef_sub (lookup !! (x + 1)) (lookup !! (y + 1))).
  unfold or_else.
  destruct (sign_order x y Hx Hy) as [E0 L0].
  destruct (sign_order (x + 1) (y + 1)) as [E1 L1]; [lia|lia|].
  rewrite <- E0, <- E1.
  destruct (s x - s y =? 0).
  - destruct (Z.rem x 3 =? 2); [|reflexivity].
    destruct (s (x + 1) - s (y + 1) =? 0); [reflexivity|].
    cbn [num_lt]. exact L1.
  - cbn [num_lt]. exact L0.
Qed.

Lemma merge_order lookup a : forall b,
  (forall x, In x a -> 0 <= x) -> (forall y, In y b -> 0 <= y) ->
  merge s lookup a b = merge s' lookup a b.
Proof.
  induction a as [|x a IHa]; intros b Ha Hb.
  - rewrite !merge_nil_l. reflexivity.
  - induction b as [|y b IHb].
    + rewrite !merge_nil_r. reflexivity.
    + rewrite !merge_cons.
      rewrite (merge_tmp_order lookup x y (Ha x (or_introl eq_refl))
                 (Hb y (or_introl eq_refl))).
      rewrite IHa; [|intros z Hz; apply Ha; right; exact Hz|exact Hb].
      rewrite IHb; [reflexivity|].
      intros z Hz. apply Hb. right. exact Hz.
Qed.

Lemma finish_order len a :
  0 <= len <= max_length ->
  Permutation (samples (Z.to_nat (2 * len / 3))) a ->
  finish s (Int len) a = finish s' (Int len) a.
Proof.
  intros Hlen Hp. unfold finish.
  assert (Hin : forall y, In y a <-> 0 < y < len /\ y mod 3 <> 0).
  { intros y. rewrite <- (In_samples len Hlen). split; intros Hy.
    - eapply Permutation_in; [symmetry; exact Hp|exact Hy].
    - eapply Permutation_in; [exact Hp|exact Hy]. }
  assert (Hb : forall x, In x (init_b (Int len) a) -> 0 <= x).
  { intros x Hx. apply (In_init_b len Hlen a x Hin) in Hx. lia. }
  rewrite (bsort_order s s' (init_b (Int len) a)).
  - apply merge_order.
    + intros x Hx. apply Hin in Hx. lia.
    + intros y Hy. apply Hb.
      eapply Permutation_in; [symmetry; apply bsort_perm|exact Hy].
  - intros x Hx. apply s_range, Hb, Hx.
  - intros x Hx. apply s'_range, Hb, Hx.
  - intros x y Hx Hy. apply same_order; apply Hb; assumption.
Qed.

Lemma _suffixArray_order fuel (n : nat) :
  Z.of_nat n <= max_length ->
  _suffixArray fuel s (Int (Z.of_nat n))
  = _suffixArray fuel s' (Int (Z.of_nat n)).
Proof.
  intros Hb. destruct fuel as [|fuel]; [reflexivity|].
  set (len := Z.of_nat n) in *.
  assert (Hlen : 0 <= len <= max_length) by lia.
  pose proof (alen_range len Hlen) as Ha.
  set (m := Z.to_nat (2 * len / 3)).
  assert (Hm : 2 * len / 3 = Z.of_nat m) by (unfold m; lia).
  rewrite !_suffixArray_step. cbv zeta.
  rewrite Hm, init_a_fuel by (rewrite <- Hm, max_int_value; lia).
  destruct (m <? S fuel)%nat; [|reflexivity].
  assert (Hpos : forall x, In x (samples m) -> 0 <= x).
  { intros x Hx. apply (In_samples len Hlen) in Hx. lia. }
  rewrite <- (triplet_sort_order (samples m) Hpos).
  pose proof (triplet_sort_perm s (samples m)) as Hperm.
  set (a3 := triplet_sort s (samples m)) in *.
  assert (Hpos3 : forall x, In x a3 -> 0 <= x).
  { intros x Hx. apply Hpos.
    eapply Permutation_in; [symmetry; exact Hperm|exact Hx]. }
  rewrite <- (names_same_order _ a3 Hpos3).
  pose proof (r_model len Hlen) as Hr. cbv zeta in Hr.
  cbn [num_add num_ToInt32] in Hr. rewrite Hm in Hr. rewrite Hr.
  set (r := (Z.of_nat m + 1) / 2) in *.
  destruct (fst _ <? _).
  - destruct (_suffixArray fuel _ _) as [rec|] eqn:Hrec; [|reflexivity].
    assert (Hmb : Z.of_nat m <= max_length)
      by (unfold max_length in *; lia).
    pose proof (_suffixArray_perm fuel _ m rec Hmb Hrec) as Hprec.
    pose proof (unslot_samples len Hlen) as Hu. cbv zeta in Hu.
    rewrite Hm in Hu. fold r in Hu. rewrite Nat2Z.id in Hu.
    assert (HP : Permutation (samples (Z.to_nat (2 * len / 3)))
                             (map (unslot r) rec)).
    { fold m. etransitivity; [exact Hu|].
      apply Permutation_map. exact Hprec. }
    rewrite (finish_order len (map (unslot r) rec) Hlen HP). reflexivity.
  - rewrite (finish_order len a3 Hlen Hperm). reflexivity.
Qed.

End SymbolOrder.

(** The result depends on the symbols only through their order: for a
    length up to [max_length], two functions with values in [0, 2^32) that
    order the positions below [len] in the same way, and have the symbol 0
    (the value beyond the end) at the same positions, have the same
    result. *)
Theorem only_the_order_of_symbols_matters (fuel : nat) (f g : Z -> Z)
    (n : nat) :
  Z.of_nat n <= max_length ->
  (forall i, 0 <= i < Z.of_nat n ->
     0 <= f i < 2 ^ 32 /\ 0 <= g i < 2 ^ 32 /\ (f i = 0 <-> g i = 0)) ->
  (forall i k, 0 <= i < Z.of_nat n -> 0 <= k < Z.of_nat n ->
     (f i < f k <-> g i < g k)) ->
  suffixArray fuel (Fn f) (Number (Int (Z.of_nat n)))
  = suffixArray fuel (Fn g) (Number (Int (Z.of_nat n))).
Proof.
  intros Hb Hr Ho. rewrite !suffixArray_Fn.
  apply _suffixArray_order; [| | |exact Hb].
  - intros i Hi. unfold guarded. cbn [num_ge].
    destruct (Z.leb_spec (Z.of_nat n) i); [lia|]. apply Hr. lia.
  - intros i Hi. unfold guarded. cbn [num_ge].
    destruct (Z.leb_spec (Z.of_nat n) i); [lia|]. apply Hr. lia.
  - intros i k Hi Hk. unfold guarded. cbn [num_ge].
    destruct (Z.leb_spec (Z.of_nat n) i), (Z.leb_spec (Z.of_nat n) k).
    + lia.
    + pose proof (Hr k ltac:(lia)). lia.
    + pose proof (Hr i ltac:(lia)). lia.
    + apply Ho; lia.
Qed.

Lemma only_the_order_of_symbols_matters_witness :
  Z.of_nat 4 <= max_length
  /\ suffixArray 5 (Fn (fun i => i + 1)) (Number (Int (Z.of_nat 4)))
     = suffixArray 5 (Fn (fun i => 2 * i + 5)) (Number (Int (Z.of_nat 4))).
Proof.
  assert (H1 : Z.of_nat 4 <= max_length) by (vm_compute; discriminate).
  split; [exact H1|].
  apply (only_the_order_of_symbols_matters 5 (fun i => i + 1)
           (fun i => 2 * i + 5) 4 H1).
  - intros i Hi. cbn beta. change (Z.of_nat 4) with 4 in Hi.
    change (2 ^ 32) with 4294967296. lia.
  - intros i k _ _. cbn beta. lia.
Defined.

(** ** The nested call *)

(** Up to [max_length] the table of names is filled exactly at the positions
    [0 .. alen-1]; when the nested call is made (the last name is below
    [alen - 1]) its length [alen] is below [len] and its accessor answers
    with a name in [0, alen) at every position: the nested call gets a
    sequence of unsigned integers within the same bounds. *)
Theorem nested_call_within_bounds (s : Z -> Z) (len : Z) :
  0 <= len <= max_length ->
  let alen := 2 * len / 3 in
  let r := sar (num_ToInt32 (num_add (Int alen) (Int 1))) 1 in
  let nb := names s r (triplet_sort s (samples (Z.to_nat alen))) in
  (forall i, is_Some (snd nb !! i) <-> 0 <= i < alen)
  /\ (fst nb < alen - 1 ->
      alen < len /\ alen <= max_length
      /\ forall i, 0 <= reduced (Int alen) (snd nb) i < alen).
Proof.
  intros Hlen alen r nb.
  pose proof (alen_range len Hlen) as Ha.
  pose proof (r_model len Hlen) as Hr. cbv zeta in Hr.
  pose proof (triplet_sort_perm s (samples (Z.to_nat (2 * len / 3))))
    as Hperm.
  unfold nb, r, alen in *. rewrite Hr in *. clear nb r Hr.
  set (r := (2 * len / 3 + 1) / 2) in *.
  set (a3 := triplet_sort s (samples (Z.to_nat (2 * len / 3)))) in *.
  assert (Hin : forall x, In x a3 -> 0 < x < len /\ x mod 3 <> 0).
  { intros x Hx. apply (In_samples len Hlen).
    eapply Permutation_in; [symmetry; exact Hperm|exact Hx]. }
  split.
  - intros i. split.
    + intros Hi. apply names_keys in Hi. destruct Hi as (x & Hx & <-).
      destruct (Hin x Hx) as [H1 H2].
      apply (unslot_slot len x H1 H2).
    + intros Hi. rewrite <- (slot_unslot len i Hi). fold r.
      apply names_written.
      eapply Permutation_in; [exact Hperm|].
      apply (In_samples len Hlen).
      pose proof (unslot_range len i Hi) as Hu. fold r in Hu. tauto.
  - intros Hj. pose proof (names_nonneg s r a3) as H0.
    split; [Z.div_mod_to_equations; lia|].
    split; [unfold max_length in *; Z.div_mod_to_equations; lia|].
    intros i. unfold reduced. cbn [num_ge].
    destruct (Z.leb_spec (2 * len / 3) i); [lia|].
    destruct (snd (names s r a3) !! i) as [n|] eqn:E;
      cbn [default from_option id]; [|lia].
    apply names_values in E. lia.
Qed.

Lemma nested_call_within_bounds_witness :
  0 <= 7 <= max_length
  /\ forall i,
       is_Some (snd (names (fun _ => 1) 2
                           (triplet_sort (fun _ => 1) (samples 4))) !! i)
       <-> 0 <= i < 4.
Proof.
  assert (H1 : 0 <= 7 <= max_length) by (vm_compute; split; discriminate).
  split; [exact H1|].
  exact (proj1 (nested_call_within_bounds (fun _ => 1) 7 H1)).
Defined.

(** ** A tie on a rank that was never written *)

(** When the symbols compared are equal and one of the two ranks that the
    merge then reads was never written (the position is a multiple of 3 that
    is not in the sample, or lies at or beyond [len]), the difference is
    [NaN], [tmp < 0] is false and the element of [b] is emitted. *)
Theorem undefined_rank_emits_b (s : Z -> Z) (lookup : gmap Z Z)
    (x y : Z) (a b : list Z) :
  s x = s y ->
  (Z.rem x 3 = 2 -> s (x + 1) = s (y + 1)) ->
  (let d := if Z.rem x 3 =? 2 then 2 else 1 in
   lookup !! (x + d) = None \/ lookup !! (y + d) = None) ->
  merge s lookup (x :: a) (y :: b) = y :: merge s lookup (x :: a) b.
Proof.
  intros E0 E1 Hu. rewrite merge_cons.
  assert (Ht : merge_tmp s lookup x y = NaN).
  { unfold merge_tmp, or_else. rewrite E0, Z.sub_diag. cbn [Z.eqb].
    cbv zeta in Hu. destruct (Z.eqb_spec (Z.rem x 3) 2) as [H2|H2].
    - rewrite (E1 H2), Z.sub_diag. cbn [Z.eqb].
      destruct Hu as [-> | ->]; [reflexivity|].
      destruct (lookup !! (x + 2)); reflexivity.
    - destruct Hu as [-> | ->]; [reflexivity|].
      destruct (lookup !! (x + 1)); reflexivity. }
  rewrite Ht. reflexivity.
Qed.

Lemma undefined_rank_emits_b_witness :
  (fun _ : Z => 97) 1 = (fun _ : Z => 97) 0
  /\ merge (fun _ => 97) (build_lookup 0 [1]) [1] [0] = [0; 1].
Proof.
  assert (H0 : (fun _ : Z => 97) 1 = (fun _ : Z => 97) 0) by reflexivity.
  split; [exact H0|].
  rewrite (undefined_rank_emits_b (fun _ => 97) (build_lookup 0 [1])
             1 0 [] [] H0).
  - reflexivity.
  - intros H. vm_compute in H. discriminate H.
  - cbv zeta. left. vm_compute. reflexivity.
Defined.

(** ** The order of suffixes *)

Lemma suffix_lt_first s x y : s x < s y -> suffix_lt s x y.
Proof.
  intros H. exists 0. split; [lia|]. split; [intros j Hj; lia|].
  rewrite !Z.add_0_r. exact H.
Qed.

Lemma suffix_lt_shift s x y :
  s x = s y -> suffix_lt s (x + 1) (y + 1) -> suffix_lt s x y.
Proof.
  intros E (k & Hk & He & Hl). exists (k + 1). split; [lia|]. split.
  - intros j Hj. destruct (Z.eq_dec j 0) as [->|Hj0].
    + rewrite !Z.add_0_r. exact E.
    + specialize (He (j - 1) ltac:(lia)).
      replace (x + 1 + (j - 1)) with (x + j) in He by lia.
      replace (y + 1 + (j - 1)) with (y + j) in He by lia. exact He.
  - replace (x + (k + 1)) with (x + 1 + k) by lia.
    replace (y + (k + 1)) with (y + 1 + k) by lia. exact Hl.
Qed.

Lemma suffix_lt_shift3 s x y :
  same_triple s x y = true -> suffix_lt s (x + 3) (y + 3) ->
  suffix_lt s x y.
Proof.
  intros E H. apply same_triple_iff in E. destruct E as (E0 & E1 & E2).
  apply suffix_lt_shift; [exact E0|].
  apply suffix_lt_shift; [exact E1|].
  apply suffix_lt_shift.
  - replace (x + 1 + 1) with (x + 2) by lia.
    replace (y + 1 + 1) with (y + 2) by lia. exact E2.
  - replace (x + 1 + 1 + 1) with (x + 3) by lia.
    replace (y + 1 + 1 + 1) with (y + 3) by lia. exact H.
Qed.

Lemma suffix_lt_trans s x y z :
  suffix_lt s x y -> suffix_lt s y z -> suffix_lt s x z.
Proof.
  intros (k1 & Hk1 & He1 & Hl1) (k2 & Hk2 & He2 & Hl2).
  exists (Z.min k1 k2). split; [lia|]. split.
  - intros j Hj. rewrite He1 by lia. apply He2. lia.
  - destruct (Z.lt_trichotomy k1 k2) as [H|[H|H]].
    + rewrite Z.min_l by lia. rewrite <- (He2 k1) by lia. exact Hl1.
    + subst k2. rewrite Z.min_l by lia. lia.
    + rewrite Z.min_r by lia. rewrite (He1 k2) by lia. exact Hl2.
Qed.

Lemma suffix_lt_irrefl s x : ~ suffix_lt s x x.
Proof. intros (k & _ & _ & H). lia. Qed.

Lemma suffix_lt_lex_le s n : forall x y,
  suffix_lt s x y -> lex_le n s x y = true.
Proof.
  induction n as [|n IH]; intros x y H; [reflexivity|].
  cbn [lex_le]. destruct (Z.ltb_spec (s x) (s y)) as [|Hxy]; [reflexivity|].
  destruct H as (k & Hk & He & Hl).
  assert (Hk0 : k <> 0).
  { intros ->. rewrite !Z.add_0_r in Hl. lia. }
  pose proof (He 0 ltac:(lia)) as E0. rewrite !Z.add_0_r in E0.
  destruct (Z.ltb_spec (s y) (s x)); [lia|].
  apply IH. exists (k - 1). split; [lia|]. split.
  - intros j Hj. specialize (He (j + 1) ltac:(lia)).
    replace (x + 1 + j) with (x + (j + 1)) by lia.
    replace (y + 1 + j) with (y + (j + 1)) by lia. exact He.
  - replace (x + 1 + (k - 1)) with (x + k) by lia.
    replace (y + 1 + (k - 1)) with (y + k) by lia. exact Hl.
Qed.

Lemma triple_lt_iff s x y :
  triple_lt s x y
  <-> s x < s y
      \/ (s x = s y
          /\ (s (x + 1) < s (y + 1)
              \/ (s (x + 1) = s (y + 1) /\ s (x + 2) < s (y + 2)))).
Proof.
  unfold triple_lt. rewrite triple_le_iff.
  destruct (same_triple s x y) eqn:E.
  - apply same_triple_iff in E. split; [intros [_ H]; discriminate H|lia].
  - assert (N : ~ (s x = s y /\ s (x + 1) = s (y + 1)
                   /\ s (x + 2) = s (y + 2))).
    { intros H. apply same_triple_iff in H. congruence. }
    split; [intros [H _]; lia|]. intros H. split; [lia|reflexivity].
Qed.

Lemma triple_lt_suffix_lt s x y : triple_lt s x y -> suffix_lt s x y.
Proof.
  rewrite triple_lt_iff. intros [H|[E0 [H|[E1 H]]]].
  - apply suffix_lt_first, H.
  - apply suffix_lt_shift; [exact E0|]. apply suffix_lt_first, H.
  - apply suffix_lt_shift; [exact E0|].
    apply suffix_lt_shift; [exact E1|]. apply suffix_lt_first.
    replace (x + 1 + 1) with (x + 2) by lia.
    replace (y + 1 + 1) with (y + 2) by lia. exact H.
Qed.

Lemma triple_le_lt_trans s x y z :
  triple_le s x y -> triple_lt s y z -> triple_lt s x z.
Proof. rewrite triple_le_iff, !triple_lt_iff. lia. Qed.

(** ** Positions in a list that is in strict order *)

Lemma StronglySorted_nth {A : Type} (R : A -> A -> Prop) l :
  StronglySorted R l ->
  forall i j x y, l !! i = Some x -> l !! j = Some y -> (i < j)%nat -> R x y.
Proof.
  induction 1 as [|z l Hs IH Hz]; intros i j x y Hi Hj Hij.
  - rewrite lookup_nil in Hi. discriminate.
  - destruct j as [|j]; [lia|]. cbn in Hj.
    destruct i as [|i].
    + cbn in Hi. apply Some_inv in Hi. subst z.
      rewrite List.Forall_forall in Hz. apply Hz.
      apply list_elem_of_In. eapply list_elem_of_lookup_2. exact Hj.
    + cbn in Hi. apply (IH i j); [exact Hi|exact Hj|lia].
Qed.

Lemma StronglySorted_NoDup {A : Type} (R : A -> A -> Prop) l :
  (forall x, ~ R x x) -> StronglySorted R l -> List.NoDup l.
Proof.
  intros Hirr. induction 1 as [|z l Hs IH Hz]; constructor; [|exact IH].
  intros Hin. rewrite List.Forall_forall in Hz. apply (Hirr z), Hz, Hin.
Qed.

(** In an array in strict order the lookup table compares as the order. *)
Lemma lookup_order (R : Z -> Z -> Prop) a p q :
  (forall x, ~ R x x) -> StronglySorted R a -> In p a -> In q a -> p <> q ->
  exists i k, build_lookup 0 a !! p = Some i
              /\ build_lookup 0 a !! q = Some k
              /\ (i - k < 0 -> R p q) /\ (~ i - k < 0 -> R q p).
Proof.
  intros Hirr Hs Hp Hq Hpq.
  pose proof (StronglySorted_NoDup R a Hirr Hs) as Hnd.
  apply list_elem_of_In, list_elem_of_lookup_1 in Hp, Hq.
  destruct Hp as [i Hi], Hq as [k Hk].
  exists (Z.of_nat i), (Z.of_nat k).
  split; [apply (build_lookup_nth a Hnd); rewrite Nat2Z.id; split; [lia|exact Hi]|].
  split; [apply (build_lookup_nth a Hnd); rewrite Nat2Z.id; split; [lia|exact Hk]|].
  split; intros H.
  - apply (StronglySorted_nth R a Hs i k); [exact Hi|exact Hk|lia].
  - assert (i <> k) by (intros ->; congruence).
    apply (StronglySorted_nth R a Hs k i); [exact Hk|exact Hi|lia].
Qed.

(** ** One call on a sequence with a well-marked end *)

(** The merge breaks a tie by the ranks of later positions; a rank beyond
    the end of the sequence was never written.  One call gives the order of
    the suffixes when three facts about the end of the sequence keep every
    tie away from it: the triplets at the last three positions occur once in
    the sample, the position [len - 1] that is pushed onto [b] last has a
    first symbol of its own, and a tie of the merge leaves both ranks that
    are read inside the sequence. *)

Lemma same_triple_sym s x y : same_triple s x y = same_triple s y x.
Proof.
  unfold same_triple.
  rewrite (Z.eqb_sym (s x)), (Z.eqb_sym (s (x + 1))),
    (Z.eqb_sym (s (x + 2))).
  reflexivity.
Qed.

Lemma init_a_len fuel len :
  0 <= len <= max_length ->
  init_a fuel (Int (2 * len / 3))
  = if (Z.to_nat (2 * len / 3) <? fuel)%nat
    then Some (samples (Z.to_nat (2 * len / 3))) else None.
Proof.
  intros Hlen. pose proof (alen_range len Hlen) as Ha.
  rewrite <- init_a_fuel by (rewrite Z2Nat.id, max_int_value; lia).
  rewrite Z2Nat.id by lia. reflexivity.
Qed.

Lemma name_loop_all_differ s r rest : forall prev j b,
  StronglySorted (triple_le s) (prev :: rest) ->
  j + Z.of_nat (length rest) <= fst (name_loop s r prev rest j b) ->
  StronglySorted (triple_lt s) (prev :: rest).
Proof.
  induction rest as [|x rest IH]; intros prev j b Hs Hj.
  - repeat constructor.
  - cbn [name_loop length] in Hj.
    destruct (differs s x prev) eqn:Hd.
    2: { exfalso.
         pose proof (name_loop_step_bound s r rest x j (<[slot r x := j]> b)).
         lia. }
    apply StronglySorted_inv in Hs. destruct Hs as [Hs Hp].
    assert (Hj' : j + 1 + Z.of_nat (length rest)
                  <= fst (name_loop s r x rest (j + 1)
                            (<[slot r x := j + 1]> b))) by lia.
    specialize (IH x (j + 1) _ Hs Hj').
    assert (Hpx : triple_lt s prev x).
    { split; [apply (List.Forall_inv Hp)|].
      rewrite differs_same in Hd. destruct (same_triple s prev x);
        [discriminate Hd|reflexivity]. }
    constructor; [exact IH|].
    constructor; [exact Hpx|].
    apply StronglySorted_inv in IH. destruct IH as [_ IH].
    eapply List.Forall_impl; [|exact IH].
    intros y Hy. eapply triple_le_lt_trans; [apply Hpx|exact Hy].
Qed.

Section Level.

Variables (s : Z -> Z) (len : Z).
Hypothesis len_range : 0 <= len <= max_length.
Hypothesis s_range : forall i, 0 <= i -> 0 <= s i < 2 ^ 32.
Hypothesis ends_unique :
  forall x y, 0 < x < len -> x mod 3 <> 0 -> 0 < y < len -> y mod 3 <> 0 ->
              x <> y -> len - 3 <= y -> same_triple s x y = false.
Hypothesis pushed_unique :
  forall y, 0 <= y < len - 1 -> y mod 3 = 0 -> len mod 3 = 1 ->
            s y <> s (len - 1).
Hypothesis ties_inside :
  forall x y, 0 < x < len -> x mod 3 <> 0 -> 0 <= y < len -> y mod 3 = 0 ->
              s x = s y ->
              (x mod 3 = 1 -> x + 1 < len /\ y + 1 < len)
              /\ (x mod 3 = 2 -> s (x + 1) = s (y + 1) ->
                  x + 2 < len /\ y + 2 < len).

Let alen := 2 * len / 3.
Let r := (alen + 1) / 2.
Let a3 := triplet_sort s (samples (Z.to_nat alen)).
Let nb := names s r a3.
Let t := reduced (Int alen) (snd nb).

Lemma a3_perm : Permutation (samples (Z.to_nat alen)) a3.
Proof. apply triplet_sort_perm. Qed.

Lemma In_a3 x : In x a3 <-> 0 < x < len /\ x mod 3 <> 0.
Proof.
  rewrite <- (In_samples len len_range). split; intros Hx.
  - eapply Permutation_in; [symmetry; exact a3_perm|exact Hx].
  - eapply Permutation_in; [exact a3_perm|exact Hx].
Qed.

Lemma unslot_In_a3 i : 0 <= i < alen -> In (unslot r i) a3.
Proof.
  intros Hi. apply In_a3. pose proof (unslot_range len i Hi) as H.
  fold alen r in H. tauto.
Qed.

Lemma t_order i k :
  0 <= i < alen -> 0 <= k < alen ->
  (t i = t k <-> same_triple s (unslot r i) (unslot r k) = true)
  /\ (t i <= t k <-> triple_le s (unslot r i) (unslot r k)).
Proof.
  intros Hi Hk.
  destruct (names_order s r a3 (unslot r i) (unslot r k)
              (sample_sorted s len len_range s_range)
              (sample_slots len a3 len_range a3_perm)
              (unslot_In_a3 i Hi) (unslot_In_a3 k Hk))
    as (ni & nk & Hni & Hnk & _ & Heq & Hle).
  pose proof (slot_unslot len i Hi) as Si. fold alen r in Si.
  pose proof (slot_unslot len k Hk) as Sk. fold alen r in Sk.
  rewrite Si in Hni. rewrite Sk in Hnk. fold nb in Hni, Hnk.
  assert (Ti : t i = ni).
  { unfold t, reduced. cbn [num_ge].
    destruct (Z.leb_spec alen i); [lia|]. rewrite Hni. reflexivity. }
  assert (Tk : t k = nk).
  { unfold t, reduced. cbn [num_ge].
    destruct (Z.leb_spec alen k); [lia|]. rewrite Hnk. reflexivity. }
  rewrite Ti, Tk. split; assumption.
Qed.

Lemma unslot_next i :
  0 <= i -> i + 1 < alen -> i <> r - 1 ->
  unslot r (i + 1) = unslot r i + 3.
Proof.
  intros H0 H1 Hr. unfold unslot.
  destruct (Z.ltb_spec (i + 1) r), (Z.ltb_spec i r); lia.
Qed.

Lemma unslot_end e :
  0 <= e < alen -> e = r - 1 \/ e = alen - 1 -> len - 3 <= unslot r e.
Proof.
  intros He Hend. unfold unslot.
  destruct (Z.ltb_spec e r); unfold r, alen in *;
    Z.div_mod_to_equations; lia.
Qed.

Lemma unslot_inj i k :
  0 <= i < alen -> 0 <= k < alen -> unslot r i = unslot r k -> i = k.
Proof.
  intros Hi Hk E.
  pose proof (slot_unslot len i Hi) as Si. fold alen r in Si.
  pose proof (slot_unslot len k Hk) as Sk. fold alen r in Sk.
  rewrite <- Si, <- Sk, E. reflexivity.
Qed.

(** The names at the ends of the two blocks of [b] occur once. *)
Lemma t_end_unique e i :
  0 <= e < alen -> e = r - 1 \/ e = alen - 1 -> 0 <= i < alen -> i <> e ->
  t i <> t e.
Proof.
  intros He Hend Hi Hne E. apply (t_order i e Hi He) in E.
  pose proof (unslot_range len i Hi) as Ri. fold alen r in Ri.
  pose proof (unslot_range len e He) as Re. fold alen r in Re.
  rewrite ends_unique in E; [discriminate E|lia|lia|lia|lia| |].
  - intros Eu. apply Hne. apply unslot_inj; assumption.
  - apply unslot_end; assumption.
Qed.

(** The order of the suffixes of the names is the order of the suffixes of
    [s] at the sample positions. *)
Lemma nested_order_aux (m : nat) : forall i k,
  0 <= i < alen -> 0 <= k < alen ->
  (forall j, 0 <= j < Z.of_nat m -> t (i + j) = t (k + j)) ->
  t (i + Z.of_nat m) < t (k + Z.of_nat m) ->
  suffix_lt s (unslot r i) (unslot r k).
Proof.
  induction m as [|m IH]; intros i k Hi Hk He Hl.
  - change (Z.of_nat 0) with 0 in Hl. rewrite !Z.add_0_r in Hl.
    destruct (t_order i k Hi Hk) as [Heq Hle].
    apply triple_lt_suffix_lt. split; [apply Hle; lia|].
    destruct (same_triple s (unslot r i) (unslot r k)); [|reflexivity].
    assert (t i = t k) by (apply Heq; reflexivity). lia.
  - assert (Hne : i <> k) by (intros ->; lia).
    pose proof (He 0 ltac:(lia)) as E0. rewrite !Z.add_0_r in E0.
    assert (Hi' : i <> r - 1 /\ i <> alen - 1).
    { split; intros Ei;
        apply (t_end_unique i k Hi ltac:(lia) Hk ltac:(lia)); lia. }
    assert (Hk' : k <> r - 1 /\ k <> alen - 1).
    { split; intros Ek;
        apply (t_end_unique k i Hk ltac:(lia) Hi ltac:(lia)); lia. }
    apply suffix_lt_shift3; [apply (t_order i k Hi Hk), E0|].
    rewrite <- (unslot_next i), <- (unslot_next k) by lia.
    apply IH; [lia|lia| |].
    + intros j Hj. specialize (He (j + 1) ltac:(lia)).
      replace (i + 1 + j) with (i + (j + 1)) by lia.
      replace (k + 1 + j) with (k + (j + 1)) by lia. exact He.
    + replace (i + 1 + Z.of_nat m) with (i + Z.of_nat (S m)) by lia.
      replace (k + 1 + Z.of_nat m) with (k + Z.of_nat (S m)) by lia.
      exact Hl.
Qed.

Lemma nested_order i k :
  0 <= i < alen -> 0 <= k < alen -> suffix_lt t i k ->
  suffix_lt s (unslot r i) (unslot r k).
Proof using len_range s_range ends_unique pushed_unique ties_inside.
  intros Hi Hk (m & Hm & He & Hl).
  apply (nested_order_aux (Z.to_nat m) i k Hi Hk).
  - intros j Hj. apply He. lia.
  - rewrite Z2Nat.id by lia. exact Hl.
Qed.

Lemma nested_last_unique : 2 <= alen -> last_is_unique t alen.
Proof using len_range s_range ends_unique pushed_unique ties_inside.
  intros Ha i Hi. apply t_end_unique; lia.
Qed.

(** When no nested call is made the sample is in the order of its
    suffixes. *)
Lemma sample_strict :
  ~ fst nb < alen - 1 -> StronglySorted (suffix_lt s) a3.
Proof using len_range s_range ends_unique pushed_unique ties_inside.
  intros Hj.
  pose proof (sample_sorted s len len_range s_range) as Hs.
  fold alen a3 in Hs.
  pose proof (Permutation_length a3_perm) as Hl.
  rewrite length_samples in Hl.
  pose proof (alen_range len len_range) as Ha. fold alen in Ha.
  unfold nb in Hj. destruct a3 as [|x rest] eqn:E; [constructor|].
  eapply StronglySorted_weaken;
    [intros y z _ _; apply triple_lt_suffix_lt|].
  unfold names in Hj.
  apply (name_loop_all_differ s r rest x 0 {[slot r x := 0]} Hs).
  cbn [length] in Hl. lia.
Qed.

(** The other third, sorted by its first symbol, is in the order of its
    suffixes. *)
Lemma rest_sorted a :
  Permutation (samples (Z.to_nat alen)) a ->
  StronglySorted (suffix_lt s) a ->
  StronglySorted (suffix_lt s) (bsort s (init_b (Int len) a)).
Proof using len_range s_range ends_unique pushed_unique ties_inside.
  intros Hp Hs.
  assert (Hin : forall y, In y a <-> 0 < y < len /\ y mod 3 <> 0).
  { intros y. rewrite <- (In_samples len len_range). split; intros Hy.
    - eapply Permutation_in; [symmetry; exact Hp|exact Hy].
    - eapply Permutation_in; [exact Hp|exact Hy]. }
  set (R := fun y y' : Z => s y = s y' -> suffix_lt s y y').
  assert (HR : StronglySorted R (init_b (Int len) a)).
  { unfold init_b. apply StronglySorted_app.
    - eapply StronglySorted_map;
        [|apply StronglySorted_filter; exact Hs].
      intros x x' _ _ Hxx E. apply suffix_lt_shift; [exact E|].
      replace (x - 1 + 1) with x by lia.
      replace (x' - 1 + 1) with x' by lia. exact Hxx.
    - destruct (num_rem3_is1 (Int len)); repeat constructor.
    - intros y y' Hy Hy' E. exfalso.
      apply in_map_iff in Hy. destruct Hy as (x & <- & Hx).
      apply filter_In in Hx.
      destruct Hx as [Hx H1]. apply Hin in Hx. apply Z.eqb_eq in H1.
      rewrite Z.rem_mod_nonneg in H1 by lia.
      destruct (num_rem3_is1 (Int len)) eqn:Hl; [|destruct Hy'].
      cbn [num_rem3_is1] in Hl. apply Z.eqb_eq in Hl.
      rewrite Z.rem_mod_nonneg in Hl by lia.
      destruct Hy' as [<-|[]].
      apply (pushed_unique (x - 1)); [lia| |exact Hl|exact E].
      Z.div_mod_to_equations. lia. }
  assert (Hb : forall x, In x (init_b (Int len) a) -> 0 <= s x < 2 ^ 32).
  { intros x Hx. apply s_range.
    apply (In_init_b len len_range a x Hin) in Hx. lia. }
  pose proof (stable_sort_lex s R _ _ HR (bsort_stable s _ Hb)) as Hl.
  eapply StronglySorted_weaken; [|exact Hl].
  intros y y' _ _ [H|[E H]]; [apply suffix_lt_first, H|apply H, E].
Qed.

(** The comparison of the merge decides the order of the two suffixes. *)
Lemma merge_decides a x y :
  StronglySorted (suffix_lt s) a ->
  (forall z, In z a <-> 0 < z < len /\ z mod 3 <> 0) ->
  In x a -> 0 <= y < len -> y mod 3 = 0 ->
  (num_lt (merge_tmp s (build_lookup 0 a) x y) (Int 0) = true ->
   suffix_lt s x y)
  /\ (num_lt (merge_tmp s (build_lookup 0 a) x y) (Int 0) = false ->
      suffix_lt s y x).
Proof using len_range s_range ends_unique pushed_unique ties_inside.
  intros Hs Hin Hx Hy Hy0. apply Hin in Hx. destruct Hx as [Hx Hx0].
  assert (Hrank : forall p q, 0 < p < len -> p mod 3 <> 0 ->
            0 < q < len -> q mod 3 <> 0 -> p <> q ->
            (num_lt (undef_sub (build_lookup 0 a !! p)
                               (build_lookup 0 a !! q)) (Int 0) = true ->
             suffix_lt s p q)
            /\ (num_lt (undef_sub (build_lookup 0 a !! p)
                                  (build_lookup 0 a !! q)) (Int 0) = false ->
                suffix_lt s q p)).
  { intros p q Hp Hp0 Hq Hq0 Hpq.
    destruct (lookup_order (suffix_lt s) a p q (suffix_lt_irrefl s) Hs)
      as (i & k & -> & -> & H1 & H2); [apply Hin; tauto|apply Hin; tauto|
                                       exact Hpq|].
    cbn [undef_sub num_lt]. destruct (Z.ltb_spec (i - k) 0); split;
      intros Hc; try discriminate Hc; [apply H1|apply H2]; lia. }
  unfold merge_tmp.
  set (tie2 := undef_sub (build_lookup 0 a !! (x + 2))
                         (build_lookup 0 a !! (y + 2))) in *.
  set (tie1 := undef_sub (build_lookup 0 a !! (x + 1))
                         (build_lookup 0 a !! (y + 1))) in *.
  unfold or_else.
  destruct (Z.eqb_spec (s x - s y) 0) as [E0|N0].
  - assert (E : s x = s y) by lia.
    assert (Hxy : x <> y) by (intros ->; apply Hx0; exact Hy0).
    destruct (ties_inside x y Hx Hx0 Hy Hy0 E) as [T1 T2].
    assert (Hx3 : Z.rem x 3 = x mod 3) by (apply Z.rem_mod_nonneg; lia).
    rewrite Hx3.
    destruct (Z.eqb_spec (x mod 3) 2) as [H2|H2].
    + destruct (Z.eqb_spec (s (x + 1) - s (y + 1)) 0) as [E1|N1].
      * assert (E' : s (x + 1) = s (y + 1)) by lia.
        destruct (T2 H2 E') as [Tx Ty].
        destruct (Hrank (x + 2) (y + 2)) as [R1 R2];
          [lia|Z.div_mod_to_equations; lia|lia
           |Z.div_mod_to_equations; lia|lia|].
        fold tie2 in R1, R2. split; intros Hc.
        -- apply suffix_lt_shift; [exact E|].
           apply suffix_lt_shift; [exact E'|].
           replace (x + 1 + 1) with (x + 2) by lia.
           replace (y + 1 + 1) with (y + 2) by lia. apply R1, Hc.
        -- apply suffix_lt_shift; [symmetry; exact E|].
           apply suffix_lt_shift; [symmetry; exact E'|].
           replace (x + 1 + 1) with (x + 2) by lia.
           replace (y + 1 + 1) with (y + 2) by lia. apply R2, Hc.
      * cbn [num_lt].
        destruct (Z.ltb_spec (s (x + 1) - s (y + 1)) 0); split; intros Hc;
          try discriminate Hc.
        -- apply suffix_lt_shift; [exact E|]. apply suffix_lt_first. lia.
        -- apply suffix_lt_shift; [symmetry; exact E|].
           apply suffix_lt_first. lia.
    + assert (H1 : x mod 3 = 1) by (Z.div_mod_to_equations; lia).
      destruct (T1 H1) as [Tx Ty].
      destruct (Hrank (x + 1) (y + 1)) as [R1 R2];
        [lia|Z.div_mod_to_equations; lia|lia
         |Z.div_mod_to_equations; lia|lia|].
      fold tie1 in R1, R2. split; intros Hc.
      * apply suffix_lt_shift; [exact E|]. apply R1, Hc.
      * apply suffix_lt_shift; [symmetry; exact E|]. apply R2, Hc.
  - cbn [num_lt]. destruct (Z.ltb_spec (s x - s y) 0); split; intros Hc;
      try discriminate Hc; apply suffix_lt_first; lia.
Qed.

End Level.

(** A merge whose comparisons decide a transitive order keeps it. *)
Lemma merge_sorted_by (R : Z -> Z -> Prop) s lookup a : forall b,
  (forall x y z, R x y -> R y z -> R x z) ->
  (forall x y, In x a -> In y b ->
     (num_lt (merge_tmp s lookup x y) (Int 0) = true -> R x y)
     /\ (num_lt (merge_tmp s lookup x y) (Int 0) = false -> R y x)) ->
  StronglySorted R a -> StronglySorted R b ->
  StronglySorted R (merge s lookup a b).
Proof.
  induction a as [|x a IHa]; intros b Ht Hd Ha Hb.
  - rewrite merge_nil_l. exact Hb.
  - induction b as [|y b IHb].
    + rewrite merge_nil_r. exact Ha.
    + rewrite merge_cons.
      destruct (Hd x y (or_introl eq_refl) (or_introl eq_refl)) as [D1 D2].
      pose proof (StronglySorted_inv Ha) as [Ha' Hx].
      pose proof (StronglySorted_inv Hb) as [Hb' Hy].
      rewrite List.Forall_forall in Hx, Hy.
      destruct (num_lt (merge_tmp s lookup x y) (Int 0)).
      * constructor.
        -- apply IHa; [exact Ht| |exact Ha'|exact Hb].
           intros x' y' Hx' Hy'. apply Hd; [right; exact Hx'|exact Hy'].
        -- apply List.Forall_forall. intros z Hz. apply merge_In in Hz.
           specialize (D1 eq_refl). destruct Hz as [Hz|[<-|Hz]].
           ++ apply Hx, Hz.
           ++ exact D1.
           ++ apply (Ht x y z D1), Hy, Hz.
      * constructor.
        -- apply IHb; [|exact Hb'].
           intros x' y' Hx' Hy'. apply Hd; [exact Hx'|right; exact Hy'].
        -- apply List.Forall_forall. intros z Hz. apply merge_In in Hz.
           specialize (D2 eq_refl). destruct Hz as [[<-|Hz]|Hz].
           ++ exact D2.
           ++ apply (Ht y x z D2), Hx, Hz.
           ++ apply Hy, Hz.
Qed.

(** The three facts about the end of the sequence that the section takes,
    for a sequence whose last symbol occurs once. *)
Section LastUnique.

Variables (s : Z -> Z) (len : Z).
Hypothesis s_last : last_is_unique s len.

Lemma last_triple_unique x y :
  0 <= x -> x < y -> len - 3 <= y < len -> same_triple s x y = false.
Proof.
  intros Hx Hxy Hy. destruct (same_triple s x y) eqn:E; [|reflexivity].
  apply same_triple_iff in E. destruct E as (E0 & E1 & E2). exfalso.
  assert (C : y = len - 1 \/ y = len - 2 \/ y = len - 3) by lia.
  destruct C as [-> | [-> | ->]].
  - apply (s_last x); [lia|exact E0].
  - apply (s_last (x + 1)); [lia|]. rewrite E1. f_equal. lia.
  - apply (s_last (x + 2)); [lia|]. rewrite E2. f_equal. lia.
Qed.

Lemma end_triple_unique x y :
  0 <= x < len -> 0 <= y < len -> x <> y -> len - 3 <= y ->
  same_triple s x y = false.
Proof.
  intros Hx Hy Hne Hend.
  destruct (Z.lt_trichotomy x y) as [H|[H|H]]; [|lia|].
  - apply last_triple_unique; lia.
  - rewrite same_triple_sym. apply last_triple_unique; lia.
Qed.

Lemma unique_ends x y :
  0 < x < len -> x mod 3 <> 0 -> 0 < y < len -> y mod 3 <> 0 ->
  x <> y -> len - 3 <= y -> same_triple s x y = false.
Proof. intros. apply end_triple_unique; lia. Qed.

Lemma unique_pushed y :
  0 <= y < len - 1 -> y mod 3 = 0 -> len mod 3 = 1 -> s y <> s (len - 1).
Proof. intros Hy _ _. apply s_last, Hy. Qed.

Lemma unique_ties x y :
  0 < x < len -> x mod 3 <> 0 -> 0 <= y < len -> y mod 3 = 0 ->
  s x = s y ->
  (x mod 3 = 1 -> x + 1 < len /\ y + 1 < len)
  /\ (x mod 3 = 2 -> s (x + 1) = s (y + 1) -> x + 2 < len /\ y + 2 < len).
Proof.
  intros Hx Hx0 Hy Hy0 E.
  assert (Hxy : x <> y) by (intros ->; apply Hx0; exact Hy0).
  assert (Hxl : x <> len - 1).
  { intros Ex. apply (s_last y); [lia|]. rewrite <- Ex. symmetry. exact E. }
  assert (Hyl : y <> len - 1).
  { intros Ey. apply (s_last x); [lia|]. rewrite <- Ey. exact E. }
  split; [intros _; lia|]. intros _ E'.
  assert (Hxl' : x + 1 <> len - 1).
  { intros Eq. apply (s_last (y + 1)); [lia|].
    rewrite <- E'. f_equal. exact Eq. }
  assert (Hyl' : y + 1 <> len - 1).
  { intros Eq. apply (s_last (x + 1)); [lia|].
    rewrite E'. f_equal. exact Eq. }
  lia.
Qed.

End LastUnique.

(** One call, when the nested call (if it is made) gives the order of the
    suffixes of the names. *)
Lemma step_sorted fuel s (n : nat) res :
  let len := Z.of_nat n in
  let alen := 2 * len / 3 in
  let r := (alen + 1) / 2 in
  let b := snd (names s r (triplet_sort s (samples (Z.to_nat alen)))) in
  len <= max_length ->
  (forall i, 0 <= i -> 0 <= s i < 2 ^ 32) ->
  (forall x y, 0 < x < len -> x mod 3 <> 0 -> 0 < y < len -> y mod 3 <> 0 ->
               x <> y -> len - 3 <= y -> same_triple s x y = false) ->
  (forall y, 0 <= y < len - 1 -> y mod 3 = 0 -> len mod 3 = 1 ->
             s y <> s (len - 1)) ->
  (forall x y, 0 < x < len -> x mod 3 <> 0 -> 0 <= y < len -> y mod 3 = 0 ->
               s x = s y ->
               (x mod 3 = 1 -> x + 1 < len /\ y + 1 < len)
               /\ (x mod 3 = 2 -> s (x + 1) = s (y + 1) ->
                   x + 2 < len /\ y + 2 < len)) ->
  (forall rec,
     _suffixArray fuel (reduced (Int alen) b) (Int alen) = Some rec ->
     2 <= alen ->
     StronglySorted (suffix_lt (reduced (Int alen) b)) rec) ->
  _suffixArray (S fuel) s (Int len) = Some res ->
  StronglySorted (suffix_lt s) res.
Proof.
  intros len alen r b Hb Hs A1 A2 A3 Hnested Hres.
  assert (Hlen : 0 <= len <= max_length) by (unfold len; lia).
  pose proof (alen_range len Hlen) as Ha.
  pose proof (r_model len Hlen) as Hr. cbv zeta in Hr.
  cbn [num_add num_ToInt32] in Hr.
  rewrite _suffixArray_step in Hres. cbv zeta in Hres.
  rewrite Hr in Hres. clear Hr.
  rewrite init_a_len in Hres by lia.
  destruct (_ <? S fuel)%nat; [|discriminate].
  pose proof (triplet_sort_perm s (samples (Z.to_nat (2 * len / 3))))
    as Hperm.
  fold alen r in Hres, Hperm.
  set (a3 := triplet_sort s (samples (Z.to_nat alen))) in *.
  fold b in Hres.
  assert (Hin : forall a, Permutation (samples (Z.to_nat alen)) a ->
            forall y, In y a <-> 0 < y < len /\ y mod 3 <> 0).
  { intros a Hp y. rewrite <- (In_samples len Hlen). split; intros Hy.
    - eapply Permutation_in; [symmetry; exact Hp|exact Hy].
    - eapply Permutation_in; [exact Hp|exact Hy]. }
  assert (Hfin : forall a, Permutation (samples (Z.to_nat alen)) a ->
            StronglySorted (suffix_lt s) a ->
            StronglySorted (suffix_lt s) (finish s (Int len) a)).
  { intros a Hp Hsa. unfold finish. apply merge_sorted_by.
    - apply suffix_lt_trans.
    - intros x y Hx Hy.
      assert (Hy' : 0 <= y < len /\ y mod 3 = 0).
      { apply (In_init_b len Hlen a y (Hin a Hp)).
        eapply Permutation_in; [symmetry; apply bsort_perm|exact Hy]. }
      apply (merge_decides s len Hlen Hs A1 A2 A3 a x y Hsa (Hin a Hp) Hx);
        tauto.
    - exact Hsa.
    - apply (rest_sorted s len Hlen Hs A1 A2 A3 a Hp Hsa). }
  destruct (fst _ <? _) eqn:Hj.
  - apply Z.ltb_lt in Hj.
    destruct (_suffixArray fuel _ _) as [rec|] eqn:Hrec; [|discriminate].
    apply Some_inv in Hres. subst res.
    pose proof (names_nonneg s r a3) as Hj0.
    assert (Hmb : Z.of_nat (Z.to_nat alen) <= max_length)
      by (unfold max_length in *; lia).
    assert (Hprec : Permutation (indices (Z.to_nat alen)) rec).
    { apply (_suffixArray_perm fuel (reduced (Int alen) b) _ rec Hmb).
      rewrite Z2Nat.id by lia. exact Hrec. }
    pose proof (unslot_samples len Hlen) as Hu. cbv zeta in Hu.
    fold alen r in Hu.
    apply Hfin.
    + etransitivity; [exact Hu|]. apply Permutation_map. exact Hprec.
    + eapply StronglySorted_map; [|apply (Hnested rec eq_refl); lia].
      intros i k Hi Hk Hik.
      assert (Hrange : forall z, In z rec -> 0 <= z < alen).
      { intros z Hz.
        assert (0 <= z < Z.of_nat (Z.to_nat alen)); [|lia].
        apply In_indices.
        eapply Permutation_in; [symmetry; exact Hprec|exact Hz]. }
      apply (nested_order s len Hlen Hs A1 A2 A3 i k (Hrange i Hi)
               (Hrange k Hk) Hik).
  - apply Z.ltb_ge in Hj. apply Some_inv in Hres. subst res.
    apply Hfin; [exact Hperm|].
    apply (sample_strict s len Hlen Hs A1 A2 A3). fold alen r a3. lia.
Qed.

(** For a sequence of symbols in [0, 2^32) whose last symbol occurs once,
    of a length up to [max_length], the result is in the strict order of
    the suffixes. *)
Lemma _suffixArray_sorted fuel :
  forall s (n : nat) res,
    Z.of_nat n <= max_length ->
    (forall i, 0 <= i -> 0 <= s i < 2 ^ 32) ->
    last_is_unique s (Z.of_nat n) ->
    _suffixArray fuel s (Int (Z.of_nat n)) = Some res ->
    StronglySorted (suffix_lt s) res.
Proof.
  induction fuel as [|fuel IH]; intros s n res Hb Hs Hlast Hres;
    [discriminate|].
  assert (Hlen : 0 <= Z.of_nat n <= max_length) by lia.
  pose proof (alen_range _ Hlen) as Ha.
  apply (step_sorted fuel s n res Hb Hs
           (unique_ends s _ Hlast) (unique_pushed s _ Hlast)
           (unique_ties s _ Hlast)); [|exact Hres].
  intros rec Hrec H2.
  set (alen := 2 * Z.of_nat n / 3) in *.
  assert (Hm : alen = Z.of_nat (Z.to_nat alen)) by lia.
  assert (Hmb : Z.of_nat (Z.to_nat alen) <= max_length)
    by (unfold max_length in *; lia).
  set (t := reduced (Int alen) _) in *.
  pose proof (names_nonneg s ((alen + 1) / 2)
                (triplet_sort s (samples (Z.to_nat alen)))) as Hj0.
  apply (IH t (Z.to_nat alen) rec Hmb).
  - intros i _. unfold t, reduced. cbn [num_ge].
    destruct (Z.leb_spec alen i); [lia|].
    destruct (_ !! i) as [v|] eqn:E; cbn [default from_option id]; [|lia].
    apply names_values in E.
    pose proof (names_last_bound s ((alen + 1) / 2)
                  (triplet_sort s (samples (Z.to_nat alen)))) as Hl.
    pose proof (Permutation_length
                  (triplet_sort_perm s (samples (Z.to_nat alen)))) as Hp.
    rewrite length_samples in Hp. lia.
  - rewrite <- Hm.
    apply (nested_last_unique s (Z.of_nat n) Hlen Hs
             (unique_ends s _ Hlast) (unique_pushed s _ Hlast)
             (unique_ties s _ Hlast) H2).
  - rewrite <- Hm. exact Hrec.
Qed.

(** ** The suffix array of a sequence whose last symbol occurs once *)

Lemma suffixes_sorted_strict f len res :
  StronglySorted (suffix_lt (guarded f (Int len))) res ->
  suffixes_sorted f len res = true.
Proof.
  induction 1 as [|x l Hs IH Hx]; [reflexivity|].
  destruct l as [|y l]; [reflexivity|].
  cbn [suffixes_sorted]. apply andb_true_iff. split; [|exact IH].
  unfold suffix_le. apply suffix_lt_lex_le. apply (List.Forall_inv Hx).
Qed.

Lemma guarded_last_unique f len :
  last_is_unique f len -> last_is_unique (guarded f (Int len)) len.
Proof.
  intros H i Hi. unfold guarded. cbn [num_ge].
  destruct (Z.leb_spec len i); [lia|].
  destruct (Z.leb_spec len (len - 1)); [lia|]. apply H, Hi.
Qed.

Lemma guarded_range f len :
  (forall i, 0 <= i < len -> 0 <= f i < 2 ^ 32) ->
  forall i, 0 <= i -> 0 <= guarded f (Int len) i < 2 ^ 32.
Proof.
  intros H i Hi. unfold guarded. cbn [num_ge].
  destruct (Z.leb_spec len i); [lia|]. apply H. lia.
Qed.

Lemma accessor_sorted fuel f (n : nat) :
  Z.of_nat n <= max_length -> (n < fuel)%nat ->
  (forall i, 0 <= i < Z.of_nat n -> 0 <= f i < 2 ^ 32) ->
  last_is_unique f (Z.of_nat n) ->
  exists res,
    _suffixArray fuel (guarded f (Int (Z.of_nat n))) (Int (Z.of_nat n))
    = Some res
    /\ Permutation (indices n) res
    /\ StronglySorted (suffix_lt (guarded f (Int (Z.of_nat n)))) res.
Proof.
  intros Hb Hf Hr Hl.
  destruct (_suffixArray_correct fuel (guarded f (Int (Z.of_nat n))) n Hb Hf)
    as (res & Hres & _ & Hp).
  exists res. split; [exact Hres|]. split; [exact Hp|].
  apply (_suffixArray_sorted fuel _ n res Hb); [| |exact Hres].
  - apply guarded_range, Hr.
  - apply guarded_last_unique, Hl.
Qed.

Lemma suffix_at_cons cs x :
  0 <= x < Z.of_nat (length cs) ->
  suffix_at cs x = charCodeAt cs x :: suffix_at cs (x + 1).
Proof.
  intros Hx. unfold suffix_at, charCodeAt.
  destruct (Z.ltb_spec x 0); [lia|].
  replace (Z.to_nat (x + 1)) with (S (Z.to_nat x)) by lia.
  apply drop_S. rewrite nth_lookup.
  destruct (lookup_lt_is_Some_2 cs (Z.to_nat x) ltac:(lia)) as [c ->].
  reflexivity.
Qed.

(** On a string whose last character occurs once, the order of the
    suffixes as the accessor shows them is the lexicographic order of the
    suffixes. *)
Lemma suffix_lt_list_lt cs (k : nat) : forall x y,
  last_is_unique (charCodeAt cs) (Z.of_nat (length cs)) ->
  0 <= x < Z.of_nat (length cs) -> 0 <= y < Z.of_nat (length cs) ->
  (forall j, 0 <= j < Z.of_nat k ->
     guarded (charCodeAt cs) (Int (Z.of_nat (length cs))) (x + j)
     = guarded (charCodeAt cs) (Int (Z.of_nat (length cs))) (y + j)) ->
  guarded (charCodeAt cs) (Int (Z.of_nat (length cs))) (x + Z.of_nat k)
  < guarded (charCodeAt cs) (Int (Z.of_nat (length cs))) (y + Z.of_nat k) ->
  list_lt (suffix_at cs x) (suffix_at cs y).
Proof.
  set (n := Z.of_nat (length cs)).
  assert (Hg : forall i, 0 <= i < n ->
            guarded (charCodeAt cs) (Int n) i = charCodeAt cs i).
  { intros i Hi. unfold guarded. cbn [num_ge].
    destruct (Z.leb_spec n i); [lia|reflexivity]. }
  induction k as [|k IH]; intros x y Hl Hx Hy He Hlt.
  - change (Z.of_nat 0) with 0 in Hlt. rewrite !Z.add_0_r in Hlt.
    rewrite !Hg in Hlt by lia.
    rewrite (suffix_at_cons cs x), (suffix_at_cons cs y) by assumption.
    cbn [list_lt]. left. exact Hlt.
  - assert (Hne : x <> y) by (intros ->; lia).
    pose proof (He 0 ltac:(lia)) as E0. rewrite !Z.add_0_r in E0.
    rewrite !Hg in E0 by lia.
    assert (Hxl : x <> n - 1).
    { intros Ex. apply (Hl y); [fold n; lia|].
      fold n. rewrite <- Ex. symmetry. exact E0. }
    assert (Hyl : y <> n - 1).
    { intros Ey. apply (Hl x); [fold n; lia|].
      fold n. rewrite <- Ey. exact E0. }
    rewrite (suffix_at_cons cs x), (suffix_at_cons cs y) by assumption.
    cbn [list_lt]. right. split; [exact E0|].
    apply IH; [exact Hl|fold n; lia|fold n; lia| |].
    + intros j Hj. specialize (He (j + 1) ltac:(lia)).
      replace (x + 1 + j) with (x + (j + 1)) by lia.
      replace (y + 1 + j) with (y + (j + 1)) by lia. exact He.
    + replace (x + 1 + Z.of_nat k) with (x + Z.of_nat (S k)) by lia.
      replace (y + 1 + Z.of_nat k) with (y + Z.of_nat (S k)) by lia.
      exact Hlt.
Qed.

(** For a function whose last symbol [s(len - 1)] occurs only there, with
    values in [0, 2^32) and a length up to [max_length], the result is the
    suffix array: a permutation of [0 .. len-1] in which every suffix is
    strictly below all the later ones. *)
Theorem unique_last_symbol_sorted (fuel : nat) (f : Z -> Z) (n : nat) :
  Z.of_nat n <= max_length -> (n < fuel)%nat ->
  (forall i, 0 <= i < Z.of_nat n -> 0 <= f i < 2 ^ 32) ->
  last_is_unique f (Z.of_nat n) ->
  exists res,
    suffixArray fuel (Fn f) (Number (Int (Z.of_nat n))) = Some res
    /\ Permutation (indices n) res
    /\ StronglySorted (suffix_lt (guarded f (Int (Z.of_nat n)))) res
    /\ suffixes_sorted f (Z.of_nat n) res = true.
Proof.
  intros Hb Hf Hr Hl. rewrite suffixArray_Fn.
  destruct (accessor_sorted fuel f n Hb Hf Hr Hl) as (res & H1 & H2 & H3).
  exists res. split; [exact H1|]. split; [exact H2|]. split; [exact H3|].
  apply suffixes_sorted_strict, H3.
Qed.

Lemma unique_last_symbol_sorted_witness :
  Z.of_nat 4 <= max_length /\ (4 < 5)%nat
  /\ (forall i, 0 <= i < Z.of_nat 4 ->
        0 <= (fun i => if i =? 3 then 0 else 7) i < 2 ^ 32)
  /\ last_is_unique (fun i => if i =? 3 then 0 else 7) (Z.of_nat 4)
  /\ exists res,
       suffixArray 5 (Fn (fun i => if i =? 3 then 0 else 7))
                   (Number (Int (Z.of_nat 4))) = Some res
       /\ Permutation (indices 4) res
       /\ suffixes_sorted (fun i => if i =? 3 then 0 else 7) (Z.of_nat 4) res
          = true.
Proof.
  assert (H1 : Z.of_nat 4 <= max_length) by (vm_compute; discriminate).
  assert (H2 : (4 < 5)%nat) by lia.
  assert (H3 : forall i, 0 <= i < Z.of_nat 4 ->
                 0 <= (fun i => if i =? 3 then 0 else 7) i < 2 ^ 32).
  { intros i _. cbn beta. change (2 ^ 32) with 4294967296.
    destruct (i =? 3); lia. }
  assert (H4 : last_is_unique (fun i => if i =? 3 then 0 else 7)
                              (Z.of_nat 4)).
  { intros i Hi. change (Z.of_nat 4 - 1) with 3 in *. cbn beta.
    destruct (Z.eqb_spec i 3); [lia|]. cbn. discriminate. }
  split; [exact H1|]. split; [exact H2|]. split; [exact H3|].
  split; [exact H4|].
  destruct (unique_last_symbol_sorted 5 _ 4 H1 H2 H3 H4)
    as (res & R1 & R2 & _ & R4).
  exists res. split; [exact R1|]. split; [exact R2|exact R4].
Defined.

(** For a string whose last character occurs only there (a terminated
    string), of code units in [0, 2^32) and a length up to [max_length],
    [suffixArray] returns the suffix array: a permutation of the positions
    in which the suffixes are in strictly ascending lexicographic order. *)
Theorem terminated_string_sorted (fuel : nat) (cs : list Z) :
  Z.of_nat (length cs) <= max_length -> (length cs < fuel)%nat ->
  Forall (fun c => 0 <= c < 2 ^ 32) cs ->
  last_is_unique (charCodeAt cs) (Z.of_nat (length cs)) ->
  exists res,
    suffixArray fuel (Str cs) Undefined = Some res
    /\ Permutation (indices (length cs)) res
    /\ StronglySorted (fun x y => list_lt (suffix_at cs x) (suffix_at cs y))
                      res.
Proof.
  intros Hb Hf Hr Hl. rewrite suffixArray_Str.
  destruct (accessor_sorted fuel (charCodeAt cs) (length cs) Hb Hf)
    as (res & H1 & H2 & H3); [|exact Hl|].
  { intros i Hi. apply charCodeAt_range; assumption. }
  exists res. split; [exact H1|]. split; [exact H2|].
  eapply StronglySorted_weaken; [|exact H3].
  intros x y Hx Hy (k & Hk & He & Hlt).
  assert (Hin : forall z, In z res -> 0 <= z < Z.of_nat (length cs)).
  { intros z Hz. apply In_indices.
    eapply Permutation_in; [symmetry; exact H2|exact Hz]. }
  apply (suffix_lt_list_lt cs (Z.to_nat k) x y Hl (Hin x Hx) (Hin y Hy)).
  - intros j Hj. apply He. lia.
  - rewrite Z2Nat.id by lia. exact Hlt.
Qed.

Lemma terminated_string_sorted_witness :
  Z.of_nat (length (codes "banana$")) <= max_length
  /\ (length (codes "banana$") < 8)%nat
  /\ exists res,
       suffixArray 8 (Str (codes "banana$")) Undefined = Some res
       /\ Permutation (indices (length (codes "banana$"))) res
       /\ StronglySorted
            (fun x y => list_lt (suffix_at (codes "banana$") x)
                                (suffix_at (codes "banana$") y)) res.
Proof.
  assert (H1 : Z.of_nat (length (codes "banana$")) <= max_length)
    by (vm_compute; discriminate).
  assert (H2 : (length (codes "banana$") < 8)%nat) by (simpl; lia).
  split; [exact H1|]. split; [exact H2|].
  apply (terminated_string_sorted 8 (codes "banana$") H1 H2).
  - repeat constructor; vm_compute; discriminate || reflexivity.
  - intros i Hi. change (Z.of_nat (length (codes "banana$")) - 1) with 6 in *.
    assert (C : i = 0 \/ i = 1 \/ i = 2 \/ i = 3 \/ i = 4 \/ i = 5) by lia.
    destruct C as [-> | [-> | [-> | [-> | [-> | ->]]]]];
      vm_compute; discriminate.
Defined.

(** ** A length that is a multiple of 3, symbols that are not 0 *)

(** The three facts about the end of the sequence, for a length that is a
    multiple of 3 and symbols from 1 on, with 0 beyond the end. *)
Section MultipleOfThree.

Variables (s : Z -> Z) (len : Z).
Hypothesis len_three : len mod 3 = 0.
Hypothesis positive : forall i, 0 <= i < len -> 1 <= s i.
Hypothesis zero_beyond : forall i, len <= i -> s i = 0.

Lemma three_ends x y :
  0 < x < len -> x mod 3 <> 0 -> 0 < y < len -> y mod 3 <> 0 ->
  x <> y -> len - 3 <= y -> same_triple s x y = false.
Proof using len_three positive zero_beyond.
  intros Hx Hx0 Hy Hy0 Hne Hend.
  destruct (same_triple s x y) eqn:E; [|reflexivity].
  apply same_triple_iff in E. destruct E as (E0 & E1 & E2). exfalso.
  pose proof (positive (x + 1)). pose proof (positive (x + 2)).
  pose proof (positive (y + 1)). pose proof (positive (y + 2)).
  pose proof (zero_beyond (x + 1)). pose proof (zero_beyond (x + 2)).
  pose proof (zero_beyond (y + 1)). pose proof (zero_beyond (y + 2)).
  Z.div_mod_to_equations. lia.
Qed.

Lemma three_pushed y :
  0 <= y < len - 1 -> y mod 3 = 0 -> len mod 3 = 1 -> s y <> s (len - 1).
Proof. intros _ _ H. rewrite len_three in H. discriminate H. Qed.

Lemma three_ties x y :
  0 < x < len -> x mod 3 <> 0 -> 0 <= y < len -> y mod 3 = 0 ->
  s x = s y ->
  (x mod 3 = 1 -> x + 1 < len /\ y + 1 < len)
  /\ (x mod 3 = 2 -> s (x + 1) = s (y + 1) -> x + 2 < len /\ y + 2 < len).
Proof using len_three positive zero_beyond.
  intros Hx Hx0 Hy Hy0 E.
  pose proof (positive (x + 1)). pose proof (positive (y + 1)).
  pose proof (zero_beyond (x + 1)). pose proof (zero_beyond (y + 1)).
  split; [intros Hm1|intros Hm2 E1]; Z.div_mod_to_equations; lia.
Qed.

End MultipleOfThree.

Lemma accessor_sorted_three fuel f (n : nat) :
  Z.of_nat n <= max_length -> (n < fuel)%nat ->
  Z.of_nat n mod 3 = 0 ->
  (forall i, 0 <= i < Z.of_nat n -> 1 <= f i < 2 ^ 32) ->
  exists res,
    _suffixArray fuel (guarded f (Int (Z.of_nat n))) (Int (Z.of_nat n))
    = Some res
    /\ Permutation (indices n) res
    /\ StronglySorted (suffix_lt (guarded f (Int (Z.of_nat n)))) res.
Proof.
  intros Hb Hf H3 Hr.
  destruct (_suffixArray_correct fuel (guarded f (Int (Z.of_nat n))) n Hb Hf)
    as (res & Hres & _ & Hp).
  exists res. split; [exact Hres|]. split; [exact Hp|].
  destruct fuel as [|fuel]; [lia|].
  set (s := guarded f (Int (Z.of_nat n))) in *.
  assert (Hlen : 0 <= Z.of_nat n <= max_length) by lia.
  assert (Hs : forall i, 0 <= i -> 0 <= s i < 2 ^ 32).
  { apply guarded_range. intros i Hi. specialize (Hr i Hi). lia. }
  assert (Hpos : forall i, 0 <= i < Z.of_nat n -> 1 <= s i).
  { intros i Hi. unfold s, guarded. cbn [num_ge].
    destruct (Z.leb_spec (Z.of_nat n) i); [lia|]. apply Hr, Hi. }
  assert (Hzero : forall i, Z.of_nat n <= i -> s i = 0).
  { intros i Hi. unfold s, guarded. cbn [num_ge].
    destruct (Z.leb_spec (Z.of_nat n) i); [reflexivity|lia]. }
  pose proof (three_ends s _ H3 Hpos Hzero) as A1.
  pose proof (three_pushed s _ H3) as A2.
  pose proof (three_ties s _ H3 Hpos Hzero) as A3.
  apply (step_sorted fuel s n res Hb Hs A1 A2 A3); [|exact Hres].
  intros rec Hrec H2.
  pose proof (alen_range _ Hlen) as Ha.
  set (alen := 2 * Z.of_nat n / 3) in *.
  assert (Hm : alen = Z.of_nat (Z.to_nat alen)) by lia.
  assert (Hmb : Z.of_nat (Z.to_nat alen) <= max_length)
    by (unfold max_length in *; lia).
  set (t := reduced (Int alen) _) in *.
  apply (_suffixArray_sorted fuel t (Z.to_nat alen) rec Hmb).
  - intros i _. unfold t, reduced. cbn [num_ge].
    destruct (Z.leb_spec alen i); [lia|].
    destruct (_ !! i) as [v|] eqn:E; cbn [default from_option id]; [|lia].
    apply names_values in E.
    pose proof (names_last_bound s ((alen + 1) / 2)
                  (triplet_sort s (samples (Z.to_nat alen)))) as Hl.
    pose proof (Permutation_length
                  (triplet_sort_perm s (samples (Z.to_nat alen)))) as Hpl.
    rewrite length_samples in Hpl. lia.
  - rewrite <- Hm.
    apply (nested_last_unique s (Z.of_nat n) Hlen Hs A1 A2 A3 H2).
  - rewrite <- Hm. exact Hrec.
Qed.

Lemma suffix_at_end cs x :
  Z.of_nat (length cs) <= x -> suffix_at cs x = [].
Proof. intros Hx. unfold suffix_at. apply drop_ge. lia. Qed.

(** On a string without the character 0 the order of the suffixes as the
    accessor shows them, with 0 beyond the end, is the lexicographic order
    of the suffixes. *)
Lemma suffix_lt_list_lt_positive cs (k : nat) : forall x y,
  Forall (fun c => 1 <= c) cs ->
  0 <= x <= Z.of_nat (length cs) -> 0 <= y <= Z.of_nat (length cs) ->
  (forall j, 0 <= j < Z.of_nat k ->
     guarded (charCodeAt cs) (Int (Z.of_nat (length cs))) (x + j)
     = guarded (charCodeAt cs) (Int (Z.of_nat (length cs))) (y + j)) ->
  guarded (charCodeAt cs) (Int (Z.of_nat (length cs))) (x + Z.of_nat k)
  < guarded (charCodeAt cs) (Int (Z.of_nat (length cs))) (y + Z.of_nat k) ->
  list_lt (suffix_at cs x) (suffix_at cs y).
Proof.
  set (n := Z.of_nat (length cs)). intros x y Hpos. revert x y.
  assert (Hg : forall i, 0 <= i < n ->
            guarded (charCodeAt cs) (Int n) i = charCodeAt cs i
            /\ 1 <= charCodeAt cs i).
  { intros i Hi. unfold guarded. cbn [num_ge].
    destruct (Z.leb_spec n i); [lia|]. split; [reflexivity|].
    unfold charCodeAt. destruct (Z.ltb_spec i 0); [lia|].
    rewrite List.Forall_forall in Hpos. apply Hpos, nth_In. lia. }
  assert (Hz : forall i, n <= i -> guarded (charCodeAt cs) (Int n) i = 0).
  { intros i Hi. unfold guarded. cbn [num_ge].
    destruct (Z.leb_spec n i); [reflexivity|lia]. }
  induction k as [|k IH]; intros x y Hx Hy He Hlt.
  - change (Z.of_nat 0) with 0 in Hlt. rewrite !Z.add_0_r in Hlt.
    destruct (Z.eq_dec y n) as [->|Hyn].
    { rewrite (Hz n) in Hlt by lia.
      destruct (Z.eq_dec x n) as [->|Hxn].
      - rewrite (Hz n) in Hlt by lia. lia.
      - destruct (Hg x ltac:(lia)) as [Gx Px]. lia. }
    destruct (Hg y ltac:(lia)) as [Gy Py].
    rewrite (suffix_at_cons cs y) by (fold n; lia).
    destruct (Z.eq_dec x n) as [->|Hxn].
    + rewrite suffix_at_end by (fold n; lia). exact I.
    + destruct (Hg x ltac:(lia)) as [Gx Px].
      rewrite (suffix_at_cons cs x) by (fold n; lia).
      cbn [list_lt]. left. lia.
  - pose proof (He 0 ltac:(lia)) as E0. rewrite !Z.add_0_r in E0.
    assert (Hxn : x <> n).
    { intros ->. rewrite (Hz n) in E0 by lia.
      destruct (Z.eq_dec y n) as [->|Hyn].
      - rewrite !Hz in Hlt by lia. lia.
      - destruct (Hg y ltac:(lia)) as [Gy Py]. lia. }
    assert (Hyn : y <> n).
    { intros ->. rewrite (Hz n) in E0 by lia.
      destruct (Hg x ltac:(lia)) as [Gx Px]. lia. }
    destruct (Hg x ltac:(lia)) as [Gx Px].
    destruct (Hg y ltac:(lia)) as [Gy Py].
    rewrite (suffix_at_cons cs x), (suffix_at_cons cs y) by (fold n; lia).
    cbn [list_lt]. right. split; [lia|].
    apply IH; [lia|lia| |].
    + intros j Hj. specialize (He (j + 1) ltac:(lia)).
      replace (x + 1 + j) with (x + (j + 1)) by lia.
      replace (y + 1 + j) with (y + (j + 1)) by lia. exact He.
    + replace (x + 1 + Z.of_nat k) with (x + Z.of_nat (S k)) by lia.
      replace (y + 1 + Z.of_nat k) with (y + Z.of_nat (S k)) by lia.
      exact Hlt.
Qed.

(** For a string whose length is a multiple of 3 and which has no character
    of code 0 (code units in [1, 2^32), length up to [max_length]),
    [suffixArray] returns the suffix array: a permutation of the positions
    in which the suffixes are in strictly ascending lexicographic order. *)
Theorem multiple_of_three_sorted (fuel : nat) (cs : list Z) :
  Z.of_nat (length cs) <= max_length -> (length cs < fuel)%nat ->
  Z.of_nat (length cs) mod 3 = 0 ->
  Forall (fun c => 1 <= c < 2 ^ 32) cs ->
  exists res,
    suffixArray fuel (Str cs) Undefined = Some res
    /\ Permutation (indices (length cs)) res
    /\ StronglySorted (fun x y => list_lt (suffix_at cs x) (suffix_at cs y))
                      res.
Proof.
  intros Hb Hf H3 Hr. rewrite suffixArray_Str.
  destruct (accessor_sorted_three fuel (charCodeAt cs) (length cs) Hb Hf H3)
    as (res & H1 & H2 & Hs).
  { intros i Hi. unfold charCodeAt. destruct (Z.ltb_spec i 0); [lia|].
    rewrite List.Forall_forall in Hr. apply Hr, nth_In. lia. }
  exists res. split; [exact H1|]. split; [exact H2|].
  eapply StronglySorted_weaken; [|exact Hs].
  intros x y Hx Hy (k & Hk & He & Hlt).
  assert (Hin : forall z, In z res -> 0 <= z < Z.of_nat (length cs)).
  { intros z Hz. apply In_indices.
    eapply Permutation_in; [symmetry; exact H2|exact Hz]. }
  pose proof (Hin x Hx). pose proof (Hin y Hy).
  apply (suffix_lt_list_lt_positive cs (Z.to_nat k) x y); [|lia|lia| |].
  - eapply List.Forall_impl; [|exact Hr]. intros c [Hc _]. exact Hc.
  - intros j Hj. apply He. lia.
  - rewrite Z2Nat.id by lia. exact Hlt.
Qed.

Lemma multiple_of_three_sorted_witness :
  Z.of_nat (length (codes "banana")) <= max_length
  /\ (length (codes "banana") < 7)%nat
  /\ Z.of_nat (length (codes "banana")) mod 3 = 0
  /\ exists res,
       suffixArray 7 (Str (codes "banana")) Undefined = Some res
       /\ Permutation (indices (length (codes "banana"))) res
       /\ StronglySorted
            (fun x y => list_lt (suffix_at (codes "banana") x)
                                (suffix_at (codes "banana") y)) res.
Proof.
  assert (H1 : Z.of_nat (length (codes "banana")) <= max_length)
    by (vm_compute; discriminate).
  assert (H2 : (length (codes "banana") < 7)%nat) by (simpl; lia).
  assert (H3 : Z.of_nat (length (codes "banana")) mod 3 = 0) by reflexivity.
  split; [exact H1|]. split; [exact H2|]. split; [exact H3|].
  apply (multiple_of_three_sorted 7 (codes "banana") H1 H2 H3).
  repeat constructor; vm_compute; discriminate || reflexivity.
Defined.

(** * An explicit length of 0 *)



